(** * Verification of [src/utils.py]

    The module wraps a cross-validated hyperparameter search and a few
    reporting helpers around scikit-learn, pandas, numpy and joblib.  This
    development embeds [StratifiedKFoldTestPredictions], [confusion_matrix],
    [scaled_mcc] and the class [gridsearch] ([_train_test_split], [_eval],
    [fit]) and proves the properties stated about them.

    Conventions of the embedding.
    - A Python call either returns or raises: [result A] is [Ok a] or
      [Raise e].  Code with effects runs in the monad [M] over a [store]
      that holds the state outside the program (the type [world], on which
      the estimator and the scoring function may depend), the attributes
      that [fit] assigns, and a trace that records each call to the
      fold splitter, to the estimator and to the scoring function.
    - The third-party functions are modelled after their documentation:
      [np_argmax], [np_round], [np_unique], [np_empty_like], [crosstab],
      [matthews_corrcoef], [ParameterGrid], [Parallel] and the index pairs
      of [StratifiedKFold.split].  The stratified assignment of samples to
      folds, the estimator, the scoring function, [np.mean] and [np.std]
      are parameters of the development.
    - float64 scores are primitive floats, so that NaN and the order of
      floats are those of the machine.  The entries of the confusion matrix
      and the Matthews coefficient are computed in exact arithmetic (Q
      and R): rounding errors of float64 arithmetic are not modelled.
    - [NpEncoder], [tqdm_joblib] and [Timer] are embedded on their own, in
      the modules [NpEncoder], [TqdmJoblib] and [Timer]; in the model of
      [fit] the progress bar around the parallel loop is left out, for it
      has no effect on the values computed. *)

From Stdlib Require Import String.
From Stdlib Require Import List ZArith QArith Qround Qabs Reals Lra Lia Lqa.
From Stdlib Require Import Bool PeanoNat Floats Permutation Sorted.
Import ListNotations.
Open Scope list_scope.
Open Scope nat_scope.

(* ================================================================= *)
(** * Python values *)

(** An exception: the name of its class and its message. *)
Inductive exn : Type := Exn (type : string) (msg : string).

Definition ValueError : string -> exn := Exn "ValueError".
Definition TypeError : string -> exn := Exn "TypeError".
Definition IndexError : string -> exn := Exn "IndexError".
Definition AttributeError : string -> exn := Exn "AttributeError".

Inductive result (A : Type) : Type :=
| Ok (a : A)
| Raise (e : exn).
Arguments Ok {A} a.
Arguments Raise {A} e.

Definition rbind {A B} (r : result A) (k : A -> result B) : result B :=
  match r with
  | Ok a => k a
  | Raise e => Raise e
  end.

Notation "x <-- r ;; k" := (rbind r (fun x => k))
  (at level 61, r at next level, right associativity).

Definition raised {A} (r : result A) : option exn :=
  match r with
  | Ok _ => None
  | Raise e => Some e
  end.

(** Class labels are integers. *)
Abbreviation label := Z.

(* ================================================================= *)
(** * numpy arrays *)

(** [a[idx]] for an array of indices. *)
Fixpoint take {A} (a : list A) (idx : list nat) : result (list A) :=
  match idx with
  | [] => Ok []
  | i :: idx' =>
      match nth_error a i with
      | Some x => xs <-- take a idx' ;; Ok (x :: xs)
      | None => Raise (IndexError "index is out of bounds")
      end
  end.

Fixpoint set_nth {A} (a : list A) (i : nat) (v : A) : list A :=
  match a, i with
  | [], _ => []
  | _ :: a', O => v :: a'
  | x :: a', S i' => x :: set_nth a' i' v
  end.

Fixpoint put {A} (a : list A) (idx : list nat) (vals : list A) : result (list A) :=
  match idx, vals with
  | [], _ => Ok a
  | i :: idx', v :: vals' =>
      if i <? length a then put (set_nth a i v) idx' vals'
      else Raise (IndexError "index is out of bounds")
  | _ :: _, [] => Raise (ValueError "shape mismatch")
  end.

(** [a[idx] = vals]: one value per index, or a single value that is
    broadcast to every index. *)
Definition setitems {A} (a : list A) (idx : list nat) (vals : list A) : result (list A) :=
  if length vals =? length idx then put a idx vals
  else match vals with
       | [v] => put a idx (repeat v (length idx))
       | _ => Raise (ValueError "shape mismatch")
       end.

(** [l[i]] on a Python list. *)
Definition getitem {A} (l : list A) (i : nat) : result A :=
  match nth_error l i with
  | Some a => Ok a
  | None => Raise (IndexError "list index out of range")
  end.

(** [np.unique]: the sorted distinct values. *)
Fixpoint insert_unique (x : label) (l : list label) : list label :=
  match l with
  | [] => [x]
  | y :: l' => if (x <? y)%Z then x :: l
               else if (x =? y)%Z then l
               else y :: insert_unique x l'
  end.

Definition np_unique (l : list label) : list label := fold_right insert_unique [] l.

(** [np.rint]: the nearest integer, halves to the even one. *)
Definition rint (q : Q) : Z :=
  let f := Qfloor q in
  match Qcompare (q - inject_Z f) (1 # 2) with
  | Lt => f
  | Gt => (f + 1)%Z
  | Eq => if Z.even f then f else (f + 1)%Z
  end.

(** [np.round(q, decimals)]. *)
Definition np_round (q : Q) (decimals : nat) : Q :=
  let scale := inject_Z (10 ^ Z.of_nat decimals) in
  (inject_Z (rint (q * scale)) / scale)%Q.

(** [np.argmax] on a float64 array: the loop keeps the first maximum and
    stops at the first NaN, which it returns. *)
Fixpoint argmax_from (mp : float) (max_ind i : nat) (ip : list float) : nat :=
  match ip with
  | [] => max_ind
  | x :: rest =>
      if negb (PrimFloat.leb x mp)
      then (if PrimFloat.is_nan x then i else argmax_from x i (S i) rest)
      else argmax_from mp max_ind (S i) rest
  end.

Definition np_argmax (a : list float) : result nat :=
  match a with
  | [] => Raise (ValueError "attempt to get argmax of an empty sequence")
  | x :: rest => Ok (if PrimFloat.is_nan x then 0 else argmax_from x 0 1 rest)
  end.

Definition no_nan (l : list float) : Prop :=
  Forall (fun x => PrimFloat.is_nan x = false) l.

(* ================================================================= *)
(** * sklearn.metrics.matthews_corrcoef and [scaled_mcc] *)

Definition sumZ (l : list Z) : Z := fold_right Z.add 0%Z l.

(** Number of samples of class [k]. *)
Definition count_label (k : label) (ys : list label) : Z :=
  Z.of_nat (count_occ Z.eq_dec ys k).

(** The classes that occur in either array. *)
Definition classes (y_true y_pred : list label) : list label :=
  nodup Z.eq_dec (y_true ++ y_pred).

(** Number of samples predicted correctly (the trace of the confusion matrix). *)
Fixpoint n_correct (y_true y_pred : list label) : Z :=
  match y_true, y_pred with
  | t :: ts, p :: ps => ((if Z.eqb t p then 1 else 0) + n_correct ts ps)%Z
  | _, _ => 0%Z
  end.

Definition dot (K : list label) (u v : label -> Z) : Z :=
  sumZ (map (fun k => u k * v k)%Z K).

Definition cov_ytyp (y_true y_pred : list label) : Z :=
  let K := classes y_true y_pred in
  let n := Z.of_nat (length y_pred) in
  (n_correct y_true y_pred * n
   - dot K (fun k => count_label k y_true) (fun k => count_label k y_pred))%Z.

Definition cov_yy (K : list label) (ys : list label) (n : Z) : Z :=
  (n * n - dot K (fun k => count_label k ys) (fun k => count_label k ys))%Z.

Definition matthews_corrcoef (y_true y_pred : list label) : result R :=
  if negb (length y_true =? length y_pred)
  then Raise (ValueError "Found input variables with inconsistent numbers of samples")
  else
    let K := classes y_true y_pred in
    let n := Z.of_nat (length y_pred) in
    let cov_ypyp := cov_yy K y_pred n in
    let cov_ytyt := cov_yy K y_true n in
    if (cov_ypyp * cov_ytyt =? 0)%Z then Ok 0%R
    else Ok (IZR (cov_ytyp y_true y_pred) / R_sqrt.sqrt (IZR (cov_ytyt * cov_ypyp)))%R.

(** [scaled_mcc], lines 71-73. *)
Definition scaled_mcc (y_true y_pred : list label) : result R :=
  m <-- matthews_corrcoef y_true y_pred ;;
  Ok ((m + 1) / 2)%R.

(* ================================================================= *)
(** * pandas.crosstab and [confusion_matrix] *)

Inductive axis_label : Type := LInt (z : Z) | LStr (s : string).

Record DataFrame : Type := {
  df_index : list axis_label;
  df_columns : list axis_label;
  df_values : list (list Q)
}.

Definition count_if {A} (p : A -> bool) (l : list A) : Z := Z.of_nat (length (filter p l)).

Definition pair_is (r c : label) (p : label * label) : bool :=
  ((fst p =? r) && (snd p =? c))%Z.

(** [pd.crosstab(index, columns, margins=True, margins_name=..., normalize=...)]
    for [normalize] in {False, True}: one row per value of [index], one column
    per value of [columns], the counts of the pairs, and the margins computed
    from the rows and the columns themselves. *)
Definition crosstab (index columns : list label) (margins_name : string) (normalize : bool)
  : result DataFrame :=
  if negb (length index =? length columns)
  then Raise (ValueError "All arrays must be of the same length")
  else
    let pairs := combine index columns in
    let rows := np_unique index in
    let cols := np_unique columns in
    let total := Z.of_nat (length pairs) in
    let cell (z : Z) : Q :=
      if normalize then (inject_Z z / inject_Z total)%Q else inject_Z z in
    let core_row r := map (fun c => cell (count_if (pair_is r c) pairs)) cols in
    let column_margin r := cell (count_if (fun p => (fst p =? r)%Z) pairs) in
    let index_margin := map (fun c => cell (count_if (fun p => (snd p =? c)%Z) pairs)) cols in
    let corner : Q := if normalize then 1%Q else inject_Z total in
    Ok {| df_index := map LInt rows ++ [LStr margins_name];
          df_columns := map LInt cols ++ [LStr margins_name];
          df_values := map (fun r => core_row r ++ [column_margin r]) rows
                       ++ [index_margin ++ [corner]] |}.

(** [df.columns = new] and [df.index = new]: the new axis must have the
    length of the old one. *)
Definition set_columns (df : DataFrame) (new : list axis_label) : result DataFrame :=
  if length new =? length (df_columns df)
  then Ok {| df_index := df_index df; df_columns := new; df_values := df_values df |}
  else Raise (ValueError "Length mismatch").

Definition set_index (df : DataFrame) (new : list axis_label) : result DataFrame :=
  if length new =? length (df_index df)
  then Ok {| df_index := new; df_columns := df_columns df; df_values := df_values df |}
  else Raise (ValueError "Length mismatch").

(** [df.round(decimals)]. *)
Definition df_round (df : DataFrame) (decimals : nat) : DataFrame :=
  {| df_index := df_index df; df_columns := df_columns df;
     df_values := map (map (fun q => np_round q decimals)) (df_values df) |}.

(** [confusion_matrix], lines 61-68. *)
Definition confusion_matrix (preds y : list label) (normalize : bool) : result DataFrame :=
  cm <-- crosstab preds y "total" normalize ;;
  cm <-- set_columns cm [LInt 0; LInt 1; LStr "total"] ;;
  cm <-- set_index cm [LInt 0; LInt 1; LStr "total"] ;;
  Ok (df_round cm 2).

(** The entry in row [i] and column [j]. *)
Definition cell (df : DataFrame) (i j : nat) : Q := nth j (nth i (df_values df) []) 0%Q.

(** A list holds exactly two distinct values. *)
Definition two_valued (l : list label) : Prop :=
  exists a b, a <> b /\ forall x, In x l <-> x = a \/ x = b.

(** Two table entries agree up to [tol]. *)
Definition within (tol x y : Q) : Prop := (Qabs (x - y) <= tol)%Q.

(* ================================================================= *)
(** * Context managers: [Timer] and [tqdm_joblib] *)

(** Code that changes a state [S] and may raise. *)
Definition ST (S A : Type) : Type := S -> result A * S.

Definition st_ret {S A} (a : A) : ST S A := fun s => (Ok a, s).

Definition st_bind {S A B} (m : ST S A) (k : A -> ST S B) : ST S B :=
  fun s => match m s with
           | (Ok a, s') => k a s'
           | (Raise e, s') => (Raise e, s')
           end.

(** [with manager as v: block], for a manager whose [__exit__] returns
    None: [__exit__] runs whether the block returns or raises; the
    exception of the block is raised again after it, unless [__exit__]
    raises itself, in which case that exception is the one raised. *)
Definition with_statement {S V A} (enter : ST S V) (exit : ST S unit) (block : V -> ST S A)
  : ST S A :=
  st_bind enter (fun v s1 =>
    match block v s1 with
    | (Ok a, s2) =>
        match exit s2 with
        | (Ok _, s3) => (Ok a, s3)
        | (Raise e, s3) => (Raise e, s3)
        end
    | (Raise e, s2) =>
        match exit s2 with
        | (Ok _, s3) => (Raise e, s3)
        | (Raise e', s3) => (Raise e', s3)
        end
    end).

(** ** The class [Timer], lines 138-151 *)

Module Timer.
Section Model.

(** The state outside the program; [time.perf_counter()] reads its clock. *)
Variable world : Type.
Variable perf_counter : world -> float * world.

(** A [Timer] object: [msg] is a string and the other attributes hold
    floats, as the methods of the class assign them.  An attribute that
    has not been assigned is [None]. *)
Record t : Type := {
  msg : string;
  start : option float;
  end_ : option float;
  interval : option float
}.

(** The outer state, the lines printed so far, and the [Timer] objects
    by reference. *)
Record state : Type := {
  env : world;
  stdout : list string;
  heap : nat -> t;
  next : nat
}.

Definition setattr (self : nat) (change : t -> t) : ST state unit := fun s =>
  (Ok tt, {| env := env s; stdout := stdout s;
             heap := fun r => if r =? self then change (heap s r) else heap s r;
             next := next s |}).

Definition getattr {A} (self : nat) (attr : t -> option A) (name : string) : ST state A :=
  fun s => match attr (heap s self) with
           | Some a => (Ok a, s)
           | None => (Raise (AttributeError name), s)
           end.

Definition time_perf_counter : ST state float := fun s =>
  let (now, w) := perf_counter (env s) in
  (Ok now, {| env := w; stdout := stdout s; heap := heap s; next := next s |}).

Definition print (line : string) : ST state unit := fun s =>
  (Ok tt, {| env := env s; stdout := stdout s ++ [line]; heap := heap s; next := next s |}).

(** [x.seconds] for a float [x]: a float has no such attribute. *)
Definition float_seconds (x : float) : result string :=
  Raise (AttributeError "'float' object has no attribute 'seconds'").

(** [Timer(msg, no_msg)], lines 140-141: a new object; [no_msg] is not
    kept. *)
Definition __init__ (msg0 : string) (no_msg : bool) : ST state nat := fun s =>
  let self := next s in
  (Ok self,
   {| env := env s; stdout := stdout s;
      heap := fun r => if r =? self
                       then {| msg := msg0; start := None; end_ := None; interval := None |}
                       else heap s r;
      next := S self |}).

(** Lines 143-145. *)
Definition __enter__ (self : nat) : ST state nat :=
  st_bind time_perf_counter (fun now =>
  st_bind (setattr self (fun o => {| msg := msg o; start := Some now; end_ := end_ o;
                                      interval := interval o |})) (fun _ =>
  st_ret self)).

(** Lines 147-151. *)
Definition __exit__ (self : nat) : ST state unit :=
  st_bind time_perf_counter (fun now =>
  st_bind (setattr self (fun o => {| msg := msg o; start := start o; end_ := Some now;
                                      interval := interval o |})) (fun _ =>
  st_bind (getattr self end_ "end") (fun e =>
  st_bind (getattr self start "start") (fun s0 =>
  st_bind (setattr self (fun o => {| msg := msg o; start := start o; end_ := end_ o;
                                      interval := Some (PrimFloat.sub e s0) |})) (fun _ =>
  st_bind (getattr self (fun o => Some (msg o)) "msg") (fun m =>
  if String.eqb m ""
  then st_bind (getattr self interval "interval") (fun i =>
       fun s => match float_seconds i with
                | Ok secs => print ("[" ++ m ++ "] Elapsed time: " ++ secs ++ "s") s
                | Raise ex => (Raise ex, s)
                end)
  else st_ret tt)))))).

(** [with Timer(msg) as t: block]. *)
Definition with_Timer {A} (msg0 : string) (block : nat -> ST state A) : ST state A :=
  st_bind (__init__ msg0 false) (fun self =>
  with_statement (__enter__ self) (__exit__ self) block).

End Model.
End Timer.

(** ** [tqdm_joblib], lines 27-44 *)

Module TqdmJoblib.
Section Model.

(** The state of joblib, and what [BatchCompletionCallBack.__call__] of
    joblib itself does when a batch of the given size completes. *)
Variable world : Type.
Variable joblib_call : Z -> world -> result unit * world.

(** A progress bar of tqdm: its counter, and whether it has been closed. *)
Record tqdm : Type := {
  n : Z;
  disable : bool
}.

(** The callback classes: the one of joblib, and the subclasses that
    [tqdm_joblib] defines, each over the class it found in
    [joblib.parallel] and reporting to its own [tqdm_object]. *)
Inductive callback : Type :=
| JoblibCallBack
| TqdmBatchCompletionCallback (tqdm_object : nat) (base : callback).

(** The outer state, the attribute [joblib.parallel.BatchCompletionCallBack]
    and the progress bars by reference. *)
Record state : Type := {
  env : world;
  BatchCompletionCallBack : callback;
  bars : nat -> tqdm
}.

(** [bar.update(n=k)]: a bar that has been closed ignores it. *)
Definition update (bar : nat) (k : Z) : ST state unit := fun s =>
  (Ok tt,
   {| env := env s; BatchCompletionCallBack := BatchCompletionCallBack s;
      bars := fun r => if (r =? bar) && negb (disable (bars s r))
                       then {| n := n (bars s r) + k; disable := false |}
                       else bars s r |}).

(** [bar.close()]. *)
Definition close (bar : nat) : ST state unit := fun s =>
  (Ok tt,
   {| env := env s; BatchCompletionCallBack := BatchCompletionCallBack s;
      bars := fun r => if r =? bar then {| n := n (bars s r); disable := true |}
                       else bars s r |}).

Definition set_callback (cls : callback) : ST state unit := fun s =>
  (Ok tt, {| env := env s; BatchCompletionCallBack := cls; bars := bars s |}).

(** [cls(...).__call__()] for a batch of [batch_size] tasks, lines 34-36:
    the subclass updates its bar, then calls the class it extends. *)
Fixpoint __call__ (cls : callback) (batch_size : Z) : ST state unit :=
  match cls with
  | JoblibCallBack =>
      fun s => let (r, w) := joblib_call batch_size (env s) in
               (r, {| env := w; BatchCompletionCallBack := BatchCompletionCallBack s;
                      bars := bars s |})
  | TqdmBatchCompletionCallback tqdm_object base =>
      st_bind (update tqdm_object batch_size) (fun _ => __call__ base batch_size)
  end.

(** A batch completes: joblib calls an instance of the class that
    [joblib.parallel.BatchCompletionCallBack] names. *)
Definition complete_batch (batch_size : Z) : ST state unit := fun s =>
  __call__ (BatchCompletionCallBack s) batch_size s.

Fixpoint complete_batches (sizes : list Z) : ST state unit :=
  match sizes with
  | [] => st_ret tt
  | k :: rest => st_bind (complete_batch k) (fun _ => complete_batches rest)
  end.

(** [with tqdm_joblib(tqdm_object) as bar: block].  The generator installs
    the subclass and yields the bar; its [finally] runs when the block
    returns and when it raises, and the outcome of the block stays. *)
Definition tqdm_joblib {A} (tqdm_object : nat) (block : nat -> ST state A) : ST state A :=
  fun s =>
    let old_batch_callback := BatchCompletionCallBack s in
    match set_callback (TqdmBatchCompletionCallback tqdm_object old_batch_callback) s with
    | (_, s1) =>
        let (r, s2) := block tqdm_object s1 in
        match st_bind (set_callback old_batch_callback) (fun _ => close tqdm_object) s2 with
        | (_, s3) => (r, s3)
        end
    end.

End Model.
End TqdmJoblib.

(* ================================================================= *)
(** * The class [NpEncoder], lines 15-24 *)

Module NpEncoder.

(** The items of a numeric array, and arrays: an array of dimension 0 is
    one item, an array of a higher dimension is the sequence of its
    sub-arrays along the first axis. *)
Inductive scalar : Type :=
| SBool (b : bool)
| SInt (z : Z)
| SFloat (x : float).

#[warnings="-register-all"] Inductive ndarray : Type :=
| Item (x : scalar)
| Axis (rows : list ndarray).

(** The Python values that meet the encoder: what [json] encodes by
    itself (tuples are encoded as lists; dictionaries have string keys),
    instances of the subclasses of [np.integer] and of [np.floating] with
    the name of their class, numeric arrays, and instances of any other
    class, among them the booleans and the complex numbers of numpy.
    Values are trees: a container does not contain itself. *)
#[warnings="-register-all"] Inductive pyobj : Type :=
| PyNone
| PyBool (b : bool)
| PyInt (z : Z)
| PyFloat (x : float)
| PyStr (s : string)
| PyList (items : list pyobj)
| PyDict (items : list (string * pyobj))
| NpInteger (cls : string) (z : Z)
| NpFloating (cls : string) (x : float)
| NpArray (a : ndarray)
| PyObject (cls : string).

(** A JSON document. *)
#[warnings="-register-all"] Inductive json : Type :=
| JNull
| JBool (b : bool)
| JInt (z : Z)
| JFloat (x : float)
| JStr (s : string)
| JArray (elements : list json)
| JObject (members : list (string * json)).

Definition RecursionError : string -> exn := Exn "RecursionError".

(** [x.item()]: the Python value of an item. *)
Definition item (x : scalar) : pyobj :=
  match x with
  | SBool b => PyBool b
  | SInt z => PyInt z
  | SFloat x => PyFloat x
  end.

(** [a.tolist()]: nested lists of Python values, as deep as the array
    has dimensions. *)
Fixpoint tolist (a : ndarray) : pyobj :=
  match a with
  | Item x => item x
  | Axis rows => PyList (map tolist rows)
  end.

(** [obj.__class__.__name__]. *)
Definition class_name (obj : pyobj) : string :=
  match obj with
  | PyNone => "NoneType"
  | PyBool _ => "bool"
  | PyInt _ => "int"
  | PyFloat _ => "float"
  | PyStr _ => "str"
  | PyList _ => "list"
  | PyDict _ => "dict"
  | NpInteger cls _ => cls
  | NpFloating cls _ => cls
  | NpArray _ => "ndarray"
  | PyObject cls => cls
  end.

(** [json.JSONEncoder.default]: it raises. *)
Definition JSONEncoder_default (obj : pyobj) : result pyobj :=
  Raise (TypeError ("Object of type " ++ class_name obj ++ " is not JSON serializable")).

(** [NpEncoder.default], lines 16-24: [int(obj)], [float(obj)],
    [obj.tolist()], or the method of the base class. *)
Definition default (obj : pyobj) : result pyobj :=
  match obj with
  | NpInteger _ z => Ok (PyInt z)
  | NpFloating _ x => Ok (PyFloat x)
  | NpArray a => Ok (tolist a)
  | _ => JSONEncoder_default obj
  end.

Fixpoint all_ok {A B} (f : A -> result B) (l : list A) : result (list B) :=
  match l with
  | [] => Ok []
  | a :: l' => b <-- f a ;; bs <-- all_ok f l' ;; Ok (b :: bs)
  end.

(** [json.dumps(obj, cls=...)] up to the text: the encoder writes what it
    knows, and gives any other value to [default], whose result it encodes
    in turn.  [depth] is the depth of recursion that Python allows. *)
Fixpoint encode (default : pyobj -> result pyobj) (depth : nat) (obj : pyobj)
  : result json :=
  match depth with
  | O => Raise (RecursionError "maximum recursion depth exceeded")
  | S d =>
      match obj with
      | PyNone => Ok JNull
      | PyBool b => Ok (JBool b)
      | PyInt z => Ok (JInt z)
      | PyFloat x => Ok (JFloat x)
      | PyStr s => Ok (JStr s)
      | PyList items =>
          elements <-- all_ok (encode default d) items ;;
          Ok (JArray elements)
      | PyDict items =>
          members <-- all_ok (fun kv => v <-- encode default d (snd kv) ;; Ok (fst kv, v))
                             items ;;
          Ok (JObject members)
      | _ =>
          obj' <-- default obj ;;
          encode default d obj'
      end
  end.

End NpEncoder.

(* ================================================================= *)
(** * Cross-validation and grid search *)

(** A pair [(train_index, test_index)]. *)
Definition fold : Type := list nat * list nat.

Section Estimation.


(** Rows of the feature matrix, the state outside the program, estimator
    objects and hyperparameter values. *)
Variables sample world estimator value : Type.

(** A candidate: the keyword arguments of the estimator's constructor. *)
Abbreviation params := (list (string * value)).

(** The list [[params, scores, np.mean(scores)]] that [_eval] returns. *)
Record record : Type := {
  r_params : params;
  r_scores : list float;
  r_mean : float
}.

(** What a run leaves in the trace: the call to the splitter with its
    result, the entry of [_eval] into its loop with the partition it read,
    and the calls to the constructor, [fit], [predict] and the scoring
    function with the exception each raised, if any. *)
Inductive event : Type :=
| EvSplit (res : result (list fold))
| EvEval (p : params) (folds : list fold)
| EvConstruct (exc : option exn)
| EvFit (hint : option Z) (exc : option exn)
| EvPredict (exc : option exn)
| EvScore (exc : option exn).

Record store : Type := {
  env : world;
  trace : list event;
  k_fold_splits : option (list fold);
  scoring_results_ : option (list record);
  best_index_ : option nat;
  best_params_ : option params;
  best_score_ : option (float * float)
}.

(** ** The state and exception monad *)

Definition M (A : Type) : Type := store -> result A * store.

Definition ret {A} (a : A) : M A := fun s => (Ok a, s).
Definition raise {A} (e : exn) : M A := fun s => (Raise e, s).
Definition lift {A} (r : result A) : M A := fun s => (r, s).

Definition bind {A B} (m : M A) (k : A -> M B) : M B :=
  fun s => match m s with
           | (Ok a, s') => k a s'
           | (Raise e, s') => (Raise e, s')
           end.

(** [try: m  except: handler]; a bare [except] catches every exception. *)
Definition try_except {A} (m : M A) (handler : exn -> M A) : M A :=
  fun s => match m s with
           | (Ok a, s') => (Ok a, s')
           | (Raise e, s') => handler e s'
           end.

Notation "x <- m ;; k" := (bind m (fun x => k))
  (at level 61, m at next level, right associativity).
Notation "m ;;; k" := (bind m (fun _ => k))
  (at level 61, right associativity).

Definition with_env (s : store) (w : world) (ev : event) : store :=
  {| env := w; trace := trace s ++ [ev];
     k_fold_splits := k_fold_splits s; scoring_results_ := scoring_results_ s;
     best_index_ := best_index_ s; best_params_ := best_params_ s;
     best_score_ := best_score_ s |}.

(** A call that may read and change the outer state; it is recorded. *)
Definition call {A} (f : world -> result A * world) (ev : result A -> event) : M A :=
  fun s => let (r, w) := f (env s) in (r, with_env s w (ev r)).

Definition log (ev : event) : M unit :=
  fun s => (Ok tt, with_env s (env s) ev).

(** [self.name], an [AttributeError] while the attribute is not set. *)
Definition getattr {A} (f : store -> option A) (name : string) : M A :=
  fun s => match f s with
           | Some a => (Ok a, s)
           | None => (Raise (AttributeError name), s)
           end.

Definition set_k_fold_splits v : M unit := fun s =>
  (Ok tt, {| env := env s; trace := trace s; k_fold_splits := Some v;
             scoring_results_ := scoring_results_ s; best_index_ := best_index_ s;
             best_params_ := best_params_ s; best_score_ := best_score_ s |}).
Definition set_scoring_results_ v : M unit := fun s =>
  (Ok tt, {| env := env s; trace := trace s; k_fold_splits := k_fold_splits s;
             scoring_results_ := Some v; best_index_ := best_index_ s;
             best_params_ := best_params_ s; best_score_ := best_score_ s |}).
Definition set_best_index_ v : M unit := fun s =>
  (Ok tt, {| env := env s; trace := trace s; k_fold_splits := k_fold_splits s;
             scoring_results_ := scoring_results_ s; best_index_ := Some v;
             best_params_ := best_params_ s; best_score_ := best_score_ s |}).
Definition set_best_params_ v : M unit := fun s =>
  (Ok tt, {| env := env s; trace := trace s; k_fold_splits := k_fold_splits s;
             scoring_results_ := scoring_results_ s; best_index_ := best_index_ s;
             best_params_ := Some v; best_score_ := best_score_ s |}).
Definition set_best_score_ v : M unit := fun s =>
  (Ok tt, {| env := env s; trace := trace s; k_fold_splits := k_fold_splits s;
             scoring_results_ := scoring_results_ s; best_index_ := best_index_ s;
             best_params_ := best_params_ s; best_score_ := Some v |}).

(** ** The estimator and the libraries *)

(** [clf.fit(X, y)] and [clf.fit(X, y, n_jobs=hint)]: the estimator after
    the call.  What a call changes in place is part of [world]. *)
Variable clf_fit :
  estimator -> list sample -> list label -> option Z -> world -> result estimator * world.

(** [clf.predict(X)]. *)
Variable clf_predict : estimator -> list sample -> world -> result (list label) * world.

(** The fold that [StratifiedKFold(n_splits, shuffle, random_state)]
    assigns to each sample, one entry per sample.  [random_state] is
    [None] or an integer seed; for an integer scikit-learn seeds a new
    generator on every call, so the assignment is a function of the
    arguments. *)
Variable _make_test_folds : nat -> bool -> option Z -> list label -> result (list nat).

(** [np.mean] and [np.std] of a list of float64 scores. *)
Variable np_mean np_std : list float -> float.

(** What [np.empty_like] finds in each cell of the memory it returns. *)
Variable uninitialized : nat -> label.

Definition call_fit clf Xs ys hint : M estimator :=
  call (clf_fit clf Xs ys hint) (fun r => EvFit hint (raised r)).

Definition call_predict clf Xs : M (list label) :=
  call (clf_predict clf Xs) (fun r => EvPredict (raised r)).

Definition np_empty_like (y : list label) : list label :=
  map uninitialized (seq 0 (length y)).

(** The pairs that [split] yields: for each fold, the samples outside
    it and the samples inside it, in increasing order. *)
Definition split_indices (n_splits : nat) (test_folds : list nat) (n_samples : nat)
  : list fold :=
  map (fun i =>
         let test_mask j := nth j test_folds n_splits =? i in
         (filter (fun j => negb (test_mask j)) (seq 0 n_samples),
          filter test_mask (seq 0 n_samples)))
      (seq 0 n_splits).

Definition skf_split (n_splits : nat) (shuffle : bool) (random_state : option Z)
           (X : list sample) (y : list label) : result (list fold) :=
  if negb (length X =? length y)
  then Raise (ValueError "Found input variables with inconsistent numbers of samples")
  else
    test_folds <-- _make_test_folds n_splits shuffle random_state y ;;
    Ok (split_indices n_splits test_folds (length X)).

(** [list(StratifiedKFold(...).split(X, y))]. *)
Definition StratifiedKFold_split n_splits shuffle random_state X y : M (list fold) :=
  call (fun w => (skf_split n_splits shuffle random_state X y, w)) EvSplit.

(** ** [StratifiedKFoldTestPredictions], lines 47-58 *)

(** Lines 52-55. *)
Definition fit_fold (X : list sample) (y : list label) (clf : estimator) (n_jobs : Z)
           (train_index : list nat) : M estimator :=
  try_except
    (Xtr <- lift (take X train_index) ;;
     ytr <- lift (take y train_index) ;;
     call_fit clf Xtr ytr (Some n_jobs))
    (fun _ =>
       Xtr <- lift (take X train_index) ;;
       ytr <- lift (take y train_index) ;;
       call_fit clf Xtr ytr None).

(** The loop of lines 51-56. *)
Fixpoint predict_folds X y n_jobs (clf : estimator) (folds : list fold) (preds : list label)
  : M (list label) :=
  match folds with
  | [] => ret preds
  | (train_index, test_index) :: rest =>
      clf1 <- fit_fold X y clf n_jobs train_index ;;
      Xte <- lift (take X test_index) ;;
      out <- call_predict clf1 Xte ;;
      preds1 <- lift (setitems preds test_index out) ;;
      predict_folds X y n_jobs clf1 rest preds1
  end.

Definition StratifiedKFoldTestPredictions X y clf (k : nat) (n_jobs : Z) : M (list label) :=
  folds <- StratifiedKFold_split k false None X y ;;
  let preds := np_empty_like y in
  predict_folds X y n_jobs clf folds preds.

(** ** The class [gridsearch], lines 76-136 *)

(** The attributes set by [__init__]; the defaults of the source are
    [scoring=scaled_mcc], [cv=10], [n_jobs=-1], [random_state=1234] and
    [kwargs=None].  The attributes that [fit] assigns are in the store. *)
Record gridsearch : Type := {
  method : params -> world -> result estimator * world;
  grid_params : list (string * list value);
  scoring : list label -> list label -> world -> result float * world;
  cv : nat;
  n_jobs : Z;
  random_state : Z;
  kwargs : option params
}.

Definition call_method (self : gridsearch) (p : params) : M estimator :=
  call (method self p) (fun r => EvConstruct (raised r)).

Definition call_scoring (self : gridsearch) y_true y_pred : M float :=
  call (scoring self y_true y_pred) (fun r => EvScore (raised r)).

(** [_train_test_split], lines 95-100. *)
Definition _train_test_split (self : gridsearch) X y : M (list fold) :=
  StratifiedKFold_split (cv self) true (Some (random_state self)) X y.

(** The loop of lines 111-116. *)
Fixpoint eval_folds (self : gridsearch) X y (clf : estimator) (folds : list fold)
         (scores : list float) : M (list float) :=
  match folds with
  | [] => ret scores
  | (train_index, test_index) :: rest =>
      Xtr <- lift (take X train_index) ;;
      ytr <- lift (take y train_index) ;;
      clf1 <- call_fit clf Xtr ytr None ;;
      yte <- lift (take y test_index) ;;
      Xte <- lift (take X test_index) ;;
      out <- call_predict clf1 Xte ;;
      sc <- call_scoring self yte out ;;
      eval_folds self X y clf1 rest (scores ++ [sc])
  end.

Definition keys (p : params) : list string := map fst p.

(** [_eval], lines 102-118.  Passing a keyword both in [params] and in
    [kwargs] is a [TypeError] of the call. *)
Definition _eval (self : gridsearch) X y (p : params) : M record :=
  clf <- match kwargs self with
         | None => call_method self p
         | Some kw =>
             if existsb (fun k => existsb (String.eqb k) (keys kw)) (keys p)
             then raise (TypeError "got multiple values for keyword argument")
             else call_method self (p ++ kw)
         end ;;
  folds <- getattr k_fold_splits "k_fold_splits" ;;
  log (EvEval p folds) ;;;
  scores <- eval_folds self X y clf folds [] ;;
  ret {| r_params := p; r_scores := scores; r_mean := np_mean scores |}.

(** [list(ParameterGrid(grid))] for a dict of value lists: the items
    sorted by key, then their product, the last key varying fastest. *)
Fixpoint insert_item {V} (it : string * V) (l : list (string * V)) : list (string * V) :=
  match l with
  | [] => [it]
  | it' :: l' => if String.leb (fst it) (fst it') then it :: l else it' :: insert_item it l'
  end.

Definition sorted_items {V} (d : list (string * V)) : list (string * V) :=
  fold_right insert_item [] d.

Fixpoint product (items : list (string * list value)) : list params :=
  match items with
  | [] => [[]]
  | (k, vs) :: rest => flat_map (fun v => map (fun p => (k, v) :: p) (product rest)) vs
  end.

Definition ParameterGrid (d : list (string * list value)) : list params :=
  product (sorted_items d).

(** Number of elements of the Cartesian product of the value lists. *)
Definition grid_size (d : list (string * list value)) : nat :=
  fold_right (fun it n => length (snd it) * n) 1 d.

(** [p] takes, key by key, one of the values listed for the key. *)
Definition chooses (p : params) (items : list (string * list value)) : Prop :=
  Forall2 (fun kv it => fst kv = fst it /\ In (snd kv) (snd it)) p items.

(** [joblib.Parallel(n_jobs, prefer='threads')(tasks)].  The tasks run on
    worker threads and complete in an order that the caller does not
    control: [sched] picks, at each step, which of the pending tasks
    completes next.  The result of task [i] goes to slot [i]; the first
    exception ends the call and is raised again. *)
Fixpoint remove_at {A} (k : nat) (l : list A) : list A :=
  match l, k with
  | [], _ => []
  | _ :: l', O => l'
  | x :: l', S k' => x :: remove_at k' l'
  end.

Fixpoint run_tasks {A} (fuel : nat) (sched : list nat) (pending : list (nat * M A))
         (slots : list (option A)) : M (list (option A)) :=
  match fuel with
  | O => ret slots
  | S fuel' =>
      let k := hd 0 sched mod length pending in
      match nth_error pending k with
      | None => ret slots
      | Some (i, task) =>
          a <- task ;;
          run_tasks fuel' (tl sched) (remove_at k pending) (set_nth slots i (Some a))
      end
  end.

Definition collect {A} (slots : list (option A)) : list A :=
  flat_map (fun o => match o with Some a => [a] | None => [] end) slots.

Definition Parallel {A} (sched : list nat) (tasks : list (M A)) : M (list A) :=
  slots <- run_tasks (length tasks) sched (combine (seq 0 (length tasks)) tasks)
                     (repeat None (length tasks)) ;;
  ret (collect slots).

(** [self.scoring_results_[self.best_index_]]. *)
Definition best_record : M record :=
  rs <- getattr scoring_results_ "scoring_results_" ;;
  i <- getattr best_index_ "best_index_" ;;
  lift (getitem rs i).

(** [fit], lines 120-136.  [sched] is the order in which the worker
    threads complete the candidates. *)
Definition fit (self : gridsearch) X y (sched : list nat) : M unit :=
  folds <- _train_test_split self X y ;;
  set_k_fold_splits folds ;;;
  let grid_params := ParameterGrid (grid_params self) in
  results <- Parallel sched (map (_eval self X y) grid_params) ;;
  set_scoring_results_ results ;;;
  idx <- lift (np_argmax (map r_mean results)) ;;
  set_best_index_ idx ;;;
  r0 <- best_record ;;
  set_best_params_ (r_params r0) ;;;
  r1 <- best_record ;;
  r2 <- best_record ;;
  set_best_score_ (np_mean (r_scores r1), np_std (r_scores r2)).

(** An object on which [fit] has not run, in outer state [w]. *)
Definition fresh (w : world) : store :=
  {| env := w; trace := []; k_fold_splits := None; scoring_results_ := None;
     best_index_ := None; best_params_ := None; best_score_ := None |}.

(* ================================================================= *)
(** * The order of float64 values *)

(** A key whose lexicographic order is the order of the floats that are
    not NaN. *)
Definition sf_key (f : spec_float) : Z * Z * Z :=
  match f with
  | S754_zero _ => (0, 0, 0)
  | S754_infinity s => (if s then -2 else 2, 0, 0)
  | S754_nan => (0, 0, 0)
  | S754_finite s m e => if s then (-1, - e, - Z.pos m) else (1, e, Z.pos m)
  end%Z.

Definition lex_le (a b : Z * Z * Z) : Prop :=
  let '(a1, a2, a3) := a in
  let '(b1, b2, b3) := b in
  (a1 < b1 \/ (a1 = b1 /\ (a2 < b2 \/ (a2 = b2 /\ a3 <= b3))))%Z.

Definition lex_lt (a b : Z * Z * Z) : Prop :=
  let '(a1, a2, a3) := a in
  let '(b1, b2, b3) := b in
  (a1 < b1 \/ (a1 = b1 /\ (a2 < b2 \/ (a2 = b2 /\ a3 < b3))))%Z.

Definition not_nan (f : spec_float) : Prop := f <> S754_nan.

Lemma SFleb_key f g :
  not_nan f -> not_nan g -> (SFleb f g = true <-> lex_le (sf_key f) (sf_key g)).
Proof.
  intros Hf Hg. unfold SFleb, SFcompare, lex_le, sf_key.
  destruct f as [s1|s1| |s1 m1 e1]; try (exfalso; now apply Hf);
  destruct g as [s2|s2| |s2 m2 e2]; try (exfalso; now apply Hg);
  try (destruct s1); try (destruct s2);
  try (split; [intros _; lia | reflexivity]);
  try (split; [discriminate | intros; exfalso; lia]).
  - destruct (Z.compare_spec e1 e2) as [->|He|He].
    + change (PosDef.Pos.compare_cont Eq m1 m2) with (Pos.compare m1 m2).
      destruct (Pos.compare_spec m1 m2) as [->|Hm|Hm]; simpl;
        (split; [intros _; lia | (reflexivity || (intros; exfalso; lia))]) ||
        (split; [discriminate | intros; exfalso; lia]).
    + split; [discriminate | intros; exfalso; lia].
    + split; [intros _; lia | reflexivity].
  - destruct (Z.compare_spec e1 e2) as [->|He|He].
    + change (PosDef.Pos.compare_cont Eq m1 m2) with (Pos.compare m1 m2).
      destruct (Pos.compare_spec m1 m2) as [->|Hm|Hm]; simpl;
        (split; [intros _; lia | (reflexivity || (intros; exfalso; lia))]) ||
        (split; [discriminate | intros; exfalso; lia]).
    + split; [intros _; lia | reflexivity].
    + split; [discriminate | intros; exfalso; lia].
Qed.

Lemma SFltb_key f g :
  not_nan f -> not_nan g -> (SFltb f g = true <-> lex_lt (sf_key f) (sf_key g)).
Proof.
  intros Hf Hg. unfold SFltb, SFcompare, lex_lt, sf_key.
  destruct f as [s1|s1| |s1 m1 e1]; try (exfalso; now apply Hf);
  destruct g as [s2|s2| |s2 m2 e2]; try (exfalso; now apply Hg);
  try (destruct s1); try (destruct s2);
  try (split; [intros _; lia | reflexivity]);
  try (split; [discriminate | intros; exfalso; lia]).
  - destruct (Z.compare_spec e1 e2) as [->|He|He].
    + change (PosDef.Pos.compare_cont Eq m1 m2) with (Pos.compare m1 m2).
      destruct (Pos.compare_spec m1 m2) as [->|Hm|Hm]; simpl;
        (split; [intros _; lia | (reflexivity || (intros; exfalso; lia))]) ||
        (split; [discriminate | intros; exfalso; lia]).
    + split; [discriminate | intros; exfalso; lia].
    + split; [intros _; lia | reflexivity].
  - destruct (Z.compare_spec e1 e2) as [->|He|He].
    + change (PosDef.Pos.compare_cont Eq m1 m2) with (Pos.compare m1 m2).
      destruct (Pos.compare_spec m1 m2) as [->|Hm|Hm]; simpl;
        (split; [intros _; lia | (reflexivity || (intros; exfalso; lia))]) ||
        (split; [discriminate | intros; exfalso; lia]).
    + split; [intros _; lia | reflexivity].
    + split; [discriminate | intros; exfalso; lia].
Qed.

Lemma SFleb_not_nan f g : SFleb f g = true -> not_nan f /\ not_nan g.
Proof.
  unfold SFleb, SFcompare, not_nan.
  destruct f, g; try discriminate; intros _; split; discriminate.
Qed.

Lemma SFltb_not_nan f g : SFltb f g = true -> not_nan f /\ not_nan g.
Proof.
  unfold SFltb, SFcompare, not_nan.
  destruct f, g; try discriminate; intros _; split; discriminate.
Qed.

Lemma is_nan_false x : PrimFloat.is_nan x = false -> not_nan (Prim2SF x).
Proof.
  unfold PrimFloat.is_nan. rewrite FloatAxioms.eqb_spec. intros H E.
  rewrite E in H. discriminate H.
Qed.

Ltac lex_solve :=
  unfold lex_le, lex_lt in *;
  repeat match goal with
         | |- context [sf_key ?f] => destruct (sf_key f) as [[? ?] ?]
         | H : context [sf_key ?f] |- _ => destruct (sf_key f) as [[? ?] ?]
         end;
  lia.

Lemma float_le_refl x : PrimFloat.is_nan x = false -> PrimFloat.leb x x = true.
Proof.
  intros H. apply is_nan_false in H. rewrite leb_spec.
  apply SFleb_key; [assumption..|]. lex_solve.
Qed.

Lemma float_le_trans x y z :
  PrimFloat.leb x y = true -> PrimFloat.leb y z = true -> PrimFloat.leb x z = true.
Proof.
  rewrite !leb_spec. intros H1 H2.
  destruct (SFleb_not_nan _ _ H1) as [Hx Hy]. destruct (SFleb_not_nan _ _ H2) as [_ Hz].
  apply SFleb_key in H1; [|assumption..]. apply SFleb_key in H2; [|assumption..].
  apply SFleb_key; [assumption..|]. lex_solve.
Qed.

Lemma float_le_lt_trans x y z :
  PrimFloat.leb x y = true -> PrimFloat.ltb y z = true -> PrimFloat.ltb x z = true.
Proof.
  rewrite !leb_spec, !ltb_spec. intros H1 H2.
  destruct (SFleb_not_nan _ _ H1) as [Hx Hy]. destruct (SFltb_not_nan _ _ H2) as [_ Hz].
  apply SFleb_key in H1; [|assumption..]. apply SFltb_key in H2; [|assumption..].
  apply SFltb_key; [assumption..|]. lex_solve.
Qed.

Lemma float_lt_le x y : PrimFloat.ltb x y = true -> PrimFloat.leb x y = true.
Proof.
  rewrite leb_spec, ltb_spec. intros H.
  destruct (SFltb_not_nan _ _ H) as [Hx Hy].
  apply SFltb_key in H; [|assumption..]. apply SFleb_key; [assumption..|]. lex_solve.
Qed.

Lemma float_not_le_lt x y :
  PrimFloat.is_nan x = false -> PrimFloat.is_nan y = false ->
  PrimFloat.leb x y = false -> PrimFloat.ltb y x = true.
Proof.
  intros Hx Hy H. apply is_nan_false in Hx, Hy. rewrite leb_spec in H. rewrite ltb_spec.
  apply SFltb_key; [assumption..|].
  assert (Hn : ~ lex_le (sf_key (Prim2SF x)) (sf_key (Prim2SF y))).
  { intros Hle. apply SFleb_key in Hle; [|assumption..]. congruence. }
  lex_solve.
Qed.

Lemma SFcompare_refl f : not_nan f -> SFcompare f f = Some Eq.
Proof.
  intros H. destruct f as [s|s| |s m e]; try (now destruct s); [exfalso; now apply H|].
  simpl. rewrite Z.compare_refl.
  change (PosDef.Pos.compare_cont Eq m m) with (Pos.compare m m).
  rewrite Pos.compare_refl. now destruct s.
Qed.

Lemma is_nan_true x : PrimFloat.is_nan x = true -> Prim2SF x = S754_nan.
Proof.
  unfold PrimFloat.is_nan. rewrite FloatAxioms.eqb_spec. unfold SFeqb. intros H.
  destruct (Prim2SF x) as [s|s| |s m e] eqn:E; [| |reflexivity|];
    rewrite SFcompare_refl in H by discriminate; discriminate H.
Qed.

Lemma float_le_nan_l x y : PrimFloat.is_nan x = true -> PrimFloat.leb y x = false.
Proof.
  intros H. apply is_nan_true in H. rewrite leb_spec, H.
  unfold SFleb, SFcompare. destruct (Prim2SF y); reflexivity.
Qed.

Lemma float_le_nan_r x y : PrimFloat.is_nan x = true -> PrimFloat.leb x y = false.
Proof.
  intros H. apply is_nan_true in H. rewrite leb_spec, H. reflexivity.
Qed.

(* ------------------------------------------------------------ *)
(* reasoning about runs: trace extensions                          *)
(* ------------------------------------------------------------ *)

Definition exc_of (ev : event) : option exn :=
  match ev with
  | EvSplit r => raised r
  | EvEval _ _ => None
  | EvConstruct e | EvFit _ e | EvPredict e | EvScore e => e
  end.

Definition quiet (ev : event) : Prop := exc_of ev = None.

Definition attrs_eq (s s' : store) : Prop :=
  k_fold_splits s' = k_fold_splits s /\
  scoring_results_ s' = scoring_results_ s /\
  best_index_ s' = best_index_ s /\
  best_params_ s' = best_params_ s /\
  best_score_ s' = best_score_ s.

Lemma attrs_eq_refl s : attrs_eq s s.
Proof. repeat split. Qed.

Lemma attrs_eq_trans s1 s2 s3 : attrs_eq s1 s2 -> attrs_eq s2 s3 -> attrs_eq s1 s3.
Proof. unfold attrs_eq. intuition congruence. Qed.

Definition spec {A} (kf : option (list fold)) (m : M A)
           (Q : result A -> list event -> Prop) : Prop :=
  forall s, k_fold_splits s = kf ->
    exists ext, trace (snd (m s)) = trace s ++ ext /\
                attrs_eq s (snd (m s)) /\
                Q (fst (m s)) ext.

Lemma spec_conseq {A} kf (m : M A) (Q Q' : result A -> list event -> Prop) :
  spec kf m Q -> (forall r ext, Q r ext -> Q' r ext) -> spec kf m Q'.
Proof.
  intros H HQ s Hs. destruct (H s Hs) as (ext & Ht & Ha & Hq).
  exists ext. auto.
Qed.

Lemma spec_lift {A} kf (r : result A) (Q : result A -> list event -> Prop) :
  Q r [] -> spec kf (lift r) Q.
Proof.
  intros HQ s _. exists []. simpl. rewrite app_nil_r. auto using attrs_eq_refl.
Qed.

Lemma spec_ret {A} kf (a : A) (Q : result A -> list event -> Prop) :
  Q (Ok a) [] -> spec kf (ret a) Q.
Proof. apply (spec_lift kf (Ok a)). Qed.

Lemma spec_raise {A} kf e (Q : result A -> list event -> Prop) :
  Q (Raise e) [] -> spec kf (raise e) Q.
Proof. apply (spec_lift kf (Raise e)). Qed.

Lemma spec_call {A} kf (f : world -> result A * world) ev
      (Q : result A -> list event -> Prop) :
  (forall r, Q r [ev r]) -> spec kf (call f ev) Q.
Proof.
  intros HQ s _. unfold call. destruct (f (env s)) as [r w]. simpl.
  exists [ev r]. split; [reflexivity|]. split; [repeat split | apply HQ].
Qed.

Lemma spec_log kf ev (Q : result unit -> list event -> Prop) :
  Q (Ok tt) [ev] -> spec kf (log ev) Q.
Proof.
  intros HQ s _. exists [ev]. split; [reflexivity|]. split; [repeat split | exact HQ].
Qed.

Lemma spec_getattr_kfs kf (Q : result (list fold) -> list event -> Prop) :
  (forall folds, kf = Some folds -> Q (Ok folds) []) ->
  (kf = None -> Q (Raise (AttributeError "k_fold_splits")) []) ->
  spec kf (getattr k_fold_splits "k_fold_splits") Q.
Proof.
  intros H1 H2 s Hs. exists []. unfold getattr. rewrite Hs.
  destruct kf as [folds|]; simpl; rewrite app_nil_r; auto using attrs_eq_refl.
Qed.

Lemma spec_bind {A B} kf (m : M A) (k : A -> M B) Q1 (Q : result B -> list event -> Prop) :
  spec kf m Q1 ->
  (forall e ext, Q1 (Raise e) ext -> Q (Raise e) ext) ->
  (forall a ext1, Q1 (Ok a) ext1 -> spec kf (k a) (fun r ext2 => Q r (ext1 ++ ext2))) ->
  spec kf (bind m k) Q.
Proof.
  intros Hm Hr Hk s Hs. destruct (Hm s Hs) as (ext1 & Ht1 & Ha1 & Hq1).
  unfold bind. destruct (m s) as [[a|e] s1]; simpl in *.
  - assert (Hs1 : k_fold_splits s1 = kf) by (destruct Ha1 as [E _]; congruence).
    destruct (Hk a ext1 Hq1 s1 Hs1) as (ext2 & Ht2 & Ha2 & Hq2).
    exists (ext1 ++ ext2). rewrite Ht2, Ht1, app_assoc.
    eauto using attrs_eq_trans.
  - exists ext1. auto.
Qed.

Lemma spec_try_except {A} kf (m : M A) (h : exn -> M A) Q1
      (Q : result A -> list event -> Prop) :
  spec kf m Q1 ->
  (forall a ext, Q1 (Ok a) ext -> Q (Ok a) ext) ->
  (forall e ext1, Q1 (Raise e) ext1 -> spec kf (h e) (fun r ext2 => Q r (ext1 ++ ext2))) ->
  spec kf (try_except m h) Q.
Proof.
  intros Hm Hok Hh s Hs. destruct (Hm s Hs) as (ext1 & Ht1 & Ha1 & Hq1).
  unfold try_except. destruct (m s) as [[a|e] s1]; simpl in *.
  - exists ext1. auto.
  - assert (Hs1 : k_fold_splits s1 = kf) by (destruct Ha1 as [E _]; congruence).
    destruct (Hh e ext1 Hq1 s1 Hs1) as (ext2 & Ht2 & Ha2 & Hq2).
    exists (ext1 ++ ext2). rewrite Ht2, Ht1, app_assoc.
    eauto using attrs_eq_trans.
Qed.

Lemma spec_bind_lift {A B} kf (r0 : result A) (k : A -> M B)
      (Q : result B -> list event -> Prop) :
  (forall e, r0 = Raise e -> Q (Raise e) []) ->
  (forall a, r0 = Ok a -> spec kf (k a) Q) ->
  spec kf (bind (lift r0) k) Q.
Proof.
  intros Hr Hk. apply spec_bind with (Q1 := fun r ext => r = r0 /\ ext = []).
  - apply spec_lift. auto.
  - intros e ext [<- ->]. auto.
  - intros a ext1 [<- ->]. simpl. auto.
Qed.

Lemma spec_bind_call {A B} kf (f : world -> result A * world) ev (k : A -> M B)
      (Q : result B -> list event -> Prop) :
  (forall e, Q (Raise e) [ev (Raise e)]) ->
  (forall a, spec kf (k a) (fun r ext2 => Q r (ev (Ok a) :: ext2))) ->
  spec kf (bind (call f ev) k) Q.
Proof.
  intros Hr Hk. apply spec_bind with (Q1 := fun r ext => ext = [ev r]).
  - apply spec_call. reflexivity.
  - intros e ext ->. auto.
  - intros a ext1 ->. simpl. auto.
Qed.

Definition uses (F : list fold) (ev : event) : Prop :=
  match ev with
  | EvSplit _ => False
  | EvEval _ f => f = F
  | _ => True
  end.

Definition clean_run {A} (ext : list event) (r : result A) : Prop :=
  match r with
  | Ok _ => Forall quiet ext
  | Raise e =>
      Forall quiet ext \/
      exists pre ev, ext = pre ++ [ev] /\ Forall quiet pre /\ exc_of ev = Some e
  end.

Definition evaluated (ext : list event) : list params :=
  flat_map (fun ev => match ev with EvEval p _ => [p] | _ => [] end) ext.

Definition run_ok (F : list fold) {A} (r : result A) (ext : list event) : Prop :=
  Forall (uses F) ext /\ clean_run ext r.

Lemma run_ok_nil F {A} (r : result A) : run_ok F r [].
Proof. split; [constructor|]. destruct r; simpl; auto. Qed.

Lemma run_ok_cons F {A} (r : result A) ev ext :
  uses F ev -> quiet ev -> run_ok F r ext -> run_ok F r (ev :: ext).
Proof.
  intros Hu Hq [H1 H2]. split; [constructor; assumption|].
  destruct r as [a|e]; simpl in *.
  - constructor; assumption.
  - destruct H2 as [H2|(pre & ev' & -> & Hpre & He)].
    + left. constructor; assumption.
    + right. exists (ev :: pre), ev'. repeat split; auto.
Qed.

Lemma run_ok_app F {A} (r : result A) ext1 ext2 :
  Forall (uses F) ext1 -> Forall quiet ext1 -> run_ok F r ext2 -> run_ok F r (ext1 ++ ext2).
Proof.
  induction ext1 as [|ev ext1 IH]; intros Hu Hq H; [exact H|].
  inversion Hu; inversion Hq; subst. simpl. apply run_ok_cons; auto.
Qed.

Lemma run_ok_last F {A} e ev :
  uses F ev -> exc_of ev = Some e -> run_ok F (@Raise A e) [ev].
Proof.
  intros Hu He. split; [repeat constructor; assumption|].
  right. exists [], ev. repeat split; auto.
Qed.

Lemma run_ok_Ok F {A} (a : A) ext :
  run_ok F (Ok a) ext -> Forall (uses F) ext /\ Forall quiet ext.
Proof. intros [H1 H2]. split; assumption. Qed.

Lemma evaluated_app e1 e2 : evaluated (e1 ++ e2) = evaluated e1 ++ evaluated e2.
Proof. unfold evaluated. apply flat_map_app. Qed.

Ltac step_quiet := apply run_ok_cons; [simpl; auto | reflexivity | ].
Ltac run_ok_tac :=
  repeat step_quiet;
  first [ apply run_ok_nil | apply run_ok_last; [simpl; auto | reflexivity] | assumption ].

Lemma eval_folds_spec self X y F folds : forall clf scores,
  spec (Some F) (eval_folds self X y clf folds scores)
       (fun r ext => run_ok F r ext /\ evaluated ext = []).
Proof.
  induction folds as [|[train_index test_index] rest IH]; intros clf scores.
  - apply spec_ret. split; [apply run_ok_nil | reflexivity].
  - cbn [eval_folds].
    apply spec_bind_lift; [intros; split; [run_ok_tac | reflexivity]|]. intros Xtr _.
    apply spec_bind_lift; [intros; split; [run_ok_tac | reflexivity]|]. intros ytr _.
    apply spec_bind_call; [intros; split; [run_ok_tac | reflexivity]|]. intros clf1.
    apply spec_bind_lift; [intros; split; [run_ok_tac | reflexivity]|]. intros yte _.
    apply spec_bind_lift; [intros; split; [run_ok_tac | reflexivity]|]. intros Xte _.
    apply spec_bind_call; [intros; split; [run_ok_tac | reflexivity]|]. intros out.
    apply spec_bind_call; [intros; split; [run_ok_tac | reflexivity]|]. intros sc.
    eapply spec_conseq; [apply IH|].
    intros r ext [H1 H2]. split; [run_ok_tac | exact H2].
Qed.

Definition eval_post (F : list fold) (p : params) (r : result record) (ext : list event) : Prop :=
  run_ok F r ext /\
  forall rec, r = Ok rec ->
    evaluated ext = [p] /\ r_params rec = p /\ r_mean rec = np_mean (r_scores rec).

Lemma _eval_spec self X y F p :
  spec (Some F) (_eval self X y p) (eval_post F p).
Proof.
  unfold _eval, eval_post.
  assert (Hrest : forall clf,
    spec (Some F)
      (folds <- getattr k_fold_splits "k_fold_splits" ;;
       log (EvEval p folds) ;;;
       scores <- eval_folds self X y clf folds [] ;;
       ret {| r_params := p; r_scores := scores; r_mean := np_mean scores |})
      (fun r ext2 =>
         run_ok F r (EvConstruct None :: ext2) /\
         (forall rec, r = Ok rec ->
            evaluated (EvConstruct None :: ext2) = [p] /\ r_params rec = p /\
            r_mean rec = np_mean (r_scores rec)))).
  { intros clf.
    apply spec_bind with (Q1 := fun r ext => r = Ok F /\ ext = []).
    { apply spec_getattr_kfs; [intros folds [= ->]; auto | discriminate]. }
    { intros e ext [[=] _]. }
    intros folds ext1 [[= ->] ->]. cbn [app].
    apply spec_bind with (Q1 := fun r ext => ext = [EvEval p F]).
    { apply spec_log. reflexivity. }
    { intros e ext ->. split; [run_ok_tac | discriminate]. }
    intros [] ext1 ->. cbn [app].
    apply spec_bind with (Q1 := fun r ext => run_ok F r ext /\ evaluated ext = []).
    { apply eval_folds_spec. }
    { intros e ext [H1 H2]. split; [run_ok_tac | discriminate]. }
    intros scores ext1 [H1 H2].
    apply spec_ret. rewrite app_nil_r. split; [run_ok_tac|].
    intros rec [= <-]. simpl. change (evaluated (EvConstruct None :: EvEval p F :: ext1))
      with ([p] ++ evaluated ext1).
    rewrite H2. auto. }
  destruct (kwargs self) as [kw|].
  - destruct (existsb _ _).
    + apply spec_bind with (Q1 := fun r ext => (exists e, r = Raise e) /\ ext = []).
      { apply spec_raise. eauto. }
      { intros e ext [_ ->]. split; [apply run_ok_nil | discriminate]. }
      { intros a ext1 [[e [=]] _]. }
    + apply spec_bind_call.
      { intros e. split; [run_ok_tac | discriminate]. }
      intros clf. apply Hrest.
  - apply spec_bind_call.
    { intros e. split; [run_ok_tac | discriminate]. }
    intros clf. apply Hrest.
Qed.

(* ---------------- joblib.Parallel ---------------- *)

Lemma remove_at_perm {A} (l : list A) k x :
  nth_error l k = Some x -> Permutation l (x :: remove_at k l).
Proof.
  revert k; induction l as [|y l IH]; intros [|k] H; simpl in *; try discriminate.
  - injection H as ->. reflexivity.
  - rewrite (IH k H) at 1. apply perm_swap.
Qed.

Lemma set_nth_length {A} (l : list A) i v : length (set_nth l i v) = length l.
Proof. revert i; induction l; intros [|i]; simpl; auto. Qed.

Lemma set_nth_same {A} (l : list A) i v :
  i < length l -> nth_error (set_nth l i v) i = Some v.
Proof.
  revert i; induction l; intros [|i] H; simpl in *; try lia; auto. apply IHl. lia.
Qed.

Lemma set_nth_other {A} (l : list A) i j v :
  i <> j -> nth_error (set_nth l i v) j = nth_error l j.
Proof.
  revert i j; induction l; intros [|i] [|j] H; simpl; auto; try congruence.
Qed.

Definition task_post (F : list fold) {A} (R : A -> list event -> Prop) (E : exn -> Prop)
           (r : result A) (ext : list event) : Prop :=
  run_ok F r ext /\
  match r with
  | Ok a => R a ext
  | Raise e => E e
  end.

Definition pool_post (F : list fold) {A} (R : nat -> A -> list event -> Prop)
           (E : nat -> exn -> Prop) (idxs : list nat) (slots : list (option A))
           (r : result (list (option A))) (ext : list event) : Prop :=
  run_ok F r ext /\
  match r with
  | Ok slots' =>
      length slots' = length slots /\
      (forall j, ~ In j idxs -> nth_error slots' j = nth_error slots j) /\
      exists order exts,
        Permutation order idxs /\ ext = concat exts /\
        Forall2 (fun i e => exists a, nth_error slots' i = Some (Some a) /\ R i a e)
                order exts
  | Raise e => exists i, In i idxs /\ E i e
  end.

Lemma run_tasks_spec F {A} (R : nat -> A -> list event -> Prop) (E : nat -> exn -> Prop) :
  forall fuel sched (pending : list (nat * M A)) slots,
    fuel = length pending ->
    NoDup (map fst pending) ->
    (forall i t, In (i, t) pending ->
                 i < length slots /\ spec (Some F) t (task_post F (R i) (E i))) ->
    spec (Some F) (run_tasks fuel sched pending slots)
         (pool_post F R E (map fst pending) slots).
Proof.
  induction fuel as [|fuel IH]; intros sched pending slots Hfuel Hnd Htasks.
  - destruct pending; [|discriminate]. apply spec_ret. split; [apply run_ok_nil|].
    split; [reflexivity|]. split; [reflexivity|].
    exists [], []. repeat split; constructor.
  - cbn [run_tasks].
    set (k := hd 0 sched mod length pending).
    assert (Hk : k < length pending).
    { apply Nat.mod_upper_bound. rewrite <- Hfuel. discriminate. }
    destruct (nth_error pending k) as [[i t]|] eqn:Ek;
      [|apply nth_error_None in Ek; lia].
    pose proof (remove_at_perm _ _ _ Ek) as Hperm.
    assert (Hin : In (i, t) pending) by (eapply nth_error_In; eassumption).
    destruct (Htasks i t Hin) as [Hi Ht].
    assert (Hperm' : Permutation (map fst pending) (i :: map fst (remove_at k pending))).
    { apply (Permutation_map fst) in Hperm. exact Hperm. }
    assert (Hnd' : NoDup (i :: map fst (remove_at k pending))).
    { eapply Permutation_NoDup; eassumption. }
    inversion Hnd' as [|? ? Hni Hnd1]; subst.
    apply spec_bind with (Q1 := task_post F (R i) (E i)); [exact Ht| |].
    + intros e ext [H1 H2]. split; [exact H1|]. exists i. split; [|exact H2].
      apply (Permutation_in _ (Permutation_sym Hperm')). now left.
    + intros a ext1 [H1 H2].
      eapply spec_conseq.
      * apply (IH (tl sched) (remove_at k pending) (set_nth slots i (Some a))).
        -- apply Permutation_length in Hperm. simpl in Hperm. lia.
        -- exact Hnd1.
        -- intros i' t' Hin'. rewrite set_nth_length. apply Htasks.
           apply (Permutation_in _ (Permutation_sym Hperm)). now right.
      * intros r ext2 [G1 G2]. apply run_ok_Ok in H1 as [Hu Hq]. split.
        -- apply run_ok_app; assumption.
        -- destruct r as [slots'|e].
           ++ destruct G2 as (L & U & order & exts & P & -> & F2).
              rewrite set_nth_length in L. split; [exact L|]. split.
              ** intros j Hj. rewrite U.
                 --- apply set_nth_other. intros ->. apply Hj.
                     apply (Permutation_in _ (Permutation_sym Hperm')). now left.
                 --- intros Hj'. apply Hj.
                     apply (Permutation_in _ (Permutation_sym Hperm')). now right.
              ** exists (i :: order), (ext1 :: exts). split; [|split].
                 --- rewrite Hperm'. constructor. exact P.
                 --- reflexivity.
                 --- constructor; [|exact F2]. exists a. split; [|exact H2].
                     rewrite (U i Hni). apply set_nth_same. exact Hi.
           ++ destruct G2 as (j & Hj & He). exists j. split; [|exact He].
              apply (Permutation_in _ (Permutation_sym Hperm')). now right.
Qed.

Lemma collect_all_some {A} (slots : list (option A)) :
  (forall i, i < length slots -> exists a, nth_error slots i = Some (Some a)) ->
  map Some (collect slots) = slots.
Proof.
  induction slots as [|o slots IH]; intros H; [reflexivity|].
  destruct (H 0 (Nat.lt_0_succ _)) as [a Ha]. simpl in Ha. injection Ha as ->.
  simpl. f_equal. apply IH. intros i Hi. apply (H (S i)). simpl. lia.
Qed.

Definition par_post (F : list fold) {A} (R : nat -> A -> list event -> Prop)
           (E : nat -> exn -> Prop) (n : nat)
           (r : result (list A)) (ext : list event) : Prop :=
  run_ok F r ext /\
  match r with
  | Ok rs =>
      length rs = n /\
      exists order exts,
        Permutation order (seq 0 n) /\ ext = concat exts /\
        Forall2 (fun i e => exists a, nth_error rs i = Some a /\ R i a e) order exts
  | Raise e => exists i, i < n /\ E i e
  end.

Lemma in_combine_seq {A} (l : list A) i t : forall start,
  In (i, t) (combine (seq start (length l)) l) ->
  start <= i /\ nth_error l (i - start) = Some t.
Proof.
  induction l as [|x l IH]; intros start H; [destruct H|].
  simpl in H. destruct H as [[= <- <-]|H].
  - rewrite Nat.sub_diag. split; [lia | reflexivity].
  - apply IH in H as [H1 H2]. split; [lia|].
    replace (i - start) with (S (i - S start)) by lia. exact H2.
Qed.

Lemma map_fst_combine_seq {A} (l : list A) start :
  map fst (combine (seq start (length l)) l) = seq start (length l).
Proof.
  revert start; induction l as [|x l IH]; intros start; simpl; [reflexivity|].
  f_equal. apply IH.
Qed.

Lemma Parallel_spec F {A} (R : nat -> A -> list event -> Prop) (E : nat -> exn -> Prop)
      sched (tasks : list (M A)) :
  (forall i t, nth_error tasks i = Some t -> spec (Some F) t (task_post F (R i) (E i))) ->
  spec (Some F) (Parallel sched tasks) (par_post F R E (length tasks)).
Proof.
  intros Htasks. unfold Parallel.
  apply spec_bind with
    (Q1 := pool_post F R E (map fst (combine (seq 0 (length tasks)) tasks))
                     (repeat None (length tasks))).
  - apply run_tasks_spec.
    + rewrite length_combine, length_seq, Nat.min_id. reflexivity.
    + rewrite map_fst_combine_seq. apply seq_NoDup.
    + intros i t Hin. apply in_combine_seq in Hin as [_ Hin].
      rewrite Nat.sub_0_r in Hin. split.
      * rewrite repeat_length. apply nth_error_Some. congruence.
      * apply Htasks. exact Hin.
  - intros e ext [H (i & Hi & He)]. split; [exact H|].
    rewrite map_fst_combine_seq in Hi. apply in_seq in Hi. exists i. split; [lia | exact He].
  - intros slots ext1 [H1 H2]. apply spec_ret. rewrite app_nil_r.
    split; [destruct H1; split; assumption|].
    destruct H2 as (L & _ & order & exts & P & -> & F2).
    rewrite map_fst_combine_seq in P. rewrite repeat_length in L.
    assert (Hall : forall i, i < length slots -> exists a, nth_error slots i = Some (Some a)).
    { intros i Hi. rewrite L in Hi.
      assert (Hin : In i order).
      { apply (Permutation_in _ (Permutation_sym P)). apply in_seq. lia. }
      clear - F2 Hin. induction F2 as [|j e order exts Hj _ IH]; [destruct Hin|].
      destruct Hin as [->|Hin]; [|auto]. destruct Hj as (a & Ha & _). eauto. }
    pose proof (collect_all_some slots Hall) as Hc.
    split.
    + rewrite <- L. rewrite <- Hc at 2. rewrite length_map. reflexivity.
    + exists order, exts. repeat split; [exact P|].
      eapply Forall2_impl; [|exact F2]. intros i e (a & Ha & HR).
      exists a. split; [|exact HR].
      rewrite <- Hc in Ha. rewrite nth_error_map in Ha.
      destruct (nth_error (collect slots) i); simpl in Ha; congruence.
Qed.

(* ---------------- numpy.argmax ---------------- *)

Lemma argmax_from_bound ip : forall mp max_ind i,
  max_ind < i -> argmax_from mp max_ind i ip < i + length ip.
Proof.
  induction ip as [|x ip IH]; intros mp max_ind i H; simpl; [lia|].
  destruct (negb (PrimFloat.leb x mp)).
  - destruct (PrimFloat.is_nan x); [lia|].
    specialize (IH x i (S i)). lia.
  - specialize (IH mp max_ind (S i)). lia.
Qed.

Lemma np_argmax_bound a idx : np_argmax a = Ok idx -> idx < length a.
Proof.
  destruct a as [|x rest]; simpl; [discriminate|]. intros [= <-].
  destruct (PrimFloat.is_nan x); [lia|].
  pose proof (argmax_from_bound rest x 0 1). lia.
Qed.

Lemma argmax_from_correct (l : list float) : forall ip pre mp max_ind,
  l = pre ++ ip ->
  no_nan l ->
  nth_error l max_ind = Some mp ->
  max_ind < length pre ->
  (forall j v, j < length pre -> nth_error l j = Some v -> PrimFloat.leb v mp = true) ->
  (forall j v, j < max_ind -> nth_error l j = Some v -> PrimFloat.ltb v mp = true) ->
  exists vmax,
    nth_error l (argmax_from mp max_ind (length pre) ip) = Some vmax /\
    (forall j v, nth_error l j = Some v -> PrimFloat.leb v vmax = true) /\
    (forall j v, j < argmax_from mp max_ind (length pre) ip ->
                 nth_error l j = Some v -> PrimFloat.ltb v vmax = true).
Proof.
  induction ip as [|x ip IH]; intros pre mp max_ind Hl Hnn Hmp Hlt Hle Hfirst.
  - simpl. exists mp. split; [exact Hmp|]. split; [|exact Hfirst].
    intros j v Hj. apply (Hle j v); [|exact Hj].
    rewrite app_nil_r in Hl. subst l. apply nth_error_Some. congruence.
  - assert (Hx : nth_error l (length pre) = Some x).
    { subst l. rewrite nth_error_app2, Nat.sub_diag by lia. reflexivity. }
    assert (Hxn : PrimFloat.is_nan x = false).
    { unfold no_nan in Hnn. rewrite Forall_forall in Hnn. apply Hnn.
      eapply nth_error_In; eassumption. }
    assert (Hmn : PrimFloat.is_nan mp = false).
    { unfold no_nan in Hnn. rewrite Forall_forall in Hnn. apply Hnn.
      eapply nth_error_In; eassumption. }
    assert (Hl' : l = (pre ++ [x]) ++ ip) by (rewrite <- app_assoc; exact Hl).
    cbn [argmax_from].
    replace (S (length pre)) with (length (pre ++ [x]))
      by (rewrite length_app; simpl; lia).
    destruct (PrimFloat.leb x mp) eqn:Ex; cbn [negb].
    + apply IH; try assumption.
      * rewrite length_app; simpl; lia.
      * intros j v Hj Hv. rewrite length_app in Hj; simpl in Hj.
        destruct (Nat.eq_dec j (length pre)) as [->|Hne].
        -- rewrite Hx in Hv. injection Hv as <-. exact Ex.
        -- apply (Hle j v); [lia | exact Hv].
    + rewrite Hxn.
      pose proof (float_not_le_lt _ _ Hxn Hmn Ex) as Hlt'.
      apply IH; try assumption.
      * rewrite length_app; simpl; lia.
      * intros j v Hj Hv. rewrite length_app in Hj; simpl in Hj.
        destruct (Nat.eq_dec j (length pre)) as [->|Hne].
        -- rewrite Hx in Hv. injection Hv as <-. apply float_le_refl. exact Hxn.
        -- apply float_le_trans with mp; [apply (Hle j v); [lia | exact Hv]|].
           apply float_lt_le. exact Hlt'.
      * intros j v Hj Hv. apply float_le_lt_trans with mp; [|exact Hlt'].
        apply (Hle j v); [lia | exact Hv].
Qed.

Lemma np_argmax_correct (a : list float) idx :
  np_argmax a = Ok idx -> no_nan a ->
  exists vmax,
    nth_error a idx = Some vmax /\
    (forall j v, nth_error a j = Some v -> PrimFloat.leb v vmax = true) /\
    (forall j v, j < idx -> nth_error a j = Some v -> PrimFloat.ltb v vmax = true).
Proof.
  destruct a as [|x rest]; simpl; [discriminate|]. intros [= <-] Hnn.
  assert (Hx : PrimFloat.is_nan x = false) by (inversion Hnn; assumption).
  rewrite Hx.
  apply (argmax_from_correct (x :: rest) rest [x] x 0); try reflexivity; try assumption.
  - simpl; lia.
  - intros j v Hj Hv. simpl in Hj. assert (j = 0) by lia. subst j.
    injection Hv as <-. apply float_le_refl. exact Hx.
  - intros j v Hj. lia.
Qed.

Lemma np_argmax_nan_first (a : list float) x rest :
  a = x :: rest -> PrimFloat.is_nan x = true -> np_argmax a = Ok 0.
Proof. intros -> H. simpl. rewrite H. reflexivity. Qed.

Lemma argmax_from_first_nan : forall ip mp max_ind i j v,
  nth_error ip j = Some v -> PrimFloat.is_nan v = true ->
  exists k w, argmax_from mp max_ind i ip = i + k /\ k <= j /\
              nth_error ip k = Some w /\ PrimFloat.is_nan w = true.
Proof.
  induction ip as [|x ip IH]; intros mp max_ind i j v Hj Hv.
  - destruct j; discriminate Hj.
  - cbn [argmax_from].
    destruct (PrimFloat.is_nan x) eqn:Hx.
    + rewrite (float_le_nan_r x mp Hx). cbn [negb].
      exists 0, x. rewrite Nat.add_0_r. repeat split; [apply Nat.le_0_l|exact Hx].
    + destruct j as [|j]; [simpl in Hj; congruence|]. simpl in Hj.
      destruct (PrimFloat.leb x mp); cbn [negb].
      * destruct (IH mp max_ind (S i) j v Hj Hv) as (k & w & E & Hk & Hw & Hn).
        exists (S k), w. rewrite E, Nat.add_succ_r.
        repeat split; [apply le_n_S; exact Hk | exact Hw | exact Hn].
      * destruct (IH x i (S i) j v Hj Hv) as (k & w & E & Hk & Hw & Hn).
        exists (S k), w. rewrite E, Nat.add_succ_r.
        repeat split; [apply le_n_S; exact Hk | exact Hw | exact Hn].
Qed.

Lemma np_argmax_first_nan (a : list float) idx j v :
  np_argmax a = Ok idx -> nth_error a j = Some v -> PrimFloat.is_nan v = true ->
  idx <= j /\ exists w, nth_error a idx = Some w /\ PrimFloat.is_nan w = true.
Proof.
  destruct a as [|x rest]; simpl; [discriminate|]. intros [= <-] Hj Hv.
  destruct (PrimFloat.is_nan x) eqn:Hx.
  - split; [apply Nat.le_0_l|]. exists x. split; [reflexivity | exact Hx].
  - destruct j as [|j]; [simpl in Hj; congruence|]. simpl in Hj.
    destruct (argmax_from_first_nan rest x 0 1 j v Hj Hv) as (k & w & E & Hk & Hw & Hn).
    rewrite E. split; [apply le_n_S; exact Hk|]. exists w. split; [exact Hw | exact Hn].
Qed.

(* ---------------- gridsearch.fit ---------------- *)

Definition candidate (grid : list params) (i : nat) (a : record) (e : list event) : Prop :=
  exists p, nth_error grid i = Some p /\ evaluated e = [p] /\
            r_params a = p /\ r_mean a = np_mean (r_scores a).

Definition after_split (s : store) (res : result (list fold)) : store :=
  with_env s (env s) (EvSplit res).

Definition with_folds (s : store) (F : list fold) : store :=
  {| env := env s; trace := trace s; k_fold_splits := Some F;
     scoring_results_ := scoring_results_ s; best_index_ := best_index_ s;
     best_params_ := best_params_ s; best_score_ := best_score_ s |}.

Definition with_results (s : store) (rs : list record) : store :=
  {| env := env s; trace := trace s; k_fold_splits := k_fold_splits s;
     scoring_results_ := Some rs; best_index_ := best_index_ s;
     best_params_ := best_params_ s; best_score_ := best_score_ s |}.

Definition with_best (s : store) (rs : list record) (idx : nat) (rec : record) : store :=
  {| env := env s; trace := trace s; k_fold_splits := k_fold_splits s;
     scoring_results_ := Some rs; best_index_ := Some idx;
     best_params_ := Some (r_params rec);
     best_score_ := Some (np_mean (r_scores rec), np_std (r_scores rec)) |}.

Section FitRun.
Variables (self : gridsearch) (X : list sample) (y : list label) (sched : list nat).

Let grid := ParameterGrid (grid_params self).
Let split_result := skf_split (cv self) true (Some (random_state self)) X y.

Inductive fit_finish : result (list record) -> store -> result unit -> store -> Prop :=
| finish_eval_raised e s2 :
    fit_finish (Raise e) s2 (Raise e) s2
| finish_argmax_raised rs s2 e :
    np_argmax (map r_mean rs) = Raise e ->
    fit_finish (Ok rs) s2 (Raise e) (with_results s2 rs)
| finish_done rs s2 idx rec :
    np_argmax (map r_mean rs) = Ok idx ->
    nth_error rs idx = Some rec ->
    fit_finish (Ok rs) s2 (Ok tt) (with_best s2 rs idx rec).

Inductive fit_outcome (s : store) : result unit -> store -> Prop :=
| fit_split_raised e :
    split_result = Raise e ->
    fit_outcome s (Raise e) (after_split s (Raise e))
| fit_ran F r s2 ext r' s' :
    split_result = Ok F ->
    Parallel sched (map (_eval self X y) grid) (with_folds (after_split s (Ok F)) F)
      = (r, s2) ->
    trace s2 = trace s ++ EvSplit (Ok F) :: ext ->
    attrs_eq (with_folds s F) s2 ->
    par_post F (candidate grid) (fun _ _ => True) (length grid) r ext ->
    fit_finish r s2 r' s' ->
    fit_outcome s r' s'.

Definition fit_tail (r : result (list record)) (s2 : store) : result unit * store :=
  match r with
  | Raise e => (Raise e, s2)
  | Ok rs =>
      match np_argmax (map r_mean rs) with
      | Raise e => (Raise e, with_results s2 rs)
      | Ok idx =>
          match nth_error rs idx with
          | Some rec => (Ok tt, with_best s2 rs idx rec)
          | None => (Raise (IndexError "list index out of range"),
                     {| env := env s2; trace := trace s2;
                        k_fold_splits := k_fold_splits s2;
                        scoring_results_ := Some rs; best_index_ := Some idx;
                        best_params_ := best_params_ s2; best_score_ := best_score_ s2 |})
          end
      end
  end.

Lemma fit_unfold s :
  fit self X y sched s =
  match split_result with
  | Raise e => (Raise e, after_split s (Raise e))
  | Ok F =>
      let '(r, s2) := Parallel sched (map (_eval self X y) grid)
                               (with_folds (after_split s (Ok F)) F) in
      fit_tail r s2
  end.
Proof.
  unfold fit, _train_test_split, StratifiedKFold_split, split_result, fit_tail.
  unfold bind at 1. unfold call.
  destruct (skf_split (cv self) true (Some (random_state self)) X y) as [F|e];
    [|reflexivity].
  unfold bind at 1. unfold set_k_fold_splits at 1. unfold bind at 1.
  unfold with_folds, after_split, with_env.
  cbn [env trace k_fold_splits scoring_results_ best_index_ best_params_ best_score_].
  fold grid.
  destruct (Parallel sched (map (_eval self X y) grid) _) as [[rs|e] s2]; [|reflexivity].
  unfold bind at 1. unfold set_scoring_results_ at 1.
  unfold bind at 1. unfold lift at 1.
  destruct (np_argmax (map r_mean rs)) as [idx|e]; [|reflexivity].
  unfold bind at 1. unfold set_best_index_ at 1.
  unfold best_record, getattr, bind, lift, getitem, set_best_params_, set_best_score_,
    with_best.
  cbn [scoring_results_ best_index_ env trace k_fold_splits best_params_ best_score_].
  destruct (nth_error rs idx) as [rec|]; reflexivity.
Qed.

Lemma fit_cases s :
  fit_outcome s (fst (fit self X y sched s)) (snd (fit self X y sched s)).
Proof.
  rewrite fit_unfold.
  destruct split_result as [F|e] eqn:Es; cbn [fst snd].
  2:{ apply fit_split_raised. exact Es. }
  assert (Hpar : spec (Some F) (Parallel sched (map (_eval self X y) grid))
                      (par_post F (candidate grid) (fun _ _ => True)
                                (length (map (_eval self X y) grid)))).
  { apply Parallel_spec. intros i t Hi. rewrite nth_error_map in Hi.
    destruct (nth_error grid i) as [p|] eqn:Ep; [|discriminate]. injection Hi as <-.
    eapply spec_conseq; [apply _eval_spec|].
    intros r ext [H1 H2]. split; [exact H1|]. destruct r as [a|e]; [|exact I].
    destruct (H2 a eq_refl) as (E1 & E2 & E3). exists p. auto. }
  rewrite length_map in Hpar.
  destruct (Hpar (with_folds (after_split s (Ok F)) F) eq_refl) as (ext & Ht & Ha & Hp).
  destruct (Parallel sched (map (_eval self X y) grid) (with_folds (after_split s (Ok F)) F))
    as [r s2] eqn:Ep.
  cbn [fst snd] in *.
  eapply (fit_ran s F r s2 ext); try eassumption.
  - rewrite Ht. cbn [with_folds after_split with_env trace]. rewrite <- app_assoc. reflexivity.
  - unfold fit_tail. destruct r as [rs|e]; [|apply finish_eval_raised].
    destruct (np_argmax (map r_mean rs)) as [idx|e] eqn:Ea.
    2:{ apply finish_argmax_raised. exact Ea. }
    pose proof (np_argmax_bound _ _ Ea) as Hb. rewrite length_map in Hb.
    destruct (nth_error rs idx) as [rec|] eqn:En.
    2:{ apply nth_error_None in En. exfalso.
        exact (Nat.lt_irrefl _ (Nat.lt_le_trans _ _ _ Hb En)). }
    apply finish_done; assumption.
Qed.
End FitRun.

(* ---------------- claims about fit ---------------- *)

Lemma map_nth_seq {A} (l : list A) d :
  map (fun i => nth i l d) (seq 0 (length l)) = l.
Proof.
  induction l as [|x l IH]; [reflexivity|].
  simpl. f_equal. rewrite <- seq_shift, map_map. exact IH.
Qed.

Lemma evaluated_concat grid order exts :
  Forall2 (fun i e => exists a : record, True /\ candidate grid i a e) order exts ->
  evaluated (concat exts) = map (fun i => nth i grid []) order.
Proof.
  induction 1 as [|i e order exts (a & _ & p & Hp & He & _) _ IH]; [reflexivity|].
  simpl. rewrite evaluated_app, He, IH. simpl. f_equal.
  symmetry. apply nth_error_nth. exact Hp.
Qed.

(** C1: in every call of [fit] the library calls made are one call of the
    fold splitter, first, followed by the calls of the candidate
    evaluations.  When the splitter raises, nothing follows and [fit] raises
    the same exception.  Otherwise its result [F] is stored in
    [k_fold_splits], no later event is another split, every evaluation that
    starts reads this same list [F] of (train index, test index) pairs, and
    in a run that completes the evaluations started are those of the whole
    grid, each candidate once. *)
Theorem fit_partition_computed_once self X y sched s :
  exists res evs,
    trace (snd (fit self X y sched s)) = trace s ++ EvSplit res :: evs /\
    match res with
    | Raise e => evs = [] /\ fst (fit self X y sched s) = Raise e
    | Ok F =>
        k_fold_splits (snd (fit self X y sched s)) = Some F /\
        Forall (uses F) evs /\
        (fst (fit self X y sched s) = Ok tt ->
         Permutation (evaluated evs) (ParameterGrid (grid_params self)))
    end.
Proof.
  destruct (fit_cases self X y sched s)
    as [e Hs | F r s2 ext r' s' Hs Hp Ht Ha [Hrun Hpost] Hfin].
  - exists (Raise e), []. split; [reflexivity|]. auto.
  - exists (Ok F), ext.
    assert (Hk : k_fold_splits s2 = Some F) by (destruct Ha as [E _]; exact E).
    assert (Htr : trace s' = trace s2 /\ k_fold_splits s' = k_fold_splits s2).
    { destruct Hfin; auto. }
    destruct Htr as [-> ->]. split; [exact Ht|]. split; [exact Hk|].
    split; [destruct Hrun; assumption|].
    intros ->. inversion Hfin as [| |rs ? idx rec Hi Hn]; subst.
    destruct Hpost as (Hl & order & exts & P & -> & F2).
    rewrite (evaluated_concat (ParameterGrid (grid_params self)) order exts).
    + eapply Permutation_trans; [apply Permutation_map; exact P|].
      rewrite map_nth_seq. reflexivity.
    + eapply Forall2_impl; [|exact F2]. intros i e (a & Ha' & Hc). exists a. auto.
Qed.

(** C7: [fit] handles no failure.  As soon as a library call made during a
    run (the splitter, the constructor of the estimator, its [fit] or
    [predict], the scoring function) raises, [fit] raises this very
    exception: the failing call is the last call of the run, every call
    before it returned normally, and the four result attributes
    [scoring_results_], [best_index_], [best_params_] and [best_score_] are
    left as they were before the call of [fit]. *)
Theorem fit_exception_propagates self X y sched s :
  exists ext,
    trace (snd (fit self X y sched s)) = trace s ++ ext /\
    forall ev e, In ev ext -> exc_of ev = Some e ->
      fst (fit self X y sched s) = Raise e /\
      (exists pre, ext = pre ++ [ev] /\ Forall quiet pre) /\
      scoring_results_ (snd (fit self X y sched s)) = scoring_results_ s /\
      best_index_ (snd (fit self X y sched s)) = best_index_ s /\
      best_params_ (snd (fit self X y sched s)) = best_params_ s /\
      best_score_ (snd (fit self X y sched s)) = best_score_ s.
Proof.
  destruct (fit_cases self X y sched s)
    as [e0 Hs | F r s2 ext r' s' Hs Hp Ht Ha [Hrun Hpost] Hfin].
  - exists [EvSplit (Raise e0)]. split; [reflexivity|].
    intros ev e [<-|[]] [= <-]. split; [reflexivity|].
    split; [exists []; split; [reflexivity | constructor]|]. repeat split.
  - exists (EvSplit (Ok F) :: ext).
    assert (Htr : trace s' = trace s2) by (destruct Hfin; reflexivity).
    rewrite Htr. split; [exact Ht|].
    intros ev e Hin He. destruct Hrun as [_ Hclean].
    assert (Hq : forall ev', Forall quiet ext -> In ev' (EvSplit (Ok F) :: ext) -> quiet ev').
    { intros ev' Hall [<-|Hin']; [reflexivity|]. rewrite Forall_forall in Hall. auto. }
    destruct r as [rs|e0]; simpl in Hclean.
    + exfalso. specialize (Hq ev Hclean Hin). unfold quiet in Hq. congruence.
    + destruct Hclean as [Hall|(pre & ev' & -> & Hpre & He')].
      * exfalso. specialize (Hq ev Hall Hin). unfold quiet in Hq. congruence.
      * assert (ev = ev').
        { destruct Hin as [<-|Hin]; [discriminate He|].
          apply in_app_or in Hin as [Hin|[<-|[]]]; [|reflexivity].
          exfalso. rewrite Forall_forall in Hpre. specialize (Hpre _ Hin).
          unfold quiet in Hpre. congruence. }
        subst ev'. assert (e0 = e) by congruence. subst e0.
        inversion Hfin; subst.
        split; [reflexivity|]. split.
        { exists (EvSplit (Ok F) :: pre). split; [reflexivity|].
          constructor; [reflexivity | exact Hpre]. }
        destruct Ha as (_ & A2 & A3 & A4 & A5). auto.
Qed.

(* ---- ParameterGrid ---- *)

Lemma insert_item_perm {V} (it : string * V) l : Permutation (insert_item it l) (it :: l).
Proof.
  induction l as [|it' l IH]; simpl; [reflexivity|].
  destruct (String.leb (fst it) (fst it')); [reflexivity|].
  rewrite IH. apply perm_swap.
Qed.

Lemma sorted_items_perm {V} (d : list (string * V)) : Permutation (sorted_items d) d.
Proof.
  induction d as [|it d IH]; simpl; [reflexivity|].
  rewrite insert_item_perm. constructor. exact IH.
Qed.

Lemma grid_size_perm d d' : Permutation d d' -> grid_size d = grid_size d'.
Proof.
  induction 1 as [|x l l' _ IH|x x' l|l l' l'' _ IH1 _ IH2]; simpl;
    [reflexivity | rewrite IH; reflexivity | lia | congruence].
Qed.

Lemma product_length items : length (product items) = grid_size items.
Proof.
  induction items as [|[k vs] rest IH]; [reflexivity|].
  cbn [product grid_size fold_right snd]. fold (grid_size rest). rewrite <- IH. clear IH.
  induction vs as [|v vs IHv]; [reflexivity|].
  cbn [flat_map length]. rewrite length_app, length_map.
  cbn [Nat.mul]. f_equal. exact IHv.
Qed.

Lemma ParameterGrid_length d : length (ParameterGrid d) = grid_size d.
Proof.
  unfold ParameterGrid. rewrite product_length.
  apply grid_size_perm, sorted_items_perm.
Qed.

Lemma product_In items p : In p (product items) <-> chooses p items.
Proof.
  revert p; induction items as [|[k vs] rest IH]; intros p; simpl.
  - split.
    + intros [<-|[]]. constructor.
    + intros H. inversion H. now left.
  - rewrite in_flat_map. split.
    + intros (v & Hv & Hin). apply in_map_iff in Hin as (q & <- & Hq).
      constructor; [split; [reflexivity | exact Hv]|]. apply IH. exact Hq.
    + intros H. inversion H as [|[k' v] it' p' its [Hk Hv] Hrest]; subst.
      simpl in Hk, Hv. subst k'. exists v. split; [exact Hv|].
      apply in_map. apply IH. exact Hrest.
Qed.

Lemma product_NoDup items :
  Forall (fun it => NoDup (snd it)) items -> NoDup (product items).
Proof.
  induction items as [|[k vs] rest IH]; intros H.
  - simpl. repeat constructor. intros [].
  - inversion H as [|? ? Hvs Hrest]; subst. simpl in Hvs. specialize (IH Hrest).
    simpl. clear H Hrest. induction Hvs as [|v vs Hv Hvs IHv]; [constructor|].
    simpl. apply NoDup_app.
    + apply Finite.Injective_map_NoDup; [|exact IH].
      intros a b [= ->]. reflexivity.
    + exact IHv.
    + intros p Hp Hp'. apply in_map_iff in Hp as (q & <- & _).
      apply in_flat_map in Hp' as (v' & Hv' & Hin).
      apply in_map_iff in Hin as (q' & [= -> _] & _). contradiction.
Qed.

Lemma tags_follow_grid (grid : list params) (rs : list record) order exts :
  length rs = length grid ->
  Permutation order (seq 0 (length grid)) ->
  Forall2 (fun i e => exists a, nth_error rs i = Some a /\ candidate grid i a e) order exts ->
  map r_params rs = grid.
Proof.
  intros Hl P F2. apply nth_error_ext. intros i.
  destruct (Nat.lt_ge_cases i (length grid)) as [Hi|Hi].
  - assert (Hin : In i order).
    { apply (Permutation_in _ (Permutation_sym P)). apply in_seq. lia. }
    clear - F2 Hin. induction F2 as [|j e order exts Hj _ IH]; [destruct Hin|].
    destruct Hin as [->|Hin]; [|auto].
    destruct Hj as (a & Ha & p & Hp & _ & Ht & _).
    rewrite nth_error_map, Ha, Hp. simpl. f_equal. exact Ht.
  - rewrite (proj2 (nth_error_None grid i)) by exact Hi.
    apply nth_error_None. rewrite length_map. lia.
Qed.

(** C2: when [fit] completes, [scoring_results_] holds as many records as
    the Cartesian product of the grid has elements, the i-th record is tagged
    with the i-th element of the enumeration of [ParameterGrid], whatever the
    order [sched] in which the evaluations complete; the tags are exactly the
    choices of one value per key, and they are pairwise distinct when no key
    lists a value twice. *)
Theorem fit_results_follow_grid self X y sched s :
  fst (fit self X y sched s) = Ok tt ->
  exists rs,
    scoring_results_ (snd (fit self X y sched s)) = Some rs /\
    length rs = grid_size (grid_params self) /\
    map r_params rs = ParameterGrid (grid_params self) /\
    (forall p, In p (map r_params rs) <-> chooses p (sorted_items (grid_params self))) /\
    (Forall (fun it => NoDup (snd it)) (grid_params self) -> NoDup (map r_params rs)).
Proof.
  intros Hok.
  destruct (fit_cases self X y sched s)
    as [e Hs | F r s2 ext r' s' Hs Hp Ht Ha [Hrun Hpost] Hfin]; [discriminate|].
  subst r'. inversion Hfin as [| |rs ? idx rec Hi Hn]; subst.
  destruct Hpost as (Hl & order & exts & P & _ & F2).
  pose proof (tags_follow_grid _ _ _ _ Hl P F2) as Htags.
  exists rs. split; [reflexivity|]. split; [|split; [exact Htags|split]].
  - rewrite Hl. apply ParameterGrid_length.
  - intros p. rewrite Htags. apply product_In.
  - intros Hnd. rewrite Htags. apply product_NoDup.
    rewrite Forall_forall in *. intros it Hit. apply Hnd.
    apply (Permutation_in _ (sorted_items_perm _)). exact Hit.
Qed.

(** C3, amended: when [fit] completes, [best_params_] and [best_score_] are
    the parameters and the (mean, standard deviation) of the fold scores of
    the record at [best_index_]; provided no mean score is NaN, the mean of
    that record is greater than or equal to the mean of every record, and
    strictly greater than the mean of every record before it, so that
    [best_index_] is the first index of the maximum.  When some mean score
    is NaN, the record at [best_index_] is the first one whose mean is
    NaN. *)
Theorem fit_selects_first_maximum self X y sched s :
  fst (fit self X y sched s) = Ok tt ->
  exists rs idx rec,
    scoring_results_ (snd (fit self X y sched s)) = Some rs /\
    best_index_ (snd (fit self X y sched s)) = Some idx /\
    nth_error rs idx = Some rec /\
    best_params_ (snd (fit self X y sched s)) = Some (r_params rec) /\
    best_score_ (snd (fit self X y sched s))
      = Some (np_mean (r_scores rec), np_std (r_scores rec)) /\
    r_mean rec = np_mean (r_scores rec) /\
    (no_nan (map r_mean rs) ->
     (forall j r, nth_error rs j = Some r -> PrimFloat.leb (r_mean r) (r_mean rec) = true) /\
     (forall j r, j < idx -> nth_error rs j = Some r ->
                  PrimFloat.ltb (r_mean r) (r_mean rec) = true)) /\
    (forall j r, nth_error rs j = Some r -> PrimFloat.is_nan (r_mean r) = true ->
                 idx <= j /\ PrimFloat.is_nan (r_mean rec) = true).
Proof.
  intros Hok.
  destruct (fit_cases self X y sched s)
    as [e Hs | F r s2 ext r' s' Hs Hp Ht Ha [Hrun Hpost] Hfin]; [discriminate|].
  subst r'. inversion Hfin as [| |rs ? idx rec Hi Hn]; subst.
  destruct Hpost as (Hl & order & exts & P & _ & F2).
  exists rs, idx, rec. repeat (split; [reflexivity || exact Hn|]).
  split.
  - assert (Hin : In idx order).
    { apply (Permutation_in _ (Permutation_sym P)). apply in_seq.
      split; [apply Nat.le_0_l|]. simpl. rewrite <- Hl. apply nth_error_Some. congruence. }
    clear - F2 Hin Hn. induction F2 as [|j e order exts Hj _ IH]; [destruct Hin|].
    destruct Hin as [->|Hin]; [|auto].
    destruct Hj as (a & Ha & p & _ & _ & _ & Hm). congruence.
  - split.
    + intros Hnn. destruct (np_argmax_correct _ _ Hi Hnn) as (vmax & Hv & Hle & Hlt).
      rewrite nth_error_map, Hn in Hv. injection Hv as <-. split.
      * intros j r Hr. apply (Hle j). rewrite nth_error_map, Hr. reflexivity.
      * intros j r Hj Hr. apply (Hlt j); [exact Hj|]. rewrite nth_error_map, Hr. reflexivity.
    + intros j r Hr Hnan.
      destruct (np_argmax_first_nan (map r_mean rs) idx j (r_mean r) Hi) as (Hle & w & Hw & Hwn);
        [rewrite nth_error_map, Hr; reflexivity | exact Hnan |].
      rewrite nth_error_map, Hn in Hw. injection Hw as <-. split; assumption.
Qed.

(* ---------------- determinism ---------------- *)

Definition det {A} (m : M A) : Prop :=
  (forall s, k_fold_splits (snd (m s)) = k_fold_splits s) /\
  (forall s s', k_fold_splits s = k_fold_splits s' -> fst (m s) = fst (m s')).

Lemma det_lift {A} (r : result A) : det (lift r).
Proof. split; reflexivity. Qed.

Lemma det_call {A} (f : world -> result A * world) ev :
  (forall w w', fst (f w) = fst (f w')) -> det (call f ev).
Proof.
  intros H. split.
  - intros s. unfold call. destruct (f (env s)). reflexivity.
  - intros s s' _. unfold call. specialize (H (env s) (env s')).
    destruct (f (env s)), (f (env s')). exact H.
Qed.

Lemma det_log ev : det (log ev).
Proof. split; reflexivity. Qed.

Lemma det_getattr_kfs : det (getattr k_fold_splits "k_fold_splits").
Proof.
  split.
  - intros s. unfold getattr. destruct (k_fold_splits s) eqn:E; simpl; congruence.
  - intros s s' H. unfold getattr. rewrite <- H. destruct (k_fold_splits s); reflexivity.
Qed.

Lemma det_bind {A B} (m : M A) (k : A -> M B) :
  det m -> (forall a, det (k a)) -> det (bind m k).
Proof.
  intros [Hm1 Hm2] Hk. split.
  - intros s. unfold bind. specialize (Hm1 s). destruct (m s) as [[a|e] s1]; simpl in *.
    + rewrite (proj1 (Hk a)). exact Hm1.
    + exact Hm1.
  - intros s s' H. unfold bind.
    pose proof (Hm1 s) as H1. pose proof (Hm1 s') as H1'. pose proof (Hm2 s s' H) as H2.
    destruct (m s) as [[a|e] s1], (m s') as [[a'|e'] s1']; simpl in *; try discriminate.
    + injection H2 as <-. apply (proj2 (Hk a)). congruence.
    + injection H2 as <-. reflexivity.
Qed.

Section Deterministic.
Variable self : gridsearch.
Hypothesis method_det : forall p w w', fst (method self p w) = fst (method self p w').
Hypothesis fit_det :
  forall c Xs ys h w w', fst (clf_fit c Xs ys h w) = fst (clf_fit c Xs ys h w').
Hypothesis predict_det :
  forall c Xs w w', fst (clf_predict c Xs w) = fst (clf_predict c Xs w').
Hypothesis scoring_det :
  forall yt yp w w', fst (scoring self yt yp w) = fst (scoring self yt yp w').

Lemma eval_folds_det X y folds : forall clf scores,
  det (eval_folds self X y clf folds scores).
Proof.
  induction folds as [|[tr te] rest IH]; intros clf scores; cbn [eval_folds].
  - apply det_lift.
  - repeat (apply det_bind; [first [apply det_lift | apply det_call; auto]|]; intros ?).
    apply IH.
Qed.

Lemma _eval_det X y p : det (_eval self X y p).
Proof.
  unfold _eval. apply det_bind.
  - destruct (kwargs self); [destruct (existsb _ _)|];
      first [apply det_lift | apply det_call; auto].
  - intros clf. apply det_bind; [apply det_getattr_kfs|]. intros folds.
    apply det_bind; [apply det_log|]. intros _.
    apply det_bind; [apply eval_folds_det|]. intros scores. apply det_lift.
Qed.

Lemma Parallel_det X y F sched s0 s :
  k_fold_splits s0 = Some F -> k_fold_splits s = Some F ->
  let grid := ParameterGrid (grid_params self) in
  let v p := fst (_eval self X y p s0) in
  match fst (Parallel sched (map (_eval self X y) grid) s) with
  | Ok rs => map Ok rs = map v grid
  | Raise e => exists p, In p grid /\ v p = Raise e
  end /\ k_fold_splits (snd (Parallel sched (map (_eval self X y) grid) s)) = Some F.
Proof.
  intros H0 Hs grid v.
  assert (Hpar : spec (Some F) (Parallel sched (map (_eval self X y) grid))
            (par_post F (fun i a _ => exists p, nth_error grid i = Some p /\ v p = Ok a)
                      (fun i e => exists p, nth_error grid i = Some p /\ v p = Raise e)
                      (length (map (_eval self X y) grid)))).
  { apply Parallel_spec. intros i t Hi. rewrite nth_error_map in Hi.
    destruct (nth_error grid i) as [p|] eqn:Ep; [|discriminate]. injection Hi as <-.
    intros s1 Hs1. destruct (_eval_spec self X y F p s1 Hs1) as (ext & Ht & Ha & [Hr _]).
    exists ext. split; [exact Ht|]. split; [exact Ha|]. split; [exact Hr|].
    pose proof (proj2 (_eval_det X y p) s1 s0) as Hd.
    rewrite Hs1, H0 in Hd. specialize (Hd eq_refl). fold (v p) in Hd.
    destruct (fst (_eval self X y p s1)); exists p; auto. }
  rewrite length_map in Hpar.
  destruct (Hpar s Hs) as (ext & _ & Ha & _ & Hpost). split.
  - destruct (fst (Parallel sched (map (_eval self X y) grid) s)) as [rs|e].
    + destruct Hpost as (Hl & order & exts & P & _ & F2).
      apply nth_error_ext. intros i. rewrite !nth_error_map.
      destruct (Nat.lt_ge_cases i (length grid)) as [Hi|Hi].
      * assert (Hin : In i order).
        { apply (Permutation_in _ (Permutation_sym P)). apply in_seq. lia. }
        clear - F2 Hin. induction F2 as [|j e order exts Hj _ IH]; [destruct Hin|].
        destruct Hin as [->|Hin]; [|auto].
        destruct Hj as (a & Ha & p & Hp & Hv). rewrite Ha, Hp. simpl. congruence.
      * rewrite (proj2 (nth_error_None grid i)) by exact Hi.
        rewrite (proj2 (nth_error_None rs i)) by lia. reflexivity.
    + destruct Hpost as (i & _ & p & Hp & Hv). exists p. split; [|exact Hv].
      eapply nth_error_In; eassumption.
  - destruct Ha as [E _]. rewrite E. exact Hs.
Qed.
End Deterministic.

(** C4, amended: two calls of [fit] on the same inputs with the same
    configuration compute the same fold partition, whatever the outer state
    and the order of completion.  When moreover the results of the
    constructor, of [fit] and [predict] of the estimator and of the scoring
    function depend on their arguments only, and the first call completes,
    then the second completes too, with the same partition, the same records
    (parameters, fold scores, mean) and the same best index, parameters and
    score. *)
Theorem fit_repeatable self X y sched1 sched2 s1 s2 :
  fst (_train_test_split self X y s1) = fst (_train_test_split self X y s2) /\
  ((forall p w w', fst (method self p w) = fst (method self p w')) ->
   (forall c Xs ys h w w', fst (clf_fit c Xs ys h w) = fst (clf_fit c Xs ys h w')) ->
   (forall c Xs w w', fst (clf_predict c Xs w) = fst (clf_predict c Xs w')) ->
   (forall yt yp w w', fst (scoring self yt yp w) = fst (scoring self yt yp w')) ->
   fst (fit self X y sched1 s1) = Ok tt ->
   fst (fit self X y sched2 s2) = Ok tt /\
   k_fold_splits (snd (fit self X y sched2 s2)) = k_fold_splits (snd (fit self X y sched1 s1)) /\
   scoring_results_ (snd (fit self X y sched2 s2))
     = scoring_results_ (snd (fit self X y sched1 s1)) /\
   best_index_ (snd (fit self X y sched2 s2)) = best_index_ (snd (fit self X y sched1 s1)) /\
   best_params_ (snd (fit self X y sched2 s2)) = best_params_ (snd (fit self X y sched1 s1)) /\
   best_score_ (snd (fit self X y sched2 s2)) = best_score_ (snd (fit self X y sched1 s1))).
Proof.
  split; [reflexivity|].
  intros Hm Hf Hp Hsc. rewrite !fit_unfold.
  destruct (skf_split (cv self) true (Some (random_state self)) X y) as [F|e];
    [|discriminate].
  set (t1 := with_folds (after_split s1 (Ok F)) F).
  set (t2 := with_folds (after_split s2 (Ok F)) F).
  pose proof (Parallel_det self Hm Hf Hp Hsc X y F sched1 t1 t1 eq_refl eq_refl) as [H1 K1].
  pose proof (Parallel_det self Hm Hf Hp Hsc X y F sched2 t1 t2 eq_refl eq_refl) as [H2 K2].
  cbv zeta in H1, H2.
  destruct (Parallel sched1 (map (_eval self X y) (ParameterGrid (grid_params self))) t1)
    as [r1 u1].
  destruct (Parallel sched2 (map (_eval self X y) (ParameterGrid (grid_params self))) t2)
    as [r2 u2].
  cbn [fst snd] in *. intros Hok.
  destruct r1 as [rs1|e1]; [|discriminate Hok].
  assert (Hrs : r2 = Ok rs1).
  { destruct r2 as [rs2|e2].
    - f_equal. rewrite <- H1 in H2. clear - H2.
      revert rs1 H2; induction rs2 as [|a rs2 IH]; intros [|b rs1] H; simpl in H;
        try discriminate; [reflexivity|].
      injection H as -> H. f_equal. auto.
    - exfalso. destruct H2 as (p & Hin & Hv).
      apply (in_map (fun p => fst (_eval self X y p t1))) in Hin.
      rewrite <- H1 in Hin. apply in_map_iff in Hin as (a & Ha & _). congruence. }
  subst r2. unfold fit_tail in *.
  destruct (np_argmax (map r_mean rs1)) as [idx|e]; [|discriminate Hok].
  destruct (nth_error rs1 idx) as [rec|]; [|discriminate Hok].
  cbn [fst snd with_best k_fold_splits scoring_results_ best_index_ best_params_ best_score_].
  rewrite K1, K2. repeat split.
Qed.

(* ---------------- StratifiedKFoldTestPredictions ---------------- *)

Lemma bind_Ok_inv {A B} (m : M A) (k : A -> M B) s b s' :
  bind m k s = (Ok b, s') -> exists a s1, m s = (Ok a, s1) /\ k a s1 = (Ok b, s').
Proof.
  unfold bind. destruct (m s) as [[a|e] s1]; [eauto | discriminate].
Qed.

Lemma lift_Ok_inv {A} (r : result A) s a s' : lift r s = (Ok a, s') -> r = Ok a /\ s' = s.
Proof. unfold lift. intros [= -> ->]. auto. Qed.

Lemma take_length {A} (a : list A) idx xs : take a idx = Ok xs -> length xs = length idx.
Proof.
  revert xs; induction idx as [|i idx IH]; intros xs; simpl.
  - intros [= <-]. reflexivity.
  - destruct (nth_error a i); [|discriminate].
    destruct (take a idx) as [ys|]; simpl; [|discriminate].
    intros [= <-]. simpl. f_equal. auto.
Qed.

Lemma put_length {A} idx : forall (a : list A) vals a',
  put a idx vals = Ok a' -> length a' = length a.
Proof.
  induction idx as [|i idx IH]; intros a vals a'; simpl.
  - intros [= <-]. reflexivity.
  - destruct vals as [|v vals]; [discriminate|].
    destruct (i <? length a); [|discriminate].
    intros H. apply IH in H. rewrite set_nth_length in H. exact H.
Qed.

Lemma put_nth_out {A} idx : forall (a : list A) vals a' i,
  put a idx vals = Ok a' -> ~ In i idx -> nth_error a' i = nth_error a i.
Proof.
  induction idx as [|j idx IH]; intros a vals a' i; simpl.
  - intros [= <-] _. reflexivity.
  - destruct vals as [|v vals]; [discriminate|].
    destruct (j <? length a); [|discriminate].
    intros H Hni. rewrite (IH _ _ _ i H) by tauto.
    apply set_nth_other. intros ->. tauto.
Qed.

Lemma put_nth_in {A} idx : forall (a : list A) vals a' pos i,
  put a idx vals = Ok a' -> NoDup idx -> length vals = length idx ->
  nth_error idx pos = Some i -> nth_error a' i = nth_error vals pos.
Proof.
  induction idx as [|j idx IH]; intros a vals a' pos i; simpl.
  - intros _ _ _ H. destruct pos; discriminate.
  - destruct vals as [|v vals]; [discriminate|].
    destruct (Nat.ltb_spec j (length a)) as [Hj|]; [|discriminate].
    intros H Hnd Hlen Hpos. inversion Hnd as [|? ? Hnj Hnd']; subst.
    destruct pos as [|pos]; simpl in Hpos |- *.
    + injection Hpos as <-. rewrite (put_nth_out _ _ _ _ j H Hnj).
      apply set_nth_same. exact Hj.
    + apply (IH _ _ _ _ _ H Hnd'); [simpl in Hlen; lia | exact Hpos].
Qed.

Lemma setitems_same_length {A} (a : list A) idx vals :
  length vals = length idx -> setitems a idx vals = put a idx vals.
Proof. intros H. unfold setitems. rewrite H, Nat.eqb_refl. reflexivity. Qed.

(* the estimator is fitted on the training rows of a pair and then predicts
   its test rows, pair after pair *)
Inductive fold_chain (X : list sample) (y : list label) (n_jobs : Z)
  : estimator -> store -> list fold -> list (list label) -> store -> Prop :=
| chain_nil clf s : fold_chain X y n_jobs clf s [] [] s
| chain_cons clf s train_index test_index rest clf1 s1 Xte out s2 outs s3 :
    fit_fold X y clf n_jobs train_index s = (Ok clf1, s1) ->
    take X test_index = Ok Xte ->
    call_predict clf1 Xte s1 = (Ok out, s2) ->
    fold_chain X y n_jobs clf1 s2 rest outs s3 ->
    fold_chain X y n_jobs clf s ((train_index, test_index) :: rest) (out :: outs) s3.

Definition disjoint_tests (folds : list fold) : Prop :=
  forall j1 j2 f1 f2 i,
    nth_error folds j1 = Some f1 -> nth_error folds j2 = Some f2 ->
    In i (snd f1) -> In i (snd f2) -> j1 = j2.

Lemma call_predict_result clf Xs s out s' :
  call_predict clf Xs s = (Ok out, s') ->
  exists w', clf_predict clf Xs (env s) = (Ok out, w').
Proof.
  unfold call_predict, call. destruct (clf_predict clf Xs (env s)) as [r w].
  intros [= -> _]. eauto.
Qed.

Lemma predict_folds_chain X y n_jobs
      (predict_shape : forall c Xs w out w',
          clf_predict c Xs w = (Ok out, w') -> length out = length Xs) :
  forall folds clf preds s preds' s',
    Forall (fun f => NoDup (snd f)) folds ->
    disjoint_tests folds ->
    predict_folds X y n_jobs clf folds preds s = (Ok preds', s') ->
    exists outs,
      fold_chain X y n_jobs clf s folds outs s' /\
      length preds' = length preds /\
      (forall j f out pos i,
          nth_error folds j = Some f -> nth_error outs j = Some out ->
          nth_error (snd f) pos = Some i ->
          nth_error preds' i = nth_error out pos /\ pos < length out) /\
      (forall i, (forall f, In f folds -> ~ In i (snd f)) ->
                 nth_error preds' i = nth_error preds i).
Proof.
  induction folds as [|[tr te] rest IH]; intros clf preds s preds' s' Hnd Hdis H.
  - simpl in H. injection H as <- <-. exists []. split; [constructor|].
    split; [reflexivity|]. split; [|reflexivity].
    intros j f out pos i Hj. destruct j; discriminate.
  - cbn [predict_folds] in H.
    apply bind_Ok_inv in H as (clf1 & s1 & Hfit & H).
    apply bind_Ok_inv in H as (Xte & s1' & Hte & H).
    apply lift_Ok_inv in Hte as [Hte ->].
    apply bind_Ok_inv in H as (out & s2 & Hpred & H).
    apply bind_Ok_inv in H as (preds1 & s2' & Hset & H).
    apply lift_Ok_inv in Hset as [Hset ->].
    inversion Hnd as [|? ? Hnd0 Hnd']; subst. simpl in Hnd0.
    assert (Hdis' : disjoint_tests rest).
    { intros j1 j2 f1 f2 i H1 H2 I1 I2.
      assert (S j1 = S j2) by (apply (Hdis (S j1) (S j2) f1 f2 i); assumption). lia. }
    destruct (IH clf1 preds1 s2 preds' s' Hnd' Hdis' H) as (outs & Hchain & Hlen & Hin & Hout).
    destruct (call_predict_result _ _ _ _ _ Hpred) as [w' Hw].
    assert (Hol : length out = length te).
    { rewrite (predict_shape _ _ _ _ _ Hw). eapply take_length; eassumption. }
    rewrite setitems_same_length in Hset by exact Hol.
    exists (out :: outs). split; [econstructor; eassumption|].
    split; [rewrite Hlen; eapply put_length; eassumption|]. split.
    + intros j f o pos i Hj Ho Hpos. destruct j as [|j]; simpl in Hj, Ho.
      * injection Hj as <-. injection Ho as <-. simpl in Hpos. split.
        -- rewrite Hout.
           ++ eapply put_nth_in; eassumption.
           ++ intros f Hf Hi. apply In_nth_error in Hf as [j Hj].
              assert (0 = S j); [|discriminate].
              apply (Hdis 0 (S j) (tr, te) f i); simpl; auto.
              eapply nth_error_In; eassumption.
        -- rewrite Hol. apply nth_error_Some. congruence.
      * eapply Hin; eassumption.
    + intros i Hi. rewrite Hout by (intros f Hf; apply Hi; now right).
      eapply put_nth_out; [eassumption|]. apply (Hi (tr, te)). now left.
Qed.

(* the index pairs produced by the splitter *)
Lemma split_indices_nth k tf n j f :
  nth_error (split_indices k tf n) j = Some f ->
  j < k /\
  f = (filter (fun i => negb (nth i tf k =? j)) (seq 0 n),
       filter (fun i => nth i tf k =? j) (seq 0 n)).
Proof.
  intros H.
  assert (Hj : j < length (split_indices k tf n))
    by (apply nth_error_Some; rewrite H; discriminate).
  unfold split_indices in *. rewrite length_map, length_seq in Hj.
  split; [exact Hj|].
  rewrite nth_error_map, nth_error_seq in H.
  destruct (Nat.ltb_spec j k); [|lia]. simpl in H. injection H as <-. reflexivity.
Qed.

Lemma split_indices_NoDup k tf n :
  Forall (fun f => NoDup (snd f)) (split_indices k tf n).
Proof.
  apply Forall_forall. intros f Hf. apply In_nth_error in Hf as [j Hj].
  apply split_indices_nth in Hj as [_ ->]. simpl.
  apply NoDup_filter, seq_NoDup.
Qed.

Lemma split_indices_disjoint k tf n : disjoint_tests (split_indices k tf n).
Proof.
  intros j1 j2 f1 f2 i H1 H2 I1 I2.
  apply split_indices_nth in H1 as [_ ->]. apply split_indices_nth in H2 as [_ ->].
  simpl in I1, I2. apply filter_In in I1 as [_ I1]. apply filter_In in I2 as [_ I2].
  apply Nat.eqb_eq in I1, I2. congruence.
Qed.


(* ---- the retry of a failed first fit ---- *)

Fixpoint retried (t : list event) : bool :=
  match t with
  | [] => true
  | EvFit (Some _) (Some _) :: rest =>
      match rest with
      | EvFit None _ :: _ => retried rest
      | _ => false
      end
  | _ :: rest => retried rest
  end.

Lemma retried_app t1 t2 : retried t1 = true -> retried t2 = true -> retried (t1 ++ t2) = true.
Proof.
  induction t1 as [|ev t1 IH]; intros H1 H2; [exact H2|].
  destruct ev as [| | |[h|] [e|]| |]; simpl in *; auto.
  destruct t1 as [|[| | |[h'|] e'| |] t1]; try discriminate; simpl in *; auto.
Qed.

Lemma fit_fold_retried kf X y clf n_jobs train_index :
  spec kf (fit_fold X y clf n_jobs train_index) (fun _ ext => retried ext = true).
Proof.
  intros s _. unfold fit_fold, try_except, bind, lift, call_fit, call.
  destruct (take X train_index) as [Xtr|e1]; [|exists []; simpl; rewrite app_nil_r;
                                                auto using attrs_eq_refl].
  destruct (take y train_index) as [ytr|e2]; [|exists []; simpl; rewrite app_nil_r;
                                                auto using attrs_eq_refl].
  cbn [env trace with_env].
  destruct (clf_fit clf Xtr ytr (Some n_jobs) (env s)) as [[clf1|e] w1].
  - exists [EvFit (Some n_jobs) None]. simpl. repeat split.
  - cbn [env trace with_env].
    destruct (clf_fit clf Xtr ytr None w1) as [r w2].
    exists [EvFit (Some n_jobs) (Some e); EvFit None (raised r)].
    cbn [fst snd trace with_env]. rewrite <- app_assoc. repeat split.
Qed.

Lemma predict_folds_retried kf X y n_jobs folds : forall clf preds,
  spec kf (predict_folds X y n_jobs clf folds preds) (fun _ ext => retried ext = true).
Proof.
  induction folds as [|[tr te] rest IH]; intros clf preds; cbn [predict_folds].
  - apply spec_ret. reflexivity.
  - eapply spec_bind; [apply fit_fold_retried | auto |]. intros clf1 ext1 H1.
    apply spec_bind_lift; [intros; rewrite app_nil_r; exact H1|]. intros Xte _.
    apply spec_bind_call; [intros; apply retried_app; [exact H1 | reflexivity]|]. intros out.
    apply spec_bind_lift; [intros; apply retried_app; [exact H1 | reflexivity]|]. intros p1 _.
    eapply spec_conseq; [apply IH|]. intros r ext2 H2.
    apply retried_app; [exact H1|]. exact H2.
Qed.

(** C6: for each fold, [fit] of the estimator is first called with the
    keyword [n_jobs]; when this call returns, its result is the result of
    the fold, and when it raises, whatever the exception, the fold's result
    is that of a second call without the keyword, made in the state the
    first call left.  In the trace of every run of
    [StratifiedKFoldTestPredictions] each failed call with the keyword is
    directly followed by a call without it, and the exception of the first
    call never reaches the caller. *)
Theorem first_fit_failure_is_retried X y clf n_jobs :
  (forall train_index s,
      let attempt :=
        Xtr <- lift (take X train_index) ;;
        ytr <- lift (take y train_index) ;;
        call_fit clf Xtr ytr (Some n_jobs) in
      let retry :=
        Xtr <- lift (take X train_index) ;;
        ytr <- lift (take y train_index) ;;
        call_fit clf Xtr ytr None in
      match attempt s with
      | (Ok clf1, s1) => fit_fold X y clf n_jobs train_index s = (Ok clf1, s1)
      | (Raise e, s1) => fit_fold X y clf n_jobs train_index s = retry s1
      end) /\
  (forall k s,
      exists ext,
        trace (snd (StratifiedKFoldTestPredictions X y clf k n_jobs s)) = trace s ++ ext /\
        retried ext = true).
Proof.
  split.
  - intros train_index s attempt retry. unfold fit_fold, try_except. fold attempt.
    destruct (attempt s) as [[clf1|e] s1]; reflexivity.
  - intros k s.
    assert (H : spec (k_fold_splits s) (StratifiedKFoldTestPredictions X y clf k n_jobs)
                     (fun _ ext => retried ext = true)).
    { unfold StratifiedKFoldTestPredictions, StratifiedKFold_split.
      apply spec_bind_call; [reflexivity|]. intros folds.
      eapply spec_conseq; [apply predict_folds_retried|]. intros r ext H. exact H. }
    destruct (H s eq_refl) as (ext & Ht & _ & Hr). eauto.
Qed.



(* ================================================================= *)
(** * Further properties of the search *)

(** ** Indices of the folds *)

(** Both index arrays of a pair stay below [n]. *)
Definition in_bounds (n : nat) (f : fold) : Prop :=
  Forall (fun i => i < n) (fst f) /\ Forall (fun i => i < n) (snd f).

Lemma take_in_bounds {A} (a : list A) idx :
  Forall (fun i => i < length a) idx -> exists xs, take a idx = Ok xs.
Proof.
  induction 1 as [|i idx Hi _ [xs IH]]; simpl; [eauto|].
  destruct (nth_error a i) as [x|] eqn:E.
  - rewrite IH. simpl. eauto.
  - apply nth_error_None in E. exfalso. exact (Nat.lt_irrefl _ (Nat.lt_le_trans _ _ _ Hi E)).
Qed.

Lemma filter_seq_bound (p : nat -> bool) n : Forall (fun i => i < n) (filter p (seq 0 n)).
Proof.
  apply Forall_forall. intros i Hi. apply filter_In in Hi as [Hi _].
  apply in_seq in Hi. apply Hi.
Qed.

Lemma split_indices_in_bounds k tf n : Forall (in_bounds n) (split_indices k tf n).
Proof.
  apply Forall_forall. intros f Hf. apply In_nth_error in Hf as [j Hj].
  apply split_indices_nth in Hj as [_ ->]. split; apply filter_seq_bound.
Qed.

Lemma split_indices_length k tf n : length (split_indices k tf n) = k.
Proof. unfold split_indices. rewrite length_map, length_seq. reflexivity. Qed.

Lemma skf_split_inv k shuffle seed X y F :
  skf_split k shuffle seed X y = Ok F ->
  length X = length y /\
  exists tf, _make_test_folds k shuffle seed y = Ok tf /\ F = split_indices k tf (length X).
Proof.
  unfold skf_split. destruct (Nat.eqb_spec (length X) (length y)) as [E|E]; [|discriminate].
  cbn [negb]. destruct (_make_test_folds k shuffle seed y) as [tf|e]; [|discriminate].
  cbn [rbind]. intros [= <-]. eauto.
Qed.

(** ** One candidate *)

(** The calls that [_eval] makes for one pair of the partition. *)
Definition fold_calls : list event := [EvFit None None; EvPredict None; EvScore None].

(** The trace of an evaluation of [p] that returns. *)
Definition eval_calls (p : params) (F : list fold) : list event :=
  EvConstruct None :: EvEval p F :: concat (map (fun _ => fold_calls) F).

(** [e] is raised by the constructor of the estimator, by its [fit]
    without keyword, by its [predict] or by the scoring function. *)
Definition raised_by_estimator (self : gridsearch) (e : exn) : Prop :=
  (exists p w, fst (method self p w) = Raise e) \/
  (exists c Xs ys w, fst (clf_fit c Xs ys None w) = Raise e) \/
  (exists c Xs w, fst (clf_predict c Xs w) = Raise e) \/
  (exists yt yp w, fst (scoring self yt yp w) = Raise e).

Definition duplicate_keyword : exn := TypeError "got multiple values for keyword argument".

Lemma bind_lift_Ok {A B} (a : A) (k : A -> M B) s : bind (lift (Ok a)) k s = k a s.
Proof. reflexivity. Qed.

Lemma bind_call_eq {A B} (f : world -> result A * world) ev (k : A -> M B) s :
  bind (call f ev) k s =
  match fst (f (env s)) with
  | Ok a => k a (with_env s (snd (f (env s))) (ev (Ok a)))
  | Raise e => (Raise e, with_env s (snd (f (env s))) (ev (Raise e)))
  end.
Proof. unfold bind, call. destruct (f (env s)) as [[a|e] w]; reflexivity. Qed.

Lemma eval_folds_run self X y folds : forall clf scores s,
  length X = length y ->
  Forall (in_bounds (length X)) folds ->
  match fst (eval_folds self X y clf folds scores s) with
  | Ok scores' =>
      length scores' = length scores + length folds /\
      trace (snd (eval_folds self X y clf folds scores s))
        = trace s ++ concat (map (fun _ => fold_calls) folds)
  | Raise e => raised_by_estimator self e
  end.
Proof.
  induction folds as [|[tr te] rest IH]; intros clf scores s Hl Hb.
  - simpl. rewrite app_nil_r, Nat.add_0_r. auto.
  - inversion Hb as [|? ? [Htr Hte] Hrest]; subst. cbn [fst snd] in Htr, Hte.
    destruct (take_in_bounds X tr Htr) as [Xtr EXtr].
    destruct (take_in_bounds X te Hte) as [Xte EXte].
    rewrite Hl in Htr, Hte.
    destruct (take_in_bounds y tr Htr) as [ytr Eytr].
    destruct (take_in_bounds y te Hte) as [yte Eyte].
    cbn [eval_folds]. rewrite EXtr, bind_lift_Ok, Eytr, bind_lift_Ok.
    unfold call_fit. rewrite bind_call_eq.
    destruct (fst (clf_fit clf Xtr ytr None (env s))) as [clf1|e] eqn:Ef.
    2:{ cbn [fst]. right; left. eauto. }
    rewrite Eyte, bind_lift_Ok, EXte, bind_lift_Ok.
    unfold call_predict. rewrite bind_call_eq. cbn [env with_env].
    destruct (fst (clf_predict clf1 Xte _)) as [out|e] eqn:Ep.
    2:{ cbn [fst]. right; right; left. eauto. }
    unfold call_scoring. rewrite bind_call_eq. cbn [env with_env].
    destruct (fst (scoring self yte out _)) as [sc|e] eqn:Es.
    2:{ cbn [fst]. right; right; right. eauto. }
    match goal with |- context [eval_folds self X y clf1 rest ?sc' ?s'] =>
      specialize (IH clf1 sc' s' Hl Hrest);
      destruct (fst (eval_folds self X y clf1 rest sc' s')) as [scores'|e]
    end; [|exact IH].
    destruct IH as [IH1 IH2]. split.
    + rewrite IH1, length_app. simpl. rewrite <- Nat.add_assoc. reflexivity.
    + rewrite IH2. cbn [trace with_env map concat fold_calls].
      rewrite <- !app_assoc. reflexivity.
Qed.

Lemma _eval_run self X y F p s :
  length X = length y ->
  Forall (in_bounds (length X)) F ->
  k_fold_splits s = Some F ->
  match _eval self X y p s with
  | (Ok rec, s') =>
      r_params rec = p /\ length (r_scores rec) = length F /\
      trace s' = trace s ++ eval_calls p F
  | (Raise e, _) =>
      raised_by_estimator self e \/
      (e = duplicate_keyword /\
       exists kw k, kwargs self = Some kw /\ In k (keys kw) /\ In k (keys p))
  end.
Proof.
  intros Hl Hb Hs.
  assert (Hrest : forall q,
    match bind (call_method self q)
               (fun clf =>
                  folds <- getattr k_fold_splits "k_fold_splits" ;;
                  log (EvEval p folds) ;;;
                  scores <- eval_folds self X y clf folds [] ;;
                  ret {| r_params := p; r_scores := scores; r_mean := np_mean scores |}) s
    with
    | (Ok rec, s') =>
        r_params rec = p /\ length (r_scores rec) = length F /\
        trace s' = trace s ++ eval_calls p F
    | (Raise e, _) =>
        raised_by_estimator self e \/
        (e = duplicate_keyword /\
         exists kw k, kwargs self = Some kw /\ In k (keys kw) /\ In k (keys p))
    end).
  { intros q. unfold call_method. rewrite bind_call_eq.
    destruct (fst (method self q (env s))) as [clf|e] eqn:Em.
    2:{ left; left. eauto. }
    unfold bind at 1. unfold getattr. cbn [k_fold_splits with_env]. rewrite Hs.
    unfold bind at 1. unfold log at 1. unfold bind at 1.
    match goal with |- context [eval_folds self X y clf F [] ?s'] =>
      pose proof (eval_folds_run self X y F clf [] s' Hl Hb) as Hrun;
      destruct (eval_folds self X y clf F [] s') as [[scores|e] s1]
    end; cbn [fst snd] in *.
    - destruct Hrun as [H1 H2]. unfold ret. cbn [r_params r_scores].
      split; [reflexivity|]. split; [exact H1|]. rewrite H2.
      cbn [trace with_env env]. unfold eval_calls. rewrite <- !app_assoc. reflexivity.
    - left. exact Hrun. }
  unfold _eval. destruct (kwargs self) as [kw|].
  - destruct (existsb _ (keys p)) eqn:Ex.
    + right. split; [reflexivity|].
      apply existsb_exists in Ex as (k & Hk & Ex).
      apply existsb_exists in Ex as (k' & Hk' & Ex).
      apply String.eqb_eq in Ex. subst k'. exists kw, k. auto.
    + apply Hrest.
  - apply Hrest.
Qed.

Lemma _eval_task self X y F p :
  length X = length y ->
  Forall (in_bounds (length X)) F ->
  spec (Some F) (_eval self X y p)
       (task_post F
          (fun a e => e = eval_calls p F /\ r_params a = p /\
                      length (r_scores a) = length F)
          (fun e => raised_by_estimator self e \/
                    (e = duplicate_keyword /\
                     exists kw k, kwargs self = Some kw /\ In k (keys kw) /\ In k (keys p)))).
Proof.
  intros Hl Hb s Hs.
  destruct (_eval_spec self X y F p s Hs) as (ext & Ht & Ha & [Hr _]).
  exists ext. split; [exact Ht|]. split; [exact Ha|]. split; [exact Hr|].
  pose proof (_eval_run self X y F p s Hl Hb Hs) as Hrun.
  destruct (_eval self X y p s) as [[rec|e] s']; cbn [fst snd] in *.
  - destruct Hrun as (H1 & H2 & H3). rewrite H3 in Ht.
    apply app_inv_head in Ht. subst ext. auto.
  - exact Hrun.
Qed.

(** ** A run of [fit] *)

Definition is_construct (ev : event) : bool :=
  match ev with EvConstruct _ => true | _ => false end.
Definition is_fit (ev : event) : bool :=
  match ev with EvFit _ _ => true | _ => false end.
Definition is_predict (ev : event) : bool :=
  match ev with EvPredict _ => true | _ => false end.
Definition is_score (ev : event) : bool :=
  match ev with EvScore _ => true | _ => false end.

(** Number of the calls of one kind in a trace. *)
Definition count_calls (kind : event -> bool) (t : list event) : nat :=
  length (filter kind t).

(** What the evaluation of candidate [i] leaves when it returns. *)
Definition evaluation (F : list fold) (grid : list params) (i : nat) (a : record)
           (e : list event) : Prop :=
  exists p, nth_error grid i = Some p /\ e = eval_calls p F /\ r_params a = p /\
            length (r_scores a) = length F.

(** The exceptions that the evaluation of a candidate raises. *)
Definition eval_raises (self : gridsearch) (e : exn) : Prop :=
  raised_by_estimator self e \/
  (e = duplicate_keyword /\
   exists kw k, kwargs self = Some kw /\ In k (keys kw) /\
                In k (map fst (grid_params self))).

Lemma product_keys items p : In p (product items) -> keys p = map fst items.
Proof.
  intros H. apply product_In in H. unfold keys.
  induction H as [|kv it p items [Hk _] _ IH]; [reflexivity|].
  simpl. rewrite Hk, IH. reflexivity.
Qed.

Lemma ParameterGrid_keys d p k :
  In p (ParameterGrid d) -> In k (keys p) -> In k (map fst d).
Proof.
  intros Hp Hk. rewrite (product_keys _ _ Hp) in Hk.
  apply (Permutation_in k (Permutation_map fst (sorted_items_perm d))). exact Hk.
Qed.

Lemma fit_run self X y sched s F :
  skf_split (cv self) true (Some (random_state self)) X y = Ok F ->
  exists r s2 ext,
    fit self X y sched s = fit_tail r s2 /\
    trace s2 = trace s ++ EvSplit (Ok F) :: ext /\
    attrs_eq (with_folds s F) s2 /\
    par_post F (evaluation F (ParameterGrid (grid_params self)))
             (fun _ => eval_raises self) (grid_size (grid_params self)) r ext.
Proof.
  intros Es.
  destruct (skf_split_inv _ _ _ _ _ _ Es) as (Hl & tf & _ & HF).
  assert (Hb : Forall (in_bounds (length X)) F)
    by (rewrite HF; apply split_indices_in_bounds).
  set (grid := ParameterGrid (grid_params self)).
  assert (Hpar : spec (Some F) (Parallel sched (map (_eval self X y) grid))
                      (par_post F (evaluation F grid) (fun _ => eval_raises self)
                                (length (map (_eval self X y) grid)))).
  { apply Parallel_spec. intros i t Hi. rewrite nth_error_map in Hi.
    destruct (nth_error grid i) as [p|] eqn:Ep; [|discriminate]. injection Hi as <-.
    eapply spec_conseq; [apply (_eval_task self X y F p Hl Hb)|].
    intros r ext [H1 H2]. split; [exact H1|]. destruct r as [a|e].
    - exists p. destruct H2 as (? & ? & ?). auto.
    - destruct H2 as [H2|(-> & kw & k & Hkw & Hk & Hp)]; [left; exact H2|].
      right. split; [reflexivity|]. exists kw, k. split; [exact Hkw|]. split; [exact Hk|].
      apply (ParameterGrid_keys _ p); [|exact Hp].
      eapply nth_error_In; eassumption. }
  rewrite length_map in Hpar. unfold grid in Hpar at 3. rewrite ParameterGrid_length in Hpar.
  destruct (Hpar (with_folds (after_split s (Ok F)) F) eq_refl) as (ext & Ht & Ha & Hp).
  rewrite fit_unfold, Es. fold grid.
  destruct (Parallel sched (map (_eval self X y) grid) (with_folds (after_split s (Ok F)) F))
    as [r s2] eqn:Ep.
  cbn [fst snd] in *. exists r, s2, ext. split; [reflexivity|].
  split; [|split; [destruct Ha as (A1 & A2 & A3 & A4 & A5); repeat split; assumption
                  | exact Hp]].
  rewrite Ht. cbn [with_folds after_split with_env trace]. rewrite <- app_assoc. reflexivity.
Qed.

Lemma count_calls_app kind t1 t2 :
  count_calls kind (t1 ++ t2) = count_calls kind t1 + count_calls kind t2.
Proof. unfold count_calls. rewrite filter_app, length_app. reflexivity. Qed.

Lemma count_fold_calls kind (F : list fold) :
  count_calls kind (concat (map (fun _ => fold_calls) F))
    = length F * count_calls kind fold_calls.
Proof.
  induction F as [|f F IH]; [reflexivity|].
  cbn [map concat length]. rewrite count_calls_app, IH. reflexivity.
Qed.

Lemma count_evaluations kind F grid (rs : list record) c order exts :
  (forall p, count_calls kind (eval_calls p F) = c) ->
  Forall2 (fun i e => exists a, nth_error rs i = Some a /\ evaluation F grid i a e)
          order exts ->
  count_calls kind (concat exts) = length order * c.
Proof.
  intros Hc. induction 1 as [|i e order exts (a & _ & p & _ & -> & _) _ IH]; [reflexivity|].
  cbn [concat length]. rewrite count_calls_app, IH, Hc. reflexivity.
Qed.

Lemma Parallel_nil {A} sched s : @Parallel A sched [] s = (Ok [], s).
Proof. reflexivity. Qed.


(** X2: in a run of [fit] that completes the estimator is built once for
    each candidate of the grid and, for each candidate, fitted once, asked
    to predict once and scored once on each of the [cv] folds: there are
    N constructions and N * cv calls of each of [fit], [predict] and the
    scoring function, and every record holds [cv] scores. *)
Theorem fit_call_counts self X y sched s :
  fst (fit self X y sched s) = Ok tt ->
  exists rs ext,
    scoring_results_ (snd (fit self X y sched s)) = Some rs /\
    Forall (fun r => length (r_scores r) = cv self) rs /\
    trace (snd (fit self X y sched s)) = trace s ++ ext /\
    count_calls is_construct ext = grid_size (grid_params self) /\
    count_calls is_fit ext = grid_size (grid_params self) * cv self /\
    count_calls is_predict ext = grid_size (grid_params self) * cv self /\
    count_calls is_score ext = grid_size (grid_params self) * cv self.
Proof.
  intros H.
  destruct (skf_split (cv self) true (Some (random_state self)) X y) as [F|e0] eqn:Es.
  2:{ rewrite fit_unfold, Es in H. discriminate H. }
  destruct (skf_split_inv _ _ _ _ _ _ Es) as (_ & tf & _ & HF).
  assert (HlF : length F = cv self) by (rewrite HF; apply split_indices_length).
  destruct (fit_run self X y sched s F Es) as (r & s2 & ext & Hf & Ht & _ & Hp).
  rewrite Hf in *. unfold fit_tail in *. destruct r as [rs|e1]; [|discriminate H].
  destruct (np_argmax (map r_mean rs)) as [idx|e1]; [|discriminate H].
  destruct (nth_error rs idx) as [rec|]; [|discriminate H].
  destruct Hp as (_ & Hl & order & exts & P & -> & F2).
  assert (Ho : length order = grid_size (grid_params self)).
  { rewrite (Permutation_length P). apply length_seq. }
  exists rs, (EvSplit (Ok F) :: concat exts). cbn [snd with_best scoring_results_ trace].
  split; [reflexivity|]. split; [|split; [exact Ht|]].
  - apply Forall_forall. intros a Ha. apply In_nth_error in Ha as [i Hi].
    assert (Hin : In i order).
    { apply (Permutation_in _ (Permutation_sym P)). apply in_seq.
      split; [apply Nat.le_0_l|]. simpl. rewrite <- Hl. apply nth_error_Some. congruence. }
    clear - F2 Hin Hi HlF. induction F2 as [|j e order exts Hj _ IH]; [destruct Hin|].
    destruct Hin as [->|Hin]; [|auto].
    destruct Hj as (a' & Ha' & p & _ & _ & _ & Hs). congruence.
  - repeat split.
    + change (count_calls is_construct (EvSplit (Ok F) :: concat exts))
        with (count_calls is_construct (concat exts)).
      rewrite (count_evaluations is_construct F (ParameterGrid (grid_params self)) rs 1 order exts); [|intros p|exact F2].
      * rewrite Ho. apply Nat.mul_1_r.
      * unfold eval_calls.
        change (count_calls is_construct (EvConstruct None :: EvEval p F :: ?t))
          with (S (count_calls is_construct t)).
        rewrite count_fold_calls. simpl. rewrite Nat.mul_0_r. reflexivity.
    + change (count_calls is_fit (EvSplit (Ok F) :: concat exts))
        with (count_calls is_fit (concat exts)).
      rewrite (count_evaluations is_fit F (ParameterGrid (grid_params self)) rs (cv self) order exts); [|intros p|exact F2].
      * rewrite Ho. reflexivity.
      * unfold eval_calls.
        change (count_calls is_fit (EvConstruct None :: EvEval p F :: ?t))
          with (count_calls is_fit t).
        rewrite count_fold_calls, HlF. simpl. apply Nat.mul_1_r.
    + change (count_calls is_predict (EvSplit (Ok F) :: concat exts))
        with (count_calls is_predict (concat exts)).
      rewrite (count_evaluations is_predict F (ParameterGrid (grid_params self)) rs (cv self) order exts); [|intros p|exact F2].
      * rewrite Ho. reflexivity.
      * unfold eval_calls.
        change (count_calls is_predict (EvConstruct None :: EvEval p F :: ?t))
          with (count_calls is_predict t).
        rewrite count_fold_calls, HlF. simpl. apply Nat.mul_1_r.
    + change (count_calls is_score (EvSplit (Ok F) :: concat exts))
        with (count_calls is_score (concat exts)).
      rewrite (count_evaluations is_score F (ParameterGrid (grid_params self)) rs (cv self) order exts); [|intros p|exact F2].
      * rewrite Ho. reflexivity.
      * unfold eval_calls.
        change (count_calls is_score (EvConstruct None :: EvEval p F :: ?t))
          with (count_calls is_score t).
        rewrite count_fold_calls, HlF. simpl. apply Nat.mul_1_r.
Qed.


Lemma _eval_duplicate self X y p kw k s :
  kwargs self = Some kw -> In k (keys kw) -> In k (keys p) ->
  _eval self X y p s = (Raise duplicate_keyword, s).
Proof.
  intros Hkw Hk Hp. unfold _eval. rewrite Hkw.
  assert (Ex : existsb (fun k0 => existsb (String.eqb k0) (keys kw)) (keys p) = true).
  { apply existsb_exists. exists k. split; [exact Hp|].
    apply existsb_exists. exists k. split; [exact Hk | apply String.eqb_refl]. }
  rewrite Ex. reflexivity.
Qed.

Lemma run_tasks_all_raise {A} e : forall fuel sched (pending : list (nat * M A)) slots s,
  fuel = length pending -> pending <> [] ->
  (forall i t, In (i, t) pending -> forall s', t s' = (Raise e, s')) ->
  run_tasks fuel sched pending slots s = (Raise e, s).
Proof.
  intros fuel sched pending slots s Hf Hne Hall.
  destruct fuel as [|fuel]; [destruct pending; [contradiction | discriminate]|].
  cbn [run_tasks].
  assert (Hk : hd 0 sched mod length pending < length pending).
  { apply Nat.mod_upper_bound. rewrite <- Hf. discriminate. }
  destruct (nth_error pending (hd 0 sched mod length pending)) as [[i t]|] eqn:Ek.
  - unfold bind. rewrite (Hall i t (nth_error_In _ _ Ek)). reflexivity.
  - apply nth_error_None in Ek. exfalso.
    exact (Nat.lt_irrefl _ (Nat.lt_le_trans _ _ _ Hk Ek)).
Qed.

Lemma Parallel_all_raise {A} e sched (tasks : list (M A)) s :
  tasks <> [] ->
  (forall t, In t tasks -> forall s', t s' = (Raise e, s')) ->
  Parallel sched tasks s = (Raise e, s).
Proof.
  intros Hne Hall. unfold Parallel, bind.
  rewrite (run_tasks_all_raise e); [reflexivity | | |].
  - rewrite length_combine, length_seq, Nat.min_id. reflexivity.
  - destruct tasks; [contradiction | discriminate].
  - intros i t Hin. apply Hall. eapply in_combine_r; eassumption.
Qed.


Lemma filter_partition {A} (p : A -> bool) (l : list A) :
  Permutation (filter (fun a => negb (p a)) l ++ filter p l) l.
Proof.
  induction l as [|a l IH]; [reflexivity|].
  simpl. destruct (p a); simpl.
  - apply Permutation_sym, Permutation_cons_app, Permutation_sym. exact IH.
  - constructor. exact IH.
Qed.

(** X5: the partition that [_train_test_split] returns has [cv] pairs; in
    each pair the train and test indices are disjoint and are, together, all
    the positions of [X]; and when the splitter of scikit-learn gives every
    sample one of the [cv] folds, every position is a test index of exactly
    one pair.  So no candidate is scored on a sample it was fitted on, and
    each is scored on every sample once. *)
Theorem train_test_split_partitions self X y s F :
  (forall tf, _make_test_folds (cv self) true (Some (random_state self)) y = Ok tf ->
              length tf = length y /\ Forall (fun f => f < cv self) tf) ->
  fst (_train_test_split self X y s) = Ok F ->
  length F = cv self /\
  (forall f, In f F ->
     Permutation (fst f ++ snd f) (seq 0 (length X)) /\
     forall i, In i (fst f) -> ~ In i (snd f)) /\
  (forall i, i < length X ->
     exists j f, nth_error F j = Some f /\ In i (snd f) /\
                 forall j' f', nth_error F j' = Some f' -> In i (snd f') -> j' = j).
Proof.
  intros Hmk H. unfold _train_test_split, StratifiedKFold_split, call in H.
  cbn [fst] in H.
  destruct (skf_split_inv _ _ _ _ _ _ H) as (Hl & tf & Etf & ->).
  destruct (Hmk tf Etf) as [Htl Htf].
  split; [apply split_indices_length|]. split.
  - intros f Hf. apply In_nth_error in Hf as [j Hj].
    apply split_indices_nth in Hj as [_ ->]. cbn [fst snd]. split.
    + apply filter_partition.
    + intros i Hi Hi'. apply filter_In in Hi as [_ Hi]. apply filter_In in Hi' as [_ Hi'].
      rewrite Hi' in Hi. discriminate Hi.
  - intros i Hi.
    assert (Hj : nth i tf (cv self) < cv self).
    { rewrite Forall_forall in Htf. apply Htf. apply nth_In. rewrite Htl, <- Hl. exact Hi. }
    destruct (nth_error (split_indices (cv self) tf (length X)) (nth i tf (cv self)))
      as [f|] eqn:Ef.
    2:{ apply nth_error_None in Ef. rewrite split_indices_length in Ef.
        exfalso. exact (Nat.lt_irrefl _ (Nat.lt_le_trans _ _ _ Hj Ef)). }
    exists (nth i tf (cv self)), f. split; [exact Ef|].
    pose proof (split_indices_nth _ _ _ _ _ Ef) as [_ ->]. cbn [snd]. split.
    + apply filter_In. split; [apply in_seq; split; [apply Nat.le_0_l | exact Hi]|].
      apply Nat.eqb_refl.
    + intros j' f' Hf' Hin. apply split_indices_nth in Hf' as [_ ->]. cbn [snd] in Hin.
      apply filter_In in Hin as [_ Hin]. apply Nat.eqb_eq in Hin. symmetry. exact Hin.
Qed.

(** ** [StratifiedKFoldTestPredictions] *)

Lemma put_in_bounds {A} idx : forall (a : list A) vals,
  Forall (fun i => i < length a) idx -> length vals = length idx ->
  exists a', put a idx vals = Ok a'.
Proof.
  induction idx as [|i idx IH]; intros a vals Hb Hl; simpl; [eauto|].
  destruct vals as [|v vals]; [discriminate Hl|].
  inversion Hb as [|? ? Hi Hrest]; subst.
  apply Nat.ltb_lt in Hi. rewrite Hi. apply IH.
  - rewrite set_nth_length. exact Hrest.
  - simpl in Hl. injection Hl as Hl. exact Hl.
Qed.

Lemma setitems_in_bounds {A} (a : list A) idx vals :
  Forall (fun i => i < length a) idx ->
  (exists a', setitems a idx vals = Ok a' /\ length a' = length a) \/
  setitems a idx vals = Raise (ValueError "shape mismatch").
Proof.
  intros Hb. unfold setitems.
  destruct (Nat.eqb_spec (length vals) (length idx)) as [E|E].
  - left. destruct (put_in_bounds idx a vals Hb E) as [a' Ha'].
    exists a'. split; [exact Ha' | exact (put_length _ _ _ _ Ha')].
  - destruct vals as [|v [|v' vals]]; [right; reflexivity | | right; reflexivity].
    left. destruct (put_in_bounds idx a (repeat v (length idx)) Hb (repeat_length _ _))
      as [a' Ha'].
    exists a'. split; [exact Ha' | exact (put_length _ _ _ _ Ha')].
Qed.

Lemma fit_fold_raises X y clf n_jobs tr s e s' :
  length X = length y ->
  Forall (fun i => i < length X) tr ->
  fit_fold X y clf n_jobs tr s = (Raise e, s') ->
  exists c Xs ys w, fst (clf_fit c Xs ys None w) = Raise e.
Proof.
  intros Hl Htr. destruct (take_in_bounds X tr Htr) as [Xtr EX].
  rewrite Hl in Htr. destruct (take_in_bounds y tr Htr) as [ytr Ey].
  unfold fit_fold, try_except. rewrite EX, !bind_lift_Ok, Ey, !bind_lift_Ok.
  unfold call_fit, call.
  destruct (clf_fit clf Xtr ytr (Some n_jobs) (env s)) as [[c1|e1] w1];
    cbv beta iota; [discriminate|].
  rewrite !bind_lift_Ok. cbn [env with_env].
  destruct (clf_fit clf Xtr ytr None w1) as [[c2|e2] w2] eqn:E2;
    cbv beta iota; [discriminate|].
  intros [= <- _]. exists clf, Xtr, ytr, w1. rewrite E2. reflexivity.
Qed.

Lemma predict_folds_raises X y n_jobs folds : forall clf preds s e,
  length X = length y ->
  length preds = length y ->
  Forall (in_bounds (length X)) folds ->
  fst (predict_folds X y n_jobs clf folds preds s) = Raise e ->
  (exists c Xs ys w, fst (clf_fit c Xs ys None w) = Raise e) \/
  (exists c Xs w, fst (clf_predict c Xs w) = Raise e) \/
  e = ValueError "shape mismatch".
Proof.
  induction folds as [|[tr te] rest IH]; intros clf preds s e Hl Hp Hb H; [discriminate H|].
  inversion Hb as [|? ? [Htr Hte] Hrest]; subst. cbn [fst snd] in Htr, Hte.
  cbn [predict_folds] in H. unfold bind at 1 in H.
  destruct (fit_fold X y clf n_jobs tr s) as [[clf1|e1] s1] eqn:Ef.
  2:{ cbn [fst] in H. injection H as ->. left.
      exact (fit_fold_raises _ _ _ _ _ _ _ _ Hl Htr Ef). }
  destruct (take_in_bounds X te Hte) as [Xte EX].
  rewrite EX, bind_lift_Ok in H. unfold call_predict in H. rewrite bind_call_eq in H.
  destruct (fst (clf_predict clf1 Xte (env s1))) as [out|e1] eqn:Ep.
  2:{ cbn [fst] in H. injection H as ->. right; left. eauto. }
  assert (Hte' : Forall (fun i => i < length preds) te) by (rewrite Hp, <- Hl; exact Hte).
  destruct (setitems_in_bounds preds te out Hte') as [(preds1 & E1 & L1)|E1];
    rewrite E1 in H.
  - rewrite bind_lift_Ok in H. apply IH in H; [exact H | exact Hl | | exact Hrest].
    rewrite L1. exact Hp.
  - cbn in H. injection H as <-. right; right. reflexivity.
Qed.


Definition with_keyword (ev : event) : bool :=
  match ev with EvFit (Some _) _ => true | _ => false end.
Definition without_keyword (ev : event) : bool :=
  match ev with EvFit None _ => true | _ => false end.
Definition refused (ev : event) : bool :=
  match ev with EvFit (Some _) (Some _) => true | _ => false end.

Lemma fit_fold_Ok X y clf n_jobs tr s clf1 s1 :
  fit_fold X y clf n_jobs tr s = (Ok clf1, s1) ->
  trace s1 = trace s ++ [EvFit (Some n_jobs) None] \/
  exists e, trace s1 = trace s ++ [EvFit (Some n_jobs) (Some e); EvFit None None].
Proof.
  unfold fit_fold, try_except.
  destruct (take X tr) as [Xtr|e1]; [|discriminate].
  destruct (take y tr) as [ytr|e2]; [|discriminate].
  rewrite !bind_lift_Ok. unfold call_fit, call.
  destruct (clf_fit clf Xtr ytr (Some n_jobs) (env s)) as [[c1|e1] w1]; cbv beta iota.
  - intros [= _ <-]. left. reflexivity.
  - rewrite !bind_lift_Ok. cbn [env with_env].
    destruct (clf_fit clf Xtr ytr None w1) as [[c2|e2] w2]; cbv beta iota; [|discriminate].
    intros [= _ <-]. right. exists e1. cbn [trace with_env raised].
    rewrite <- app_assoc. reflexivity.
Qed.

Lemma predict_folds_counts X y n_jobs folds : forall clf preds s preds' s',
  predict_folds X y n_jobs clf folds preds s = (Ok preds', s') ->
  exists ext,
    trace s' = trace s ++ ext /\
    count_calls is_predict ext = length folds /\
    count_calls with_keyword ext = length folds /\
    count_calls without_keyword ext = count_calls refused ext.
Proof.
  induction folds as [|[tr te] rest IH]; intros clf preds s preds' s' H.
  - injection H as _ <-. exists []. rewrite app_nil_r. auto.
  - cbn [predict_folds] in H.
    apply bind_Ok_inv in H as (clf1 & s1 & Hf & H).
    apply bind_Ok_inv in H as (Xte & s1' & Hx & H). apply lift_Ok_inv in Hx as [_ ->].
    apply bind_Ok_inv in H as (out & s2 & Hp & H).
    apply bind_Ok_inv in H as (preds1 & s2' & Hs & H). apply lift_Ok_inv in Hs as [_ ->].
    apply IH in H as (ext & Ht & C1 & C2 & C3).
    assert (Hp' : trace s2 = trace s1 ++ [EvPredict None]).
    { unfold call_predict, call in Hp.
      destruct (clf_predict clf1 Xte (env s1)) as [[o|e] w]; [|discriminate].
      injection Hp as _ <-. reflexivity. }
    apply fit_fold_Ok in Hf as [Hf|[e Hf]].
    + exists ([EvFit (Some n_jobs) None] ++ [EvPredict None] ++ ext).
      split; [rewrite Ht, Hp', Hf, <- !app_assoc; reflexivity|].
      rewrite !count_calls_app, C1, C2, C3. simpl. auto.
    + exists ([EvFit (Some n_jobs) (Some e); EvFit None None] ++ [EvPredict None] ++ ext).
      split; [rewrite Ht, Hp', Hf, <- !app_assoc; reflexivity|].
      rewrite !count_calls_app, C1, C2, C3. simpl. auto.
Qed.

(** X7: when [StratifiedKFoldTestPredictions] returns, it has called
    [predict] once for each of the [k] folds and [fit] with the keyword
    [n_jobs] once for each fold; the calls of [fit] without the keyword are
    as many as the calls with the keyword that raised.  An estimator whose
    [fit] does not take the keyword is thus fitted [k] times, after [k]
    refused calls. *)
Theorem skftp_call_counts X y clf k n_jobs s preds :
  fst (StratifiedKFoldTestPredictions X y clf k n_jobs s) = Ok preds ->
  exists F ext,
    trace (snd (StratifiedKFoldTestPredictions X y clf k n_jobs s))
      = trace s ++ EvSplit (Ok F) :: ext /\
    length F = k /\
    count_calls is_predict ext = k /\
    count_calls with_keyword ext = k /\
    count_calls without_keyword ext = count_calls refused ext.
Proof.
  unfold StratifiedKFoldTestPredictions, StratifiedKFold_split.
  rewrite bind_call_eq. cbn [fst snd].
  destruct (skf_split k false None X y) as [F|e0] eqn:Es; [|discriminate].
  destruct (skf_split_inv _ _ _ _ _ _ Es) as (_ & tf & _ & HF).
  assert (HlF : length F = k) by (rewrite HF; apply split_indices_length).
  intros H.
  destruct (predict_folds X y n_jobs clf F (np_empty_like y) _) as [[preds'|e] s'] eqn:Ep;
    [|discriminate H].
  apply predict_folds_counts in Ep as (ext & Ht & C1 & C2 & C3).
  exists F, ext. cbn [snd]. rewrite Ht. cbn [trace with_env].
  rewrite <- app_assoc, <- HlF. auto.
Qed.
End Estimation.

(* ================================================================= *)
(** * The Matthews coefficient lies in [-1, 1] *)

Section Matthews.
Local Open Scope Z_scope.

Lemma cauchy_step F G H f g h :
  0 <= G -> 0 <= H -> 0 <= g -> 0 <= h ->
  F * F <= G * H -> f * f <= g * h ->
  (F + f) * (F + f) <= (G + g) * (H + h).
Proof.
  intros HG HH Hg Hh HF Hf.
  assert (Hx : 2 * (F * f) <= G * h + g * H).
  { destruct (Z_le_gt_dec (2 * (F * f)) (G * h + g * H)) as [|Hgt]; [assumption|].
    exfalso.
    assert (Hp : 0 <= G * h) by (apply Z.mul_nonneg_nonneg; assumption).
    assert (Hq : 0 <= g * H) by (apply Z.mul_nonneg_nonneg; assumption).
    assert (H2 : (F * F) * (f * f) <= (G * H) * (g * h)).
    { apply Z.mul_le_mono_nonneg; try assumption; apply Z.square_nonneg. }
    replace ((G * H) * (g * h)) with ((G * h) * (g * H)) in H2 by ring.
    replace ((F * F) * (f * f)) with ((F * f) * (F * f)) in H2 by ring.
    remember (F * f) as x. remember (G * h) as p. remember (g * H) as q.
    assert (H1 : (p + q) * (p + q) < (2 * x) * (2 * x)).
    { apply Z.mul_lt_mono_nonneg; lia. }
    assert (H3 : 0 <= (p - q) * (p - q)) by apply Z.square_nonneg.
    lia. }
  lia.
Qed.

Lemma cauchy_sum {A} (f g h : A -> Z) (l : list A) :
  (forall a, In a l -> 0 <= g a /\ 0 <= h a /\ f a * f a <= g a * h a) ->
  0 <= sumZ (map g l) /\ 0 <= sumZ (map h l) /\
  sumZ (map f l) * sumZ (map f l) <= sumZ (map g l) * sumZ (map h l).
Proof.
  induction l as [|a l IH]; intros Hall; simpl.
  - lia.
  - destruct (Hall a (or_introl eq_refl)) as (Hg & Hh & Hf).
    destruct IH as (HG & HH & HF); [intros; apply Hall; now right|].
    repeat split; try lia.
    rewrite (Z.add_comm (f a)), (Z.add_comm (g a)), (Z.add_comm (h a)).
    apply cauchy_step; assumption.
Qed.

Definition ind (b : bool) : Z := if b then 1 else 0.

Lemma sumZ_app l1 l2 : sumZ (l1 ++ l2) = sumZ l1 + sumZ l2.
Proof. induction l1; simpl; lia. Qed.

Lemma sumZ_map_add {A} (f g : A -> Z) l :
  sumZ (map (fun a => f a + g a) l) = sumZ (map f l) + sumZ (map g l).
Proof. induction l; simpl; lia. Qed.

Lemma sumZ_map_sub {A} (f g : A -> Z) l :
  sumZ (map (fun a => f a - g a) l) = sumZ (map f l) - sumZ (map g l).
Proof. induction l; simpl; lia. Qed.

Lemma sumZ_map_scale {A} c (f : A -> Z) l :
  sumZ (map (fun a => c * f a) l) = c * sumZ (map f l).
Proof. induction l; simpl; lia. Qed.

Lemma sumZ_map_const {A} c (l : list A) :
  sumZ (map (fun _ => c) l) = Z.of_nat (length l) * c.
Proof. induction l; simpl length; simpl sumZ; [|rewrite Nat2Z.inj_succ]; lia. Qed.

Lemma sumZ_map_ext {A} (f g : A -> Z) l :
  (forall a, In a l -> f a = g a) -> sumZ (map f l) = sumZ (map g l).
Proof.
  induction l; simpl; intros H; [reflexivity|].
  rewrite (H a) by now left. rewrite IHl; [reflexivity|]. intros; apply H; now right.
Qed.

Lemma sumZ_list_prod {A B} (F : A * B -> Z) l1 l2 :
  sumZ (map F (list_prod l1 l2)) =
  sumZ (map (fun a => sumZ (map (fun b => F (a, b)) l2)) l1).
Proof.
  induction l1 as [|a l1 IH]; simpl; [reflexivity|].
  rewrite map_app, sumZ_app, map_map, IH. reflexivity.
Qed.

Lemma count_label_cons k y ys :
  count_label k (y :: ys) = ind (Z.eqb y k) + count_label k ys.
Proof.
  unfold count_label. simpl. destruct (Z.eq_dec y k) as [->|Hne].
  - rewrite Z.eqb_refl. simpl ind. lia.
  - apply Z.eqb_neq in Hne. rewrite Hne. simpl ind. lia.
Qed.

Lemma count_label_sum k ys :
  count_label k ys = sumZ (map (fun y => ind (Z.eqb y k)) ys).
Proof.
  induction ys as [|y ys IH]; [reflexivity|].
  rewrite count_label_cons, IH. reflexivity.
Qed.

Lemma count_label_nonneg k ys : 0 <= count_label k ys.
Proof. unfold count_label. lia. Qed.

Lemma count_label_le k ys : count_label k ys <= Z.of_nat (length ys).
Proof.
  unfold count_label. apply Nat2Z.inj_le. apply count_occ_bound.
Qed.

Lemma pick_class (K : list label) (v : label -> Z) x :
  NoDup K -> In x K -> sumZ (map (fun k => ind (Z.eqb x k) * v k) K) = v x.
Proof.
  induction K as [|k K IH]; intros Hnd Hin; [destruct Hin|].
  inversion Hnd as [|? ? Hk HK]; subst. simpl.
  destruct (Z.eqb_spec x k) as [->|Hne].
  - simpl ind. replace (sumZ _) with 0; [lia|].
    symmetry. rewrite (sumZ_map_ext _ (fun _ => 0)).
    + rewrite sumZ_map_const. lia.
    + intros a Ha. destruct (Z.eqb_spec k a) as [->|]; [contradiction|]. simpl; lia.
  - simpl ind. destruct Hin as [->|Hin]; [contradiction|]. rewrite IH by assumption. lia.
Qed.

Lemma dot_count (K : list label) (v : label -> Z) xs :
  NoDup K -> (forall x, In x xs -> In x K) ->
  dot K (fun k => count_label k xs) v = sumZ (map v xs).
Proof.
  intros Hnd. unfold dot. induction xs as [|x xs IH]; intros Hsub.
  - transitivity (sumZ (map (fun _ : label => 0) K)).
    + apply sumZ_map_ext. intros; unfold count_label; simpl; lia.
    + rewrite sumZ_map_const. simpl. lia.
  - transitivity (sumZ (map (fun k => ind (Z.eqb x k) * v k + count_label k xs * v k) K)).
    + apply sumZ_map_ext. intros k _. rewrite count_label_cons. ring.
    + rewrite sumZ_map_add.
      rewrite pick_class by (try assumption; apply Hsub; now left).
      rewrite IH by (intros; apply Hsub; now right). reflexivity.
Qed.

Lemma dot_comm K u v : dot K u v = dot K v u.
Proof. unfold dot. apply sumZ_map_ext. intros; ring. Qed.

Lemma classes_NoDup yt yp : NoDup (classes yt yp).
Proof. apply NoDup_nodup. Qed.

Lemma classes_true yt yp x : In x yt -> In x (classes yt yp).
Proof. intros. apply nodup_In, in_or_app. now left. Qed.

Lemma classes_pred yt yp x : In x yp -> In x (classes yt yp).
Proof. intros. apply nodup_In, in_or_app. now right. Qed.

Lemma n_correct_sum yt yp :
  n_correct yt yp = sumZ (map (fun p => ind (Z.eqb (fst p) (snd p))) (combine yt yp)).
Proof.
  revert yp; induction yt as [|t yt IH]; intros [|p yp]; simpl; try reflexivity.
  rewrite IH. reflexivity.
Qed.

Lemma map_fst_combine {A B} (l1 : list A) (l2 : list B) :
  length l1 = length l2 -> map fst (combine l1 l2) = l1.
Proof.
  revert l2; induction l1; intros [|b l2] H; simpl in *; try congruence.
  f_equal. apply IHl1. lia.
Qed.

Lemma map_snd_combine {A B} (l1 : list A) (l2 : list B) :
  length l1 = length l2 -> map snd (combine l1 l2) = l2.
Proof.
  revert l2; induction l1; intros [|b l2] H; simpl in *; try congruence.
  f_equal. apply IHl1. lia.
Qed.

(* pairwise terms *)
Definition pair_f (e : (label * label) * (label * label)) : Z :=
  let '((xi, yi), (xj, yj)) := e in
  ind (Z.eqb xi yi) + ind (Z.eqb xj yj) - ind (Z.eqb xi yj) - ind (Z.eqb xj yi).
Definition pair_g (e : (label * label) * (label * label)) : Z :=
  2 * (1 - ind (Z.eqb (fst (fst e)) (fst (snd e)))).
Definition pair_h (e : (label * label) * (label * label)) : Z :=
  2 * (1 - ind (Z.eqb (snd (fst e)) (snd (snd e)))).

Lemma pair_bound e :
  0 <= pair_g e /\ 0 <= pair_h e /\ pair_f e * pair_f e <= pair_g e * pair_h e.
Proof.
  destruct e as [[xi yi] [xj yj]]. unfold pair_f, pair_g, pair_h.
  simpl fst; simpl snd.
  destruct (Z.eqb_spec xi xj); destruct (Z.eqb_spec yi yj);
    destruct (Z.eqb_spec xj yj); destruct (Z.eqb_spec xi yi); destruct (Z.eqb_spec xi yj);
    destruct (Z.eqb_spec xj yi); simpl ind; lia.
Qed.

Lemma sum_over_fst {A B} (G : A -> Z) (l1 : list A) (l2 : list B) :
  length l1 = length l2 ->
  sumZ (map (fun p => G (fst p)) (combine l1 l2)) = sumZ (map G l1).
Proof.
  intros H. rewrite <- (map_fst_combine l1 l2 H) at 2. rewrite map_map. reflexivity.
Qed.

Lemma sum_over_snd {A B} (G : B -> Z) (l1 : list A) (l2 : list B) :
  length l1 = length l2 ->
  sumZ (map (fun p => G (snd p)) (combine l1 l2)) = sumZ (map G l2).
Proof.
  intros H. rewrite <- (map_snd_combine l1 l2 H) at 2. rewrite map_map. reflexivity.
Qed.

Section Pairs.
Variables yt yp : list label.
Hypothesis Hlen : length yt = length yp.
Let ps := combine yt yp.
Let n := Z.of_nat (length yp).
Let K := classes yt yp.

Lemma length_ps : Z.of_nat (length ps) = n.
Proof. unfold ps, n. rewrite length_combine, Hlen, Nat.min_id. reflexivity. Qed.

Lemma sum_pair_g :
  sumZ (map pair_g (list_prod ps ps)) = 2 * cov_yy K yt n.
Proof.
  rewrite sumZ_list_prod. unfold cov_yy.
  rewrite (sumZ_map_ext _ (fun a => 2 * (n - count_label (fst a) yt))).
  - rewrite sumZ_map_scale, sumZ_map_sub, sumZ_map_const, length_ps.
    unfold ps. rewrite (sum_over_fst (fun x => count_label x yt)) by assumption.
    rewrite dot_count; [ring| apply classes_NoDup | apply classes_true].
  - intros [xi yi] _. simpl fst.
    rewrite (sumZ_map_ext _ (fun b => 2 * (1 - ind (Z.eqb (fst b) xi)))).
    + rewrite sumZ_map_scale, sumZ_map_sub, sumZ_map_const, length_ps.
      unfold ps. rewrite (sum_over_fst (fun x => ind (Z.eqb x xi))) by assumption.
      rewrite <- count_label_sum. ring.
    + intros [xj yj] _. simpl. rewrite Z.eqb_sym. reflexivity.
Qed.

Lemma sum_pair_h :
  sumZ (map pair_h (list_prod ps ps)) = 2 * cov_yy K yp n.
Proof.
  rewrite sumZ_list_prod. unfold cov_yy.
  rewrite (sumZ_map_ext _ (fun a => 2 * (n - count_label (snd a) yp))).
  - rewrite sumZ_map_scale, sumZ_map_sub, sumZ_map_const, length_ps.
    unfold ps. rewrite (sum_over_snd (fun x => count_label x yp)) by assumption.
    rewrite dot_count; [ring| apply classes_NoDup | apply classes_pred].
  - intros [xi yi] _. simpl snd.
    rewrite (sumZ_map_ext _ (fun b => 2 * (1 - ind (Z.eqb (snd b) yi)))).
    + rewrite sumZ_map_scale, sumZ_map_sub, sumZ_map_const, length_ps.
      unfold ps. rewrite (sum_over_snd (fun x => ind (Z.eqb x yi))) by assumption.
      rewrite <- count_label_sum. ring.
    + intros [xj yj] _. simpl. rewrite Z.eqb_sym. reflexivity.
Qed.

Lemma sum_pair_f :
  sumZ (map pair_f (list_prod ps ps)) = 2 * cov_ytyp yt yp.
Proof.
  rewrite sumZ_list_prod. unfold cov_ytyp. fold K. fold n.
  rewrite (sumZ_map_ext _
    (fun a => n * ind (Z.eqb (fst a) (snd a)) + n_correct yt yp
              - count_label (fst a) yp - count_label (snd a) yt)).
  - rewrite !sumZ_map_sub, sumZ_map_add, sumZ_map_scale, sumZ_map_const, length_ps.
    unfold ps. rewrite <- n_correct_sum.
    rewrite (sum_over_fst (fun x => count_label x yp)) by assumption.
    rewrite (sum_over_snd (fun x => count_label x yt)) by assumption.
    rewrite <- (dot_count K (fun k => count_label k yp) yt)
      by (apply classes_NoDup || apply classes_true).
    rewrite <- (dot_count K (fun k => count_label k yt) yp)
      by (apply classes_NoDup || apply classes_pred).
    rewrite (dot_comm K (fun k => count_label k yp)). ring.
  - intros [xi yi] _. simpl fst; simpl snd.
    rewrite (sumZ_map_ext _
      (fun b => ind (Z.eqb xi yi) + ind (Z.eqb (fst b) (snd b))
                - ind (Z.eqb (snd b) xi) - ind (Z.eqb (fst b) yi))).
    + rewrite !sumZ_map_sub, sumZ_map_add, sumZ_map_const, length_ps.
      unfold ps. rewrite <- n_correct_sum.
      rewrite (sum_over_snd (fun y => ind (Z.eqb y xi))) by assumption.
      rewrite (sum_over_fst (fun x => ind (Z.eqb x yi))) by assumption.
      rewrite <- !count_label_sum. ring.
    + intros [xj yj] _. simpl. rewrite (Z.eqb_sym xi yj). reflexivity.
Qed.

Lemma cov_cauchy_schwarz :
  0 <= cov_yy K yt n /\ 0 <= cov_yy K yp n /\
  cov_ytyp yt yp * cov_ytyp yt yp <= cov_yy K yt n * cov_yy K yp n.
Proof.
  destruct (cauchy_sum pair_f pair_g pair_h (list_prod ps ps)) as (Hg & Hh & Hf).
  { intros e _. apply pair_bound. }
  rewrite sum_pair_f in Hf. rewrite sum_pair_g in Hg, Hf. rewrite sum_pair_h in Hh, Hf.
  repeat split; lia.
Qed.
End Pairs.

Lemma sumZ_nonneg_ge {A} (g : A -> Z) l a :
  (forall x, In x l -> 0 <= g x) -> In a l -> g a <= sumZ (map g l).
Proof.
  induction l as [|x l IH]; intros Hpos Hin; [destruct Hin|].
  simpl. assert (0 <= sumZ (map g l)).
  { clear IH Hin. induction l as [|z l IHl]; simpl; [lia|].
    assert (0 <= g z) by (apply Hpos; right; now left).
    assert (0 <= sumZ (map g l)); [|lia].
    apply IHl. intros y [->|Hy]; apply Hpos; [now left | right; now right]. }
  destruct Hin as [->|Hin].
  - lia.
  - assert (0 <= g x) by (apply Hpos; now left).
    specialize (IH (fun y Hy => Hpos y (or_intror Hy)) Hin). lia.
Qed.

Lemma in_combine_diag {A} (a : A) l : In a l -> In (a, a) (combine l l).
Proof. induction l as [|x l IH]; simpl; [intros [] | intros [->|H]; auto]. Qed.

Lemma n_correct_diag y : n_correct y y = Z.of_nat (length y).
Proof.
  induction y as [|a y IH]; [reflexivity|].
  simpl n_correct. rewrite Z.eqb_refl, IH. simpl length. lia.
Qed.

Lemma cov_ytyp_diag y :
  cov_ytyp y y = cov_yy (classes y y) y (Z.of_nat (length y)).
Proof. unfold cov_ytyp, cov_yy. rewrite n_correct_diag. reflexivity. Qed.

Lemma cov_yy_pos y a b :
  In a y -> In b y -> a <> b -> 0 < cov_yy (classes y y) y (Z.of_nat (length y)).
Proof.
  intros Ha Hb Hab.
  pose proof (sum_pair_g y y eq_refl) as Hs.
  assert (Hin : In ((a, a), (b, b)) (list_prod (combine y y) (combine y y))).
  { apply in_prod; apply in_combine_diag; assumption. }
  pose proof (sumZ_nonneg_ge pair_g _ _ (fun e _ => proj1 (pair_bound e)) Hin) as Hge.
  unfold pair_g at 1 in Hge. simpl in Hge.
  apply Z.eqb_neq in Hab. rewrite Hab in Hge. simpl in Hge. lia.
Qed.

Local Open Scope R_scope.

Lemma ratio_bound (a b c : Z) :
  (0 <= b)%Z -> (0 <= c)%Z -> (a * a <= b * c)%Z -> (b * c <> 0)%Z ->
  -1 <= IZR a / R_sqrt.sqrt (IZR (b * c)) <= 1.
Proof.
  intros Hb Hc Habc Hnz.
  assert (Hpos : 0 < IZR (b * c)) by (apply IZR_lt; nia).
  assert (Hs : 0 < R_sqrt.sqrt (IZR (b * c))) by (apply sqrt_lt_R0; assumption).
  assert (Habs : Rabs (IZR a) <= R_sqrt.sqrt (IZR (b * c))).
  { rewrite <- sqrt_Rsqr_abs. apply sqrt_le_1_alt.
    unfold Rsqr. rewrite <- mult_IZR. apply IZR_le. assumption. }
  assert (Hhi : IZR a <= R_sqrt.sqrt (IZR (b * c))).
  { eapply Rle_trans; [apply Rle_abs | exact Habs]. }
  assert (Hlo : - R_sqrt.sqrt (IZR (b * c)) <= IZR a).
  { pose proof (Rle_abs (- IZR a)) as Hn. rewrite Rabs_Ropp in Hn. Lra.lra. }
  split.
  - apply Rmult_le_reg_r with (R_sqrt.sqrt (IZR (b * c))); [assumption|].
    unfold Rdiv. rewrite Rmult_assoc, Rinv_l by Lra.lra. Lra.lra.
  - apply Rmult_le_reg_r with (R_sqrt.sqrt (IZR (b * c))); [assumption|].
    unfold Rdiv. rewrite Rmult_assoc, Rinv_l by Lra.lra. Lra.lra.
Qed.

Lemma ratio_one (v : Z) : (0 < v)%Z -> IZR v / R_sqrt.sqrt (IZR (v * v)) = 1.
Proof.
  intros Hv. rewrite mult_IZR, sqrt_square by (apply IZR_le; lia).
  apply Rinv_r. apply not_0_IZR. lia.
Qed.

(** C8: [scaled_mcc] is [(matthews_corrcoef y_true y_pred + 1) / 2]; for
    label vectors of one length its value exists and lies between 0 and 1;
    and when the predictions are the truth and two classes at least are
    present its value is 1.  Arithmetic is that of the reals. *)
Theorem scaled_mcc_range :
  (forall y_true y_pred,
      scaled_mcc y_true y_pred =
      match matthews_corrcoef y_true y_pred with
      | Ok m => Ok ((m + 1) / 2)
      | Raise e => Raise e
      end) /\
  (forall y_true y_pred,
      length y_true = length y_pred ->
      exists s, scaled_mcc y_true y_pred = Ok s /\ 0 <= s <= 1) /\
  (forall y a b,
      In a y -> In b y -> a <> b -> scaled_mcc y y = Ok 1).
Proof.
  split; [reflexivity|]. split.
  - intros yt yp Hlen. unfold scaled_mcc, matthews_corrcoef.
    rewrite Hlen, Nat.eqb_refl. simpl negb. cbv iota.
    destruct (cov_cauchy_schwarz yt yp Hlen) as (Ht & Hp & Hcs).
    destruct (Z.eqb_spec
                (cov_yy (classes yt yp) yp (Z.of_nat (length yp)) *
                 cov_yy (classes yt yp) yt (Z.of_nat (length yp))) 0) as [Hz|Hnz].
    + eexists; split; [reflexivity|]. Lra.lra.
    + eexists; split; [reflexivity|].
      pose proof (ratio_bound _ _ _ Ht Hp Hcs) as Hr.
      rewrite Z.mul_comm in Hnz. specialize (Hr Hnz). Lra.lra.
  - intros y a b Ha Hb Hab. unfold scaled_mcc, matthews_corrcoef.
    rewrite Nat.eqb_refl. simpl negb. cbv iota.
    pose proof (cov_yy_pos y a b Ha Hb Hab) as Hpos.
    rewrite cov_ytyp_diag.
    destruct (Z.eqb_spec
                (cov_yy (classes y y) y (Z.of_nat (length y)) *
                 cov_yy (classes y y) y (Z.of_nat (length y))) 0) as [Hz|Hnz].
    + exfalso. nia.
    + rewrite ratio_one by assumption. unfold rbind. f_equal. Lra.lra.
Qed.

(** ** Further properties of [scaled_mcc] *)

Lemma cov_yy_sum K ys n :
  NoDup K -> (forall x, In x ys -> In x K) ->
  cov_yy K ys n = (n * n - sumZ (map (fun x => count_label x ys) ys))%Z.
Proof. intros Hnd Hin. unfold cov_yy. rewrite dot_count by assumption. reflexivity. Qed.

Lemma cov_ytyp_sum yt yp :
  cov_ytyp yt yp
  = (n_correct yt yp * Z.of_nat (length yp)
     - sumZ (map (fun x => count_label x yp) yt))%Z.
Proof.
  unfold cov_ytyp. rewrite dot_count; [reflexivity | apply classes_NoDup | apply classes_true].
Qed.

Lemma n_correct_sym yt : forall yp, n_correct yt yp = n_correct yp yt.
Proof.
  induction yt as [|t yt IH]; intros [|p yp]; simpl; try reflexivity.
  rewrite IH, Z.eqb_sym. reflexivity.
Qed.

Lemma cross_count_sym yt yp :
  sumZ (map (fun x => count_label x yp) yt) = sumZ (map (fun x => count_label x yt) yp).
Proof.
  rewrite <- (dot_count (classes yt yp) (fun k => count_label k yp) yt)
    by (apply classes_NoDup || apply classes_true).
  rewrite <- (dot_count (classes yt yp) (fun k => count_label k yt) yp)
    by (apply classes_NoDup || apply classes_pred).
  apply dot_comm.
Qed.

(** X8: the score does not tell the truth from the predictions:
    [scaled_mcc] gives the same result, or raises the same exception, when
    its two arguments are exchanged. *)
Theorem scaled_mcc_symmetric y_true y_pred :
  scaled_mcc y_true y_pred = scaled_mcc y_pred y_true.
Proof.
  unfold scaled_mcc, matthews_corrcoef. rewrite (Nat.eqb_sym (length y_pred)).
  destruct (Nat.eqb_spec (length y_true) (length y_pred)) as [Hl|Hl]; [|reflexivity].
  cbn [negb]. rewrite !cov_ytyp_sum.
  rewrite !(cov_yy_sum (classes y_true y_pred))
    by (apply classes_NoDup || apply classes_true || apply classes_pred).
  rewrite !(cov_yy_sum (classes y_pred y_true))
    by (apply classes_NoDup || apply classes_true || apply classes_pred).
  rewrite (n_correct_sym y_pred y_true), (cross_count_sym y_pred y_true), Hl.
  set (At := (Z.of_nat (length y_pred) * Z.of_nat (length y_pred)
              - sumZ (map (fun x => count_label x y_true) y_true))%Z).
  set (Ap := (Z.of_nat (length y_pred) * Z.of_nat (length y_pred)
              - sumZ (map (fun x => count_label x y_pred) y_pred))%Z).
  rewrite (Z.mul_comm Ap At). reflexivity.
Qed.

Lemma count_label_all c ys :
  (forall x, In x ys -> x = c) -> count_label c ys = Z.of_nat (length ys).
Proof.
  induction ys as [|y ys IH]; intros H; [reflexivity|].
  rewrite count_label_cons, IH by (intros; apply H; now right).
  rewrite (H y) by now left. rewrite Z.eqb_refl. simpl ind. simpl length. lia.
Qed.

Lemma cov_yy_single K ys c :
  NoDup K -> (forall x, In x ys -> In x K) -> (forall x, In x ys -> x = c) ->
  cov_yy K ys (Z.of_nat (length ys)) = 0%Z.
Proof.
  intros Hnd Hin Hc. rewrite cov_yy_sum by assumption.
  rewrite (sumZ_map_ext _ (fun _ => Z.of_nat (length ys))).
  - rewrite sumZ_map_const. ring.
  - intros a Ha. rewrite (Hc a Ha). apply count_label_all. exact Hc.
Qed.

(** X9: for label vectors of one length, when all the predictions are of
    one class, or all the true labels are, the score is 1/2 whatever the
    other vector holds: the branch of [matthews_corrcoef] for a zero
    denominator returns 0. *)
Theorem scaled_mcc_single_class y_true y_pred c :
  length y_true = length y_pred ->
  (forall x, In x y_pred -> x = c) \/ (forall x, In x y_true -> x = c) ->
  scaled_mcc y_true y_pred = Ok (1 / 2).
Proof.
  intros Hl Hc. unfold scaled_mcc, matthews_corrcoef.
  rewrite Hl, Nat.eqb_refl. cbn [negb].
  assert (Hz : (cov_yy (classes y_true y_pred) y_pred (Z.of_nat (length y_pred)) *
                cov_yy (classes y_true y_pred) y_true (Z.of_nat (length y_pred)) = 0)%Z).
  { destruct Hc as [Hc|Hc].
    - rewrite (cov_yy_single _ y_pred c);
        [ring | apply classes_NoDup | apply classes_pred | exact Hc].
    - rewrite <- Hl. rewrite (cov_yy_single _ y_true c);
        [ring | apply classes_NoDup | apply classes_true | exact Hc]. }
  rewrite Hz. cbn [Z.eqb rbind]. f_equal. Lra.lra.
Qed.

Lemma sum_two_valued (g : label -> Z) a b ys :
  a <> b -> (forall x, In x ys -> x = a \/ x = b) ->
  sumZ (map g ys) = (count_label a ys * g a + count_label b ys * g b)%Z.
Proof.
  intros Hab. induction ys as [|y ys IH]; intros H; [reflexivity|].
  cbn [map sumZ fold_right]. fold (sumZ (map g ys)).
  rewrite IH by (intros; apply H; now right). rewrite !count_label_cons.
  destruct (H y (or_introl eq_refl)) as [->| ->].
  - rewrite Z.eqb_refl. apply Z.eqb_neq in Hab. rewrite Hab. simpl ind. ring.
  - rewrite Z.eqb_refl. assert (Hba : (b =? a)%Z = false) by (apply Z.eqb_neq; congruence).
    rewrite Hba. simpl ind. ring.
Qed.

Lemma length_two_valued a b ys :
  a <> b -> (forall x, In x ys -> x = a \/ x = b) ->
  Z.of_nat (length ys) = (count_label a ys + count_label b ys)%Z.
Proof.
  intros Hab H. rewrite <- (Z.mul_1_r (count_label a ys)), <- (Z.mul_1_r (count_label b ys)).
  rewrite <- (sum_two_valued (fun _ => 1%Z) a b ys Hab H), sumZ_map_const. ring.
Qed.

Lemma count_label_pos a ys : In a ys -> (0 < count_label a ys)%Z.
Proof.
  intros H. unfold count_label.
  apply (count_occ_In Z.eq_dec) in H. lia.
Qed.

Lemma ratio_minus_one (v : Z) : (0 < v)%Z -> IZR (- v) / R_sqrt.sqrt (IZR (v * v)) = -1.
Proof.
  intros Hv. rewrite opp_IZR. unfold Rdiv. rewrite <- Ropp_mult_distr_l.
  fold (IZR v / R_sqrt.sqrt (IZR (v * v))). rewrite ratio_one by assumption. reflexivity.
Qed.

(** X10: with two classes, both present, predictions that are wrong on
    every sample get the score 0: the lower end of the range of
    [scaled_mcc] is reached, as the upper end is by the truth itself. *)
Theorem scaled_mcc_inverted y a b :
  a <> b -> In a y -> In b y -> (forall x, In x y -> x = a \/ x = b) ->
  scaled_mcc y (map (fun x => if (x =? a)%Z then b else a) y) = Ok 0.
Proof.
  intros Hab Ha Hb Hy.
  set (f := fun x => if (x =? a)%Z then b else a).
  assert (Hba : (b =? a)%Z = false) by (apply Z.eqb_neq; congruence).
  assert (Hab' : (a =? b)%Z = false) by (apply Z.eqb_neq; exact Hab).
  assert (Hnc : n_correct y (map f y) = 0%Z).
  { clear Ha Hb. induction y as [|x y IH]; [reflexivity|]. cbn [map n_correct].
    rewrite IH by (intros; apply Hy; now right). unfold f.
    destruct (Hy x (or_introl eq_refl)) as [->| ->].
    - repeat (rewrite Z.eqb_refl || rewrite Hba || rewrite Hab'). reflexivity.
    - repeat (rewrite Z.eqb_refl || rewrite Hba || rewrite Hab'). reflexivity. }
  assert (Hca : count_label a (map f y) = count_label b y).
  { clear Ha Hb Hnc. induction y as [|x y IH]; [reflexivity|]. cbn [map].
    rewrite !count_label_cons, IH by (intros; apply Hy; now right). unfold f.
    destruct (Hy x (or_introl eq_refl)) as [->| ->].
    - repeat (rewrite Z.eqb_refl || rewrite Hba || rewrite Hab'). reflexivity.
    - repeat (rewrite Z.eqb_refl || rewrite Hba || rewrite Hab'). reflexivity. }
  assert (Hcb : count_label b (map f y) = count_label a y).
  { clear Ha Hb Hnc Hca. induction y as [|x y IH]; [reflexivity|]. cbn [map].
    rewrite !count_label_cons, IH by (intros; apply Hy; now right). unfold f.
    destruct (Hy x (or_introl eq_refl)) as [->| ->].
    - repeat (rewrite Z.eqb_refl || rewrite Hba || rewrite Hab'). reflexivity.
    - repeat (rewrite Z.eqb_refl || rewrite Hba || rewrite Hab'). reflexivity. }
  assert (Hp : forall x, In x (map f y) -> x = a \/ x = b).
  { intros x Hx. apply in_map_iff in Hx as (z & <- & _). unfold f.
    destruct (z =? a)%Z; auto. }
  pose proof (length_two_valued a b y Hab Hy) as Hn.
  pose proof (count_label_pos a y Ha) as Pa.
  pose proof (count_label_pos b y Hb) as Pb.
  set (v := (2 * (count_label a y * count_label b y))%Z).
  assert (Hv : (0 < v)%Z) by (unfold v; nia).
  assert (Etp : cov_ytyp y (map f y) = (- v)%Z).
  { rewrite cov_ytyp_sum, Hnc, (sum_two_valued _ a b y Hab Hy), Hca, Hcb.
    unfold v. ring. }
  assert (Ett : cov_yy (classes y (map f y)) y (Z.of_nat (length (map f y))) = v).
  { rewrite cov_yy_sum by (apply classes_NoDup || apply classes_true).
    rewrite length_map, (sum_two_valued _ a b y Hab Hy), Hn. unfold v. ring. }
  assert (Epp : cov_yy (classes y (map f y)) (map f y) (Z.of_nat (length (map f y))) = v).
  { rewrite cov_yy_sum by (apply classes_NoDup || apply classes_pred).
    rewrite (sum_two_valued _ a b (map f y) Hab Hp), Hca, Hcb.
    rewrite length_map, Hn. unfold v. ring. }
  unfold scaled_mcc, matthews_corrcoef. fold f.
  rewrite length_map, Nat.eqb_refl. cbn [negb].
  rewrite length_map in Ett, Epp. rewrite Etp, Ett, Epp.
  destruct (Z.eqb_spec (v * v) 0) as [Hz|Hnz]; [exfalso; nia|].
  rewrite ratio_minus_one by exact Hv. cbn [rbind]. f_equal. Lra.lra.
Qed.
End Matthews.

(* ================================================================= *)
(** * The confusion matrix *)

Section ConfusionMatrix.
Local Open Scope string_scope.
Local Open Scope Q_scope.
Local Open Scope list_scope.

(* ---------------- np_unique ---------------- *)

Lemma insert_unique_In x l z : In z (insert_unique x l) <-> z = x \/ In z l.
Proof.
  induction l as [|y l IH]; simpl.
  - intuition.
  - destruct (Z.ltb_spec x y); [simpl; intuition|].
    destruct (Z.eqb_spec x y) as [->|Hne]; simpl; [intuition|].
    rewrite IH. intuition.
Qed.

Lemma insert_unique_sorted x l :
  StronglySorted Z.lt l -> StronglySorted Z.lt (insert_unique x l).
Proof.
  induction 1 as [|y l Hs IH Hall]; simpl.
  - repeat constructor.
  - destruct (Z.ltb_spec x y) as [Hlt|Hge].
    + constructor; [constructor; assumption|].
      constructor; [assumption|].
      eapply Forall_impl; [|exact Hall]. intros; lia.
    + destruct (Z.eqb_spec x y) as [->|Hne]; [constructor; assumption|].
      constructor; [assumption|].
      apply Forall_forall. intros z Hz. apply insert_unique_In in Hz.
      destruct Hz as [->|Hz]; [lia|]. rewrite Forall_forall in Hall. auto.
Qed.

Lemma np_unique_In l z : In z (np_unique l) <-> In z l.
Proof.
  induction l as [|x l IH]; simpl; [tauto|].
  rewrite insert_unique_In, IH. intuition.
Qed.

Lemma np_unique_sorted l : StronglySorted Z.lt (np_unique l).
Proof.
  induction l; simpl; [constructor | now apply insert_unique_sorted].
Qed.

Lemma sorted_NoDup l : StronglySorted Z.lt l -> NoDup l.
Proof.
  induction 1 as [|y l Hs IH Hall]; constructor; [|assumption].
  intros Hin. rewrite Forall_forall in Hall. specialize (Hall _ Hin). lia.
Qed.

Lemma np_unique_NoDup l : NoDup (np_unique l).
Proof. apply sorted_NoDup, np_unique_sorted. Qed.

Lemma np_unique_two l a b :
  np_unique l = [a; b] -> a <> b /\ forall x, In x l <-> x = a \/ x = b.
Proof.
  intros H. split.
  - pose proof (np_unique_NoDup l) as Hnd. rewrite H in Hnd.
    inversion Hnd as [|? ? Hna _]; subst. intros ->. apply Hna. now left.
  - intros x. rewrite <- np_unique_In, H. simpl. intuition.
Qed.

Lemma two_valued_unique l : two_valued l <-> length (np_unique l) = 2%nat.
Proof.
  split.
  - intros (a & b & Hab & Hin).
    assert (H1 : incl (np_unique l) [a; b]).
    { intros x Hx. apply np_unique_In, Hin in Hx. simpl. intuition. }
    assert (H2 : incl [a; b] (np_unique l)).
    { intros x [<-|[<-|[]]]; apply np_unique_In, Hin; auto. }
    apply Nat.le_antisymm.
    + apply (NoDup_incl_length (np_unique_NoDup l) H1).
    + assert (Hnd : NoDup [a; b]).
      { constructor; [simpl; intuition | constructor; [simpl; tauto | constructor]]. }
      apply (NoDup_incl_length Hnd H2).
  - intros Hlen. destruct (np_unique l) as [|a [|b [|c r]]] eqn:E; simpl in Hlen; try discriminate.
    exists a, b. now apply np_unique_two.
Qed.

(* ---------------- counting ---------------- *)

Ltac eqb_cases :=
  repeat match goal with
         | |- context [Z.eqb ?a ?b] => destruct (Z.eqb_spec a b)
         end;
  cbn [andb]; lia.

Lemma count_if_cons {A} (p : A -> bool) a l :
  count_if p (a :: l) = ((if p a then 1 else 0) + count_if p l)%Z.
Proof. unfold count_if. simpl. destruct (p a); simpl length; lia. Qed.

Lemma count_if_nonneg {A} (p : A -> bool) l : (0 <= count_if p l)%Z.
Proof. unfold count_if. lia. Qed.

Lemma count_row_split r c0 c1 (pairs : list (label * label)) :
  c0 <> c1 -> (forall p, In p pairs -> snd p = c0 \/ snd p = c1) ->
  count_if (fun p => (fst p =? r)%Z) pairs =
  (count_if (pair_is r c0) pairs + count_if (pair_is r c1) pairs)%Z.
Proof.
  intros Hne. induction pairs as [|[x y] l IH]; intros Hall; [reflexivity|].
  rewrite !count_if_cons, IH by (intros; apply Hall; now right).
  unfold pair_is. simpl fst; simpl snd.
  destruct (Hall (x, y) (or_introl eq_refl)) as [E|E]; simpl in E; eqb_cases.
Qed.

Lemma count_col_split c r0 r1 (pairs : list (label * label)) :
  r0 <> r1 -> (forall p, In p pairs -> fst p = r0 \/ fst p = r1) ->
  count_if (fun p => (snd p =? c)%Z) pairs =
  (count_if (pair_is r0 c) pairs + count_if (pair_is r1 c) pairs)%Z.
Proof.
  intros Hne. induction pairs as [|[x y] l IH]; intros Hall; [reflexivity|].
  rewrite !count_if_cons, IH by (intros; apply Hall; now right).
  unfold pair_is. simpl fst; simpl snd.
  destruct (Hall (x, y) (or_introl eq_refl)) as [E|E]; simpl in E; eqb_cases.
Qed.

Lemma count_total r0 r1 (pairs : list (label * label)) :
  r0 <> r1 -> (forall p, In p pairs -> fst p = r0 \/ fst p = r1) ->
  Z.of_nat (length pairs) =
  (count_if (fun p => (fst p =? r0)%Z) pairs + count_if (fun p => (fst p =? r1)%Z) pairs)%Z.
Proof.
  intros Hne. induction pairs as [|[x y] l IH]; intros Hall; [reflexivity|].
  rewrite !count_if_cons. simpl length. rewrite Nat2Z.inj_succ, IH by (intros; apply Hall; now right).
  simpl fst.
  destruct (Hall (x, y) (or_introl eq_refl)) as [E|E]; simpl in E; eqb_cases.
Qed.

Lemma count_total_cols c0 c1 (pairs : list (label * label)) :
  c0 <> c1 -> (forall p, In p pairs -> snd p = c0 \/ snd p = c1) ->
  Z.of_nat (length pairs) =
  (count_if (fun p => (snd p =? c0)%Z) pairs + count_if (fun p => (snd p =? c1)%Z) pairs)%Z.
Proof.
  intros Hne. induction pairs as [|[x y] l IH]; intros Hall; [reflexivity|].
  rewrite !count_if_cons. simpl length. rewrite Nat2Z.inj_succ, IH by (intros; apply Hall; now right).
  simpl snd.
  destruct (Hall (x, y) (or_introl eq_refl)) as [E|E]; simpl in E; eqb_cases.
Qed.

(* ---------------- rounding ---------------- *)

Lemma rint_comp q q' : q == q' -> rint q = rint q'.
Proof.
  intros H. unfold rint. rewrite (Qfloor_comp _ _ H).
  assert (E : (q - inject_Z (Qfloor q') ?= 1 # 2) = (q' - inject_Z (Qfloor q') ?= 1 # 2)).
  { apply Qcompare_comp; [rewrite H|]; reflexivity. }
  rewrite E. reflexivity.
Qed.

Lemma rint_inject_Z z : rint (inject_Z z) = z.
Proof.
  unfold rint. rewrite Qfloor_Z.
  assert (E : (inject_Z z - inject_Z z ?= 1 # 2) = Lt).
  { apply Qlt_alt. setoid_replace (inject_Z z - inject_Z z) with 0 by ring. reflexivity. }
  rewrite E. reflexivity.
Qed.

Lemma rint_bound q :
  - (1 # 2) <= inject_Z (rint q) - q <= 1 # 2.
Proof.
  unfold rint.
  pose proof (Qfloor_le q) as Hlo. pose proof (Qlt_floor q) as Hhi.
  rewrite inject_Z_plus in Hhi. change (inject_Z 1) with 1 in Hhi.
  destruct (q - inject_Z (Qfloor q) ?= 1 # 2) eqn:E.
  - apply Qeq_alt in E. destruct (Z.even (Qfloor q)).
    + Lqa.lra.
    + rewrite inject_Z_plus. change (inject_Z 1) with 1. Lqa.lra.
  - apply Qlt_alt in E. Lqa.lra.
  - apply Qgt_alt in E. rewrite inject_Z_plus. change (inject_Z 1) with 1. Lqa.lra.
Qed.

Lemma np_round2_bound q : - (1 # 200) <= np_round q 2 - q <= 1 # 200.
Proof.
  unfold np_round. change (inject_Z (10 ^ Z.of_nat 2)) with (100 # 1).
  pose proof (rint_bound (q * (100 # 1))) as H.
  generalize dependent (inject_Z (rint (q * (100 # 1)))). intros k H.
  unfold Qdiv. change (/ (100 # 1)) with (1 # 100).
  split; Lqa.lra.
Qed.

Lemma np_round2_int z : np_round (inject_Z z) 2 == inject_Z z.
Proof.
  unfold np_round. change (inject_Z (10 ^ Z.of_nat 2)) with (inject_Z 100).
  rewrite (rint_comp _ (inject_Z (z * 100))) by (rewrite inject_Z_mult; reflexivity).
  rewrite rint_inject_Z, inject_Z_mult. field.
Qed.

(* ---------------- confusion_matrix ---------------- *)

Definition exact_table (pairs : list (label * label)) (normalize : bool)
           (r0 r1 c0 c1 : label) : list (list Q) :=
  let total := Z.of_nat (length pairs) in
  let cell (z : Z) : Q := if normalize then inject_Z z / inject_Z total else inject_Z z in
  [ [cell (count_if (pair_is r0 c0) pairs); cell (count_if (pair_is r0 c1) pairs);
     cell (count_if (fun p => (fst p =? r0)%Z) pairs)];
    [cell (count_if (pair_is r1 c0) pairs); cell (count_if (pair_is r1 c1) pairs);
     cell (count_if (fun p => (fst p =? r1)%Z) pairs)];
    [cell (count_if (fun p => (snd p =? c0)%Z) pairs);
     cell (count_if (fun p => (snd p =? c1)%Z) pairs);
     if normalize then 1 else inject_Z total] ].

Lemma confusion_matrix_ok_inv preds y normalize cm :
  confusion_matrix preds y normalize = Ok cm ->
  length preds = length y /\
  exists r0 r1 c0 c1,
    np_unique preds = [r0; r1] /\ np_unique y = [c0; c1] /\
    cm = {| df_index := [LInt 0; LInt 1; LStr "total"];
            df_columns := [LInt 0; LInt 1; LStr "total"];
            df_values := map (map (fun q => np_round q 2))
                          (exact_table (combine preds y) normalize r0 r1 c0 c1) |}.
Proof.
  unfold confusion_matrix, crosstab.
  destruct (Nat.eqb_spec (length preds) (length y)) as [Hlen|Hlen]; simpl negb; cbv iota;
    [|discriminate].
  unfold rbind at 1. unfold set_columns. cbn [df_columns df_index df_values].
  rewrite length_app, length_map. cbn [length]. rewrite Nat.add_1_r.
  destruct (np_unique y) as [|c0 [|c1 [|c2 cs]]] eqn:Ey; cbn [length Nat.add Nat.eqb rbind];
    try discriminate.
  unfold set_index. cbn [df_columns df_index df_values].
  rewrite length_app, length_map. cbn [length]. rewrite Nat.add_1_r.
  destruct (np_unique preds) as [|r0 [|r1 [|r2 rs]]] eqn:Ep; cbn [length Nat.add Nat.eqb rbind];
    try discriminate.
  intros H. injection H as <-. split; [assumption|].
  exists r0, r1, c0, c1. repeat split.
Qed.

Lemma unique_covers_fst (preds y : list label) r0 r1 :
  np_unique preds = [r0; r1] ->
  forall p : label * label, In p (combine preds y) -> fst p = r0 \/ fst p = r1.
Proof.
  intros H [a b] Hin. apply in_combine_l in Hin.
  apply (np_unique_two _ _ _ H) in Hin. exact Hin.
Qed.

Lemma unique_covers_snd (preds y : list label) c0 c1 :
  np_unique y = [c0; c1] ->
  forall p : label * label, In p (combine preds y) -> snd p = c0 \/ snd p = c1.
Proof.
  intros H [a b] Hin. apply in_combine_r in Hin.
  apply (np_unique_two _ _ _ H) in Hin. exact Hin.
Qed.

Lemma within_intro tol x y : - tol <= x - y <= tol -> within tol x y.
Proof. intros [H1 H2]. unfold within. apply Qabs_Qle_condition. split; assumption. Qed.


Lemma crosstab_shape preds y name normalize :
  length preds = length y ->
  exists t, crosstab preds y name normalize = Ok t /\
            length (df_columns t) = S (length (np_unique y)) /\
            length (df_index t) = S (length (np_unique preds)).
Proof.
  intros Hlen. unfold crosstab. rewrite Hlen, Nat.eqb_refl. simpl negb. cbv iota.
  eexists. split; [reflexivity|]. cbn [df_columns df_index].
  rewrite !length_app, !length_map. cbn [length]. rewrite !Nat.add_1_r. auto.
Qed.

Lemma confusion_matrix_by_lengths preds y normalize :
  length preds = length y ->
  if (length (np_unique y) =? 2)%nat && (length (np_unique preds) =? 2)%nat
  then exists cm, confusion_matrix preds y normalize = Ok cm
  else confusion_matrix preds y normalize = Raise (ValueError "Length mismatch").
Proof.
  intros Hlen. unfold confusion_matrix.
  destruct (crosstab_shape preds y "total" normalize Hlen) as (t & -> & Hc & Hi).
  cbn [rbind]. unfold set_columns. rewrite Hc. cbn [length].
  destruct (Nat.eqb_spec (length (np_unique y)) 2) as [Ey|Ey].
  - rewrite Ey. cbn [Nat.eqb andb rbind]. unfold set_index. cbn [df_index].
    rewrite Hi. cbn [length].
    destruct (Nat.eqb_spec (length (np_unique preds)) 2) as [Ep|Ep].
    + rewrite Ep. cbn [Nat.eqb rbind]. eexists. reflexivity.
    + destruct (Nat.eqb_spec 3 (S (length (np_unique preds)))) as [E|_]; [lia|].
      reflexivity.
  - cbn [andb]. destruct (Nat.eqb_spec 3 (S (length (np_unique y)))) as [E|_]; [lia|].
    reflexivity.
Qed.

(** C10: for predictions and labels of one length, [confusion_matrix]
    returns a table exactly when each of the two holds exactly two distinct
    values; on every other non-empty input the relabeling of an axis raises
    the length-mismatch error of pandas and no table is returned. *)
Theorem confusion_matrix_succeeds_iff preds y normalize :
  length preds = length y ->
  ((exists cm, confusion_matrix preds y normalize = Ok cm) <->
   two_valued preds /\ two_valued y) /\
  (preds <> [] -> ~ (two_valued preds /\ two_valued y) ->
   confusion_matrix preds y normalize = Raise (ValueError "Length mismatch")).
Proof.
  intros Hlen. pose proof (confusion_matrix_by_lengths preds y normalize Hlen) as H.
  rewrite !two_valued_unique.
  destruct (Nat.eqb_spec (length (np_unique y)) 2) as [Hy|Hy];
    destruct (Nat.eqb_spec (length (np_unique preds)) 2) as [Hp|Hp]; cbn [andb] in H.
  - split; [tauto|]. intros _ Hn. exfalso. apply Hn. split; assumption.
  - split; [|intros _ _; exact H].
    split; [intros [cm Hcm]; rewrite H in Hcm; discriminate | tauto].
  - split; [|intros _ _; exact H].
    split; [intros [cm Hcm]; rewrite H in Hcm; discriminate | tauto].
  - split; [|intros _ _; exact H].
    split; [intros [cm Hcm]; rewrite H in Hcm; discriminate | tauto].
Qed.

(** ** Further properties of [confusion_matrix] *)

(** Lines 64-68: what [confusion_matrix] does with the cross-tabulation. *)
Definition relabel_and_round (t : DataFrame) : result DataFrame :=
  cm <-- set_columns t [LInt 0; LInt 1; LStr "total"] ;;
  cm <-- set_index cm [LInt 0; LInt 1; LStr "total"] ;;
  Ok (df_round cm 2).

Lemma confusion_matrix_steps preds y normalize :
  confusion_matrix preds y normalize
  = rbind (crosstab preds y "total" normalize) relabel_and_round.
Proof. reflexivity. Qed.

Lemma relabel_and_round_ext t t' :
  length (df_columns t) = length (df_columns t') ->
  length (df_index t) = length (df_index t') ->
  df_values t = df_values t' ->
  relabel_and_round t = relabel_and_round t'.
Proof.
  intros Hc Hi Hv. unfold relabel_and_round, set_columns. rewrite Hc.
  destruct (length [LInt 0; LInt 1; LStr "total"] =? length (df_columns t'))%nat;
    [|reflexivity].
  cbn [rbind]. unfold set_index. cbn [df_index df_columns df_values]. rewrite Hi.
  destruct (length [LInt 0; LInt 1; LStr "total"] =? length (df_index t'))%nat;
    [|reflexivity].
  cbn [rbind]. unfold df_round. cbn [df_index df_columns df_values]. rewrite Hv. reflexivity.
Qed.

Lemma count_if_map {A B} (p : B -> bool) (g : A -> B) l :
  count_if p (map g l) = count_if (fun a => p (g a)) l.
Proof.
  induction l as [|a l IH]; [reflexivity|].
  cbn [map]. rewrite !count_if_cons, IH. reflexivity.
Qed.

Lemma count_if_ext {A} (p q : A -> bool) l :
  (forall a, p a = q a) -> count_if p l = count_if q l.
Proof.
  intros H. induction l as [|a l IH]; [reflexivity|].
  rewrite !count_if_cons, IH, H. reflexivity.
Qed.

Lemma count_if_le {A} (p : A -> bool) l : (count_if p l <= Z.of_nat (length l))%Z.
Proof.
  induction l as [|a l IH]; [unfold count_if; simpl; lia|].
  rewrite count_if_cons. simpl length. destruct (p a); lia.
Qed.

Section Relabel.
Variable f : label -> label.
Hypothesis f_increasing : forall a b, (a < b)%Z -> (f a < f b)%Z.

Lemma f_ltb a b : (f a <? f b)%Z = (a <? b)%Z.
Proof.
  destruct (Z.ltb_spec a b) as [H|H].
  - apply Z.ltb_lt. apply f_increasing. exact H.
  - apply Z.ltb_ge. destruct (Z.eq_dec a b) as [->|Hne]; [lia|].
    assert (Hlt : (b < a)%Z) by lia. apply f_increasing in Hlt. lia.
Qed.

Lemma f_eqb a b : (f a =? f b)%Z = (a =? b)%Z.
Proof.
  destruct (Z.eqb_spec a b) as [->|H]; [apply Z.eqb_refl|].
  apply Z.eqb_neq. destruct (Z.lt_ge_cases a b) as [Hlt|Hge].
  - apply f_increasing in Hlt. lia.
  - assert (Hlt : (b < a)%Z) by lia. apply f_increasing in Hlt. lia.
Qed.

Lemma insert_unique_map x l :
  insert_unique (f x) (map f l) = map f (insert_unique x l).
Proof.
  induction l as [|z l IH]; [reflexivity|].
  cbn [map insert_unique]. rewrite f_ltb, f_eqb.
  destruct (x <? z)%Z; [reflexivity|]. destruct (x =? z)%Z; [reflexivity|].
  cbn [map]. rewrite IH. reflexivity.
Qed.

Lemma np_unique_map l : np_unique (map f l) = map f (np_unique l).
Proof.
  induction l as [|x l IH]; [reflexivity|].
  cbn [map]. unfold np_unique in *. cbn [fold_right]. rewrite IH. apply insert_unique_map.
Qed.

Lemma combine_map_both (a b : list label) :
  combine (map f a) (map f b) = map (fun p => (f (fst p), f (snd p))) (combine a b).
Proof.
  revert b; induction a as [|x a IH]; intros [|z b]; try reflexivity.
  cbn [map combine fst snd]. rewrite IH. reflexivity.
Qed.

Lemma crosstab_relabel preds y name normalize :
  match crosstab preds y name normalize with
  | Ok t =>
      exists t', crosstab (map f preds) (map f y) name normalize = Ok t' /\
                 length (df_columns t') = length (df_columns t) /\
                 length (df_index t') = length (df_index t) /\
                 df_values t' = df_values t
  | Raise e => crosstab (map f preds) (map f y) name normalize = Raise e
  end.
Proof.
  unfold crosstab. rewrite !length_map.
  destruct (negb (length preds =? length y)%nat); [reflexivity|].
  eexists. split; [reflexivity|]. cbn [df_columns df_index df_values].
  rewrite !np_unique_map, !combine_map_both, !length_app, !length_map.
  split; [reflexivity|]. split; [reflexivity|].
  assert (Hrc : forall r c,
    count_if (pair_is (f r) (f c)) (map (fun p => (f (fst p), f (snd p))) (combine preds y))
    = count_if (pair_is r c) (combine preds y)).
  { intros r c. rewrite count_if_map. apply count_if_ext. intros [a b].
    unfold pair_is. cbn [fst snd]. rewrite !f_eqb. reflexivity. }
  assert (Hr : forall r,
    count_if (fun p => (fst p =? f r)%Z)
             (map (fun p => (f (fst p), f (snd p))) (combine preds y))
    = count_if (fun p => (fst p =? r)%Z) (combine preds y)).
  { intros r. rewrite count_if_map. apply count_if_ext. intros [a b].
    cbn [fst snd]. apply f_eqb. }
  assert (Hc : forall c,
    count_if (fun p => (snd p =? f c)%Z)
             (map (fun p => (f (fst p), f (snd p))) (combine preds y))
    = count_if (fun p => (snd p =? c)%Z) (combine preds y)).
  { intros c. rewrite count_if_map. apply count_if_ext. intros [a b].
    cbn [fst snd]. apply f_eqb. }
  rewrite !map_map. f_equal.
  - apply map_ext. intros r. rewrite map_map, Hr. f_equal.
    apply map_ext. intros c. rewrite Hrc. reflexivity.
  - f_equal. f_equal. apply map_ext. intros c. rewrite Hc. reflexivity.
Qed.

(** X11: the table does not record which values the labels are: row and
    column 0 stand for the smaller and row and column 1 for the larger of
    the two values present.  Renaming the classes by any increasing
    function, the same for predictions and truth, changes nothing in the
    result: labels {1, 2} or {-1, 1} give the very table of {0, 1}, under
    the axis labels 0 and 1, and an input that is refused stays refused. *)
Theorem confusion_matrix_relabel preds y normalize :
  confusion_matrix (map f preds) (map f y) normalize = confusion_matrix preds y normalize.
Proof.
  rewrite !confusion_matrix_steps.
  pose proof (crosstab_relabel preds y "total" normalize) as H.
  destruct (crosstab preds y "total" normalize) as [t|e].
  - destruct H as (t' & -> & Hc & Hi & Hv). cbn [rbind].
    apply relabel_and_round_ext; assumption.
  - rewrite H. reflexivity.
Qed.
End Relabel.

Lemma combine_swap {A B} (a : list A) (b : list B) :
  combine b a = map (fun p => (snd p, fst p)) (combine a b).
Proof.
  revert b; induction a as [|x a IH]; intros [|z b]; try reflexivity.
  cbn [combine map fst snd]. rewrite IH. reflexivity.
Qed.

(** X12: exchanging predictions and truth transposes the table: when
    [confusion_matrix preds y] returns a table, [confusion_matrix y preds]
    returns one too, and its entry in row [i] and column [j] is the entry
    of the first in row [j] and column [i]. *)
Theorem confusion_matrix_transpose preds y normalize cm :
  confusion_matrix preds y normalize = Ok cm ->
  exists cm', confusion_matrix y preds normalize = Ok cm' /\
              forall i j, cell cm' i j = cell cm j i.
Proof.
  intros H. apply confusion_matrix_ok_inv in H.
  destruct H as (Hlen & r0 & r1 & c0 & c1 & Hp & Hy & ->).
  pose proof (confusion_matrix_by_lengths y preds normalize (eq_sym Hlen)) as H'.
  rewrite Hp, Hy in H'. cbn [length Nat.eqb andb] in H'. destruct H' as [cm' H'].
  exists cm'. split; [exact H'|].
  apply confusion_matrix_ok_inv in H'.
  destruct H' as (_ & a0 & a1 & b0 & b1 & Hy' & Hp' & ->).
  rewrite Hy in Hy'. injection Hy' as <- <-. rewrite Hp in Hp'. injection Hp' as <- <-.
  assert (Hrc : forall r c,
    count_if (pair_is c r) (combine y preds) = count_if (pair_is r c) (combine preds y)).
  { intros r c. rewrite (combine_swap preds y), count_if_map. apply count_if_ext.
    intros [a b]. unfold pair_is. cbn [fst snd]. apply andb_comm. }
  assert (Hr : forall r,
    count_if (fun p => (snd p =? r)%Z) (combine y preds)
    = count_if (fun p => (fst p =? r)%Z) (combine preds y)).
  { intros r. rewrite (combine_swap preds y), count_if_map. reflexivity. }
  assert (Hc : forall c,
    count_if (fun p => (fst p =? c)%Z) (combine y preds)
    = count_if (fun p => (snd p =? c)%Z) (combine preds y)).
  { intros c. rewrite (combine_swap preds y), count_if_map. reflexivity. }
  assert (Hn : length (combine y preds) = length (combine preds y)).
  { rewrite (combine_swap preds y). apply length_map. }
  unfold cell, exact_table. cbn [df_values map]. rewrite !Hrc, !Hr, !Hc, Hn.
  intros i j.
  destruct i as [|[|[|i]]]; destruct j as [|[|[|j]]]; try reflexivity;
    cbn [nth]; try (destruct i; reflexivity); try (destruct j; reflexivity);
    destruct i, j; reflexivity.
Qed.

Lemma np_round2_unit q : 0 <= q <= 1 -> 0 <= np_round q 2 <= 1.
Proof.
  intros [H0 H1]. unfold np_round. change (inject_Z (10 ^ Z.of_nat 2)) with (100 # 1).
  pose proof (rint_bound (q * (100 # 1))) as H.
  set (h := rint (q * (100 # 1))) in *.
  assert (Hlo : inject_Z (-1) < inject_Z h).
  { change (inject_Z (-1)) with (- (1 # 1)). revert H. generalize (inject_Z h).
    intros k Hk. Lqa.lra. }
  assert (Hhi : inject_Z h < inject_Z 101).
  { change (inject_Z 101) with (101 # 1). revert H. generalize (inject_Z h).
    intros k Hk. Lqa.lra. }
  rewrite <- Zlt_Qlt in Hlo, Hhi.
  assert (G0 : inject_Z 0 <= inject_Z h) by (rewrite <- Zle_Qle; lia).
  assert (G1 : inject_Z h <= inject_Z 100) by (rewrite <- Zle_Qle; lia).
  change (inject_Z 0) with 0 in G0. change (inject_Z 100) with (100 # 1) in G1.
  unfold Qdiv. change (/ (100 # 1)) with (1 # 100).
  revert G0 G1. generalize (inject_Z h). intros k G0 G1. split; Lqa.lra.
Qed.

Lemma share_unit (k n : Z) :
  (0 <= k <= n)%Z -> (0 < n)%Z -> 0 <= inject_Z k / inject_Z n <= 1.
Proof.
  intros [Hk Hkn] Hn.
  assert (Pn : 0 < inject_Z n) by (change 0 with (inject_Z 0); rewrite <- Zlt_Qlt; exact Hn).
  assert (Pk : 0 <= inject_Z k) by (change 0 with (inject_Z 0); rewrite <- Zle_Qle; exact Hk).
  assert (Pkn : inject_Z k <= inject_Z n) by (rewrite <- Zle_Qle; exact Hkn).
  split.
  - apply Qle_shift_div_l; [exact Pn|]. rewrite Qmult_0_l. exact Pk.
  - apply Qle_shift_div_r; [exact Pn|]. rewrite Qmult_1_l. exact Pkn.
Qed.

(** X13: without normalization the entries of the table are the counts
    themselves, whole numbers between 0 and the number of samples that the
    rounding leaves as they are, and the corner is the number of samples;
    with normalization every entry lies between 0 and 1 and the corner
    is 1. *)
Theorem confusion_matrix_entries preds y normalize cm :
  confusion_matrix preds y normalize = Ok cm ->
  Forall (Forall (fun q =>
            if normalize then 0 <= q <= 1
            else exists k, (0 <= k <= Z.of_nat (length y))%Z /\ q == inject_Z k))
         (df_values cm) /\
  cell cm 2 2 == (if normalize then 1 else inject_Z (Z.of_nat (length y))).
Proof.
  intros H. apply confusion_matrix_ok_inv in H.
  destruct H as (Hlen & r0 & r1 & c0 & c1 & Hp & Hy & ->).
  assert (Hn : length (combine preds y) = length y).
  { rewrite length_combine, Hlen. apply Nat.min_id. }
  assert (Hpos : (0 < Z.of_nat (length y))%Z).
  { destruct y as [|z y]; [discriminate Hy | simpl length; lia]. }
  assert (Hcount : forall p : label * label -> bool,
             (0 <= count_if p (combine preds y) <= Z.of_nat (length y))%Z).
  { intros p. rewrite <- Hn. split; [apply count_if_nonneg | apply count_if_le]. }
  pose proof (np_round2_int 1) as Hone. change (inject_Z 1) with 1 in Hone.
  unfold cell, exact_table. cbn [df_values map nth]. rewrite Hn.
  destruct normalize.
  - split; [|exact Hone].
    repeat (apply Forall_cons || apply Forall_nil);
      try (apply np_round2_unit, share_unit; [apply Hcount | exact Hpos]).
    rewrite Hone. split; [discriminate | apply Qle_refl].
  - split; [|apply np_round2_int].
    repeat (apply Forall_cons || apply Forall_nil);
      try (eexists; split; [apply Hcount | apply np_round2_int]).
    exists (Z.of_nat (length y)). split; [lia | apply np_round2_int].
Qed.
End ConfusionMatrix.

(* ================================================================= *)
(** * A concrete estimator and concrete runs *)

Arguments fresh {world value} w.
Arguments fit {sample world estimator value}.
Arguments _train_test_split {sample world estimator value}.
Arguments StratifiedKFoldTestPredictions {sample world estimator value}.
Arguments skf_split {sample}.
Arguments fold_chain {sample world estimator value}.
Arguments after_split {world value}.
Arguments fit_fold {sample world estimator value}.
Arguments env {world value}.
Arguments trace {world value}.
Arguments k_fold_splits {world value}.
Arguments scoring_results_ {world value}.
Arguments best_index_ {world value}.
Arguments best_params_ {world value}.
Arguments best_score_ {world value}.
Arguments r_params {value}.
Arguments r_scores {value}.
Arguments r_mean {value}.
Arguments method {world estimator value}.
Arguments scoring {world estimator value}.
Arguments grid_params {world estimator value}.
Arguments ParameterGrid {value}.
Arguments grid_size {value}.
Arguments chooses {value}.
Arguments exc_of {value}.
Arguments quiet {value}.
Arguments uses {value}.
Arguments evaluated {value}.
Arguments retried {value}.

Module Fixture.

(** A threshold classifier on one integer feature: [predict] answers 1 from
    the threshold on.  Its [fit] keeps the threshold, refuses a negative one
    and does not accept the keyword [n_jobs]. *)
Definition thr_init (p : list (string * Z)) (w : nat) : result Z * nat :=
  (Ok (fold_right Z.add 0%Z (map snd p)), w).

Definition thr_fit (c : Z) (Xs : list Z) (ys : list label) (hint : option Z) (w : nat)
  : result Z * nat :=
  match hint with
  | Some _ => (Raise (TypeError "fit() got an unexpected keyword argument 'n_jobs'"), w)
  | None => if (c <? 0)%Z then (Raise (ValueError "negative threshold"), w) else (Ok c, w)
  end.

Definition thr_predict (c : Z) (Xs : list Z) (w : nat) : result (list label) * nat :=
  (Ok (map (fun x => if (x <? c)%Z then 0%Z else 1%Z) Xs), w).

(** The same classifier with a threshold moved, at each [fit], by a number
    drawn from the outer state (a global random generator). *)
Definition rnd_fit (c : Z) (Xs : list Z) (ys : list label) (hint : option Z) (w : nat)
  : result Z * nat :=
  (Ok (c + Z.of_nat w)%Z, S w).

(** Folds dealt round-robin. *)
Definition deal (n_splits : nat) (shuffle : bool) (random_state : option Z) (y : list label)
  : result (list nat) :=
  if n_splits <? 2 then Raise (ValueError "n_splits must be at least 2")
  else Ok (map (fun i => i mod n_splits) (seq 0 (length y))).

Definition of_Z (z : Z) : float := PrimFloat.of_uint63 (Uint63.of_Z z).

Definition mean (l : list float) : float :=
  PrimFloat.div (fold_right PrimFloat.add (of_Z 0) l) (of_Z (Z.of_nat (length l))).

Definition std (l : list float) : float :=
  let m := mean l in
  PrimFloat.sqrt (mean (map (fun x => PrimFloat.mul (PrimFloat.sub x m) (PrimFloat.sub x m)) l)).

(** Share of correct predictions. *)
Definition accuracy (y_true y_pred : list label) (w : nat) : result float * nat :=
  (Ok (PrimFloat.div (of_Z (n_correct y_true y_pred)) (of_Z (Z.of_nat (length y_true)))), w).

(** Precision computed as [tp / (tp + fp)] on numpy floats: NaN when
    nothing is predicted positive. *)
Definition precision (y_true y_pred : list label) (w : nat) : result float * nat :=
  let tp := count_if (pair_is 1 1) (combine y_true y_pred) in
  let fp := count_if (pair_is 0 1) (combine y_true y_pred) in
  (Ok (PrimFloat.div (of_Z tp) (of_Z (tp + fp))), w).

Definition X6 : list Z := [1; 2; 3; 4; 5; 6]%Z.
Definition y6 : list label := [0; 0; 0; 1; 1; 1]%Z.

Definition search (score : list label -> list label -> nat -> result float * nat)
           (thresholds : list Z) : gridsearch nat Z Z :=
  {| method := thr_init;
     grid_params := [("threshold"%string, thresholds)];
     scoring := score;
     cv := 2; n_jobs := (-1)%Z; random_state := 1234%Z; kwargs := None |}.

Abbreviation run_fit fit_model self sched s :=
  (fit fit_model thr_predict deal mean std self X6 y6 sched s).

(** The grid [{"threshold": [2, 4, 6]}] scored by accuracy. *)
Definition self3 : gridsearch nat Z Z := search accuracy [2; 4; 6]%Z.

Definition self2 : gridsearch nat Z Z := search accuracy [2; 4]%Z.

(** A grid whose first candidate never predicts the positive class, scored
    by precision. *)
Definition self_nan : gridsearch nat Z Z := search precision [100; 4]%Z.

(** A grid whose second candidate is refused by [fit] of the classifier. *)
Definition self_neg : gridsearch nat Z Z := search accuracy [2; -1; 6]%Z.

End Fixture.

Import Fixture.

(* ================================================================= *)
(** * Runs of the fixture *)

Lemma thr_fit_pure c Xs ys h (w w' : nat) :
  fst (thr_fit c Xs ys h w) = fst (thr_fit c Xs ys h w').
Proof.
  unfold thr_fit. destruct h; [reflexivity|]. destruct (c <? 0)%Z; reflexivity.
Qed.

Lemma thr_predict_length c Xs (w : nat) out w' :
  thr_predict c Xs w = (Ok out, w') -> length out = length Xs.
Proof. unfold thr_predict. intros H. injection H as <- _. apply length_map. Qed.

Lemma run3_ok : fst (run_fit thr_fit self3 [1; 0] (fresh 0)) = Ok tt.
Proof. vm_compute. reflexivity. Qed.

(** An instance of C2: three candidates, completed in the order 1, 0, 2. *)
Lemma fit_results_follow_grid_witness :
  fst (run_fit thr_fit self3 [1; 0] (fresh 0)) = Ok tt /\
  exists rs,
    scoring_results_ (snd (run_fit thr_fit self3 [1; 0] (fresh 0))) = Some rs /\
    length rs = grid_size (grid_params self3) /\
    map r_params rs = ParameterGrid (grid_params self3) /\
    (forall p, In p (map r_params rs) <-> chooses p (sorted_items (grid_params self3))) /\
    (Forall (fun it => NoDup (snd it)) (grid_params self3) -> NoDup (map r_params rs)).
Proof.
  split; [exact run3_ok|].
  apply (fit_results_follow_grid Z nat Z Z thr_fit thr_predict deal mean std self3 X6 y6 [1; 0]
                                 (fresh 0)).
  exact run3_ok.
Defined.

(** An instance of the amended C3. *)
Lemma fit_selects_first_maximum_witness :
  fst (run_fit thr_fit self3 [1; 0] (fresh 0)) = Ok tt /\
  exists rs idx rec,
    scoring_results_ (snd (run_fit thr_fit self3 [1; 0] (fresh 0))) = Some rs /\
    best_index_ (snd (run_fit thr_fit self3 [1; 0] (fresh 0))) = Some idx /\
    nth_error rs idx = Some rec /\
    best_params_ (snd (run_fit thr_fit self3 [1; 0] (fresh 0))) = Some (r_params rec) /\
    best_score_ (snd (run_fit thr_fit self3 [1; 0] (fresh 0)))
      = Some (mean (r_scores rec), std (r_scores rec)) /\
    r_mean rec = mean (r_scores rec) /\
    (no_nan (map r_mean rs) ->
     (forall j r, nth_error rs j = Some r -> PrimFloat.leb (r_mean r) (r_mean rec) = true) /\
     (forall j r, j < idx -> nth_error rs j = Some r ->
                  PrimFloat.ltb (r_mean r) (r_mean rec) = true)) /\
    (forall j r, nth_error rs j = Some r -> PrimFloat.is_nan (r_mean r) = true ->
                 idx <= j /\ PrimFloat.is_nan (r_mean rec) = true).
Proof.
  split; [exact run3_ok|].
  apply (fit_selects_first_maximum Z nat Z Z thr_fit thr_predict deal mean std self3 X6 y6
                                   [1; 0] (fresh 0)).
  exact run3_ok.
Defined.

(** C3 as stated fails: with precision as the scoring function the first
    candidate has mean NaN, [np.argmax] returns it, and its mean is not
    greater than or equal to the mean 1.0 of the second candidate. *)
Lemma best_mean_may_be_nan :
  fst (run_fit thr_fit self_nan [0; 0] (fresh 0)) = Ok tt /\
  exists rs best other,
    scoring_results_ (snd (run_fit thr_fit self_nan [0; 0] (fresh 0))) = Some rs /\
    best_index_ (snd (run_fit thr_fit self_nan [0; 0] (fresh 0))) = Some 0 /\
    nth_error rs 0 = Some best /\
    nth_error rs 1 = Some other /\
    PrimFloat.is_nan (r_mean best) = true /\
    PrimFloat.leb (r_mean other) (r_mean best) = false.
Proof.
  split; [vm_compute; reflexivity|].
  eexists _, _, _. vm_compute.
  repeat split; reflexivity.
Qed.

(** An instance of the amended C4: the threshold classifier does not read
    the outer state, so a second run, from another outer state and with
    another completion order, repeats the first. *)
Lemma fit_repeatable_witness :
  ((forall p w w', fst (method self3 p w) = fst (method self3 p w')) /\
   (forall c Xs ys h w w', fst (thr_fit c Xs ys h w) = fst (thr_fit c Xs ys h w')) /\
   (forall c Xs w w', fst (thr_predict c Xs w) = fst (thr_predict c Xs w')) /\
   (forall yt yp w w', fst (scoring self3 yt yp w) = fst (scoring self3 yt yp w')) /\
   fst (run_fit thr_fit self3 [1; 0] (fresh 0)) = Ok tt) /\
  fst (_train_test_split deal self3 X6 y6 (fresh 0))
    = fst (_train_test_split deal self3 X6 y6 (fresh 7)) /\
  fst (run_fit thr_fit self3 [2; 1] (fresh 7)) = Ok tt /\
  k_fold_splits (snd (run_fit thr_fit self3 [2; 1] (fresh 7)))
    = k_fold_splits (snd (run_fit thr_fit self3 [1; 0] (fresh 0))) /\
  scoring_results_ (snd (run_fit thr_fit self3 [2; 1] (fresh 7)))
    = scoring_results_ (snd (run_fit thr_fit self3 [1; 0] (fresh 0))) /\
  best_index_ (snd (run_fit thr_fit self3 [2; 1] (fresh 7)))
    = best_index_ (snd (run_fit thr_fit self3 [1; 0] (fresh 0))) /\
  best_params_ (snd (run_fit thr_fit self3 [2; 1] (fresh 7)))
    = best_params_ (snd (run_fit thr_fit self3 [1; 0] (fresh 0))) /\
  best_score_ (snd (run_fit thr_fit self3 [2; 1] (fresh 7)))
    = best_score_ (snd (run_fit thr_fit self3 [1; 0] (fresh 0))).
Proof.
  split.
  - split; [reflexivity|]. split; [exact thr_fit_pure|].
    split; [reflexivity|]. split; [reflexivity|]. exact run3_ok.
  - split.
    + apply (fit_repeatable Z nat Z Z thr_fit thr_predict deal mean std self3 X6 y6
                            [1; 0] [2; 1] (fresh 0) (fresh 7)).
    + apply (fit_repeatable Z nat Z Z thr_fit thr_predict deal mean std self3 X6 y6
                            [1; 0] [2; 1] (fresh 0) (fresh 7)).
      * reflexivity.
      * exact thr_fit_pure.
      * reflexivity.
      * reflexivity.
      * exact run3_ok.
Defined.

(** C4 as stated fails: when [fit] of the estimator draws from the outer
    state, a second run on the same inputs, the same configuration and the
    same completion order computes the same partition and other scores. *)
Lemma scores_depend_on_outer_state :
  fst (run_fit rnd_fit self2 [0; 0] (fresh 0)) = Ok tt /\
  fst (run_fit rnd_fit self2 [0; 0] (snd (run_fit rnd_fit self2 [0; 0] (fresh 0)))) = Ok tt /\
  k_fold_splits (snd (run_fit rnd_fit self2 [0; 0] (snd (run_fit rnd_fit self2 [0; 0] (fresh 0)))))
    = k_fold_splits (snd (run_fit rnd_fit self2 [0; 0] (fresh 0))) /\
  exists first second rs1 rs2,
    scoring_results_ (snd (run_fit rnd_fit self2 [0; 0] (fresh 0))) = Some (first :: rs1) /\
    scoring_results_
      (snd (run_fit rnd_fit self2 [0; 0] (snd (run_fit rnd_fit self2 [0; 0] (fresh 0)))))
      = Some (second :: rs2) /\
    r_params first = r_params second /\
    PrimFloat.ltb (r_mean second) (r_mean first) = true.
Proof.
  split; [vm_compute; reflexivity|].
  split; [vm_compute; reflexivity|].
  split; [vm_compute; reflexivity|].
  eexists _, _, _, _. vm_compute. repeat split; reflexivity.
Qed.


(** An instance of C7: [fit] of the classifier refuses the second candidate
    of the grid; the search raises this exception and leaves no result. *)
Example refused_candidate_aborts_search :
  fst (run_fit thr_fit self_neg [0; 0; 0] (fresh 0))
    = Raise (ValueError "negative threshold") /\
  scoring_results_ (snd (run_fit thr_fit self_neg [0; 0; 0] (fresh 0))) = None /\
  best_index_ (snd (run_fit thr_fit self_neg [0; 0; 0] (fresh 0))) = None /\
  best_params_ (snd (run_fit thr_fit self_neg [0; 0; 0] (fresh 0))) = None /\
  best_score_ (snd (run_fit thr_fit self_neg [0; 0; 0] (fresh 0))) = None /\
  last (trace (snd (run_fit thr_fit self_neg [0; 0; 0] (fresh 0)))) (EvPredict Z None)
    = EvFit Z None (Some (ValueError "negative threshold")).
Proof. vm_compute. repeat split; reflexivity. Qed.

(** An instance of C6: both folds meet the refusal of the keyword and are
    fitted by the second call. *)
Example keyword_refusal_is_masked :
  fst (StratifiedKFoldTestPredictions thr_fit thr_predict deal (fun _ => 7%Z)
         X6 y6 4%Z 2 (-1)%Z (fresh 0 : store nat Z)) = Ok [0; 0; 0; 1; 1; 1]%Z /\
  map exc_of
      (trace (snd (StratifiedKFoldTestPredictions thr_fit thr_predict deal (fun _ => 7%Z)
                     X6 y6 4%Z 2 (-1)%Z (fresh 0 : store nat Z))))
    = [None;
       Some (TypeError "fit() got an unexpected keyword argument 'n_jobs'"); None; None;
       Some (TypeError "fit() got an unexpected keyword argument 'n_jobs'"); None; None].
Proof. vm_compute. split; reflexivity. Qed.

(** An instance of C8. *)
Lemma scaled_mcc_range_witness :
  (length [0; 1; 1; 0]%Z = length [0; 1; 0; 0]%Z /\
   exists s, scaled_mcc [0; 1; 1; 0]%Z [0; 1; 0; 0]%Z = Ok s /\ (0 <= s <= 1)%R) /\
  ((In 0%Z [0; 1]%Z /\ In 1%Z [0; 1]%Z) /\ scaled_mcc [0; 1]%Z [0; 1]%Z = Ok 1%R).
Proof.
  destruct scaled_mcc_range as (_ & Hr & Hp). split.
  - split; [reflexivity|]. apply Hr. reflexivity.
  - assert (H0 : In 0%Z [0; 1]%Z) by (left; reflexivity).
    assert (H1 : In 1%Z [0; 1]%Z) by (right; left; reflexivity).
    split; [split; assumption|].
    apply (Hp [0; 1]%Z 0%Z 1%Z H0 H1). intros H. discriminate H.
Defined.



(** An instance of C10. *)
Lemma confusion_matrix_succeeds_iff_witness :
  length [0; 1; 1]%Z = length [0; 1; 0]%Z /\
  ((exists cm, confusion_matrix [0; 1; 1]%Z [0; 1; 0]%Z false = Ok cm) <->
   two_valued [0; 1; 1]%Z /\ two_valued [0; 1; 0]%Z) /\
  ([0; 1; 1]%Z <> [] -> ~ (two_valued [0; 1; 1]%Z /\ two_valued [0; 1; 0]%Z) ->
   confusion_matrix [0; 1; 1]%Z [0; 1; 0]%Z false = Raise (ValueError "Length mismatch")).
Proof.
  split; [reflexivity|].
  apply (confusion_matrix_succeeds_iff [0; 1; 1]%Z [0; 1; 0]%Z false). reflexivity.
Defined.

(** Single-class predictions: no table is returned. *)
Example single_class_predictions_raise :
  confusion_matrix [0; 0; 0]%Z [0; 1; 0]%Z false = Raise (ValueError "Length mismatch") /\
  confusion_matrix [0; 1; 2]%Z [0; 1; 2]%Z false = Raise (ValueError "Length mismatch").
Proof. split; reflexivity. Qed.

(* ================================================================= *)
(** * Properties of [Timer] *)

Section TimerProperties.
Variable world : Type.
Variable perf_counter : world -> float * world.

(** The state in which the block of [with Timer(msg) as t] starts. *)
Definition block_start (msg : string) (s : Timer.state world) : Timer.state world :=
  snd (Timer.__enter__ world perf_counter (Timer.next world s)
         (snd (Timer.__init__ world msg false s))).

(** The state in which it ends. *)
Definition block_end {A} (msg : string) (block : nat -> ST (Timer.state world) A)
           (s : Timer.state world) : Timer.state world :=
  snd (block (Timer.next world s) (block_start msg s)).

Lemma enter_returns self (s : Timer.state world) :
  Timer.__enter__ world perf_counter self s
  = (Ok self, snd (Timer.__enter__ world perf_counter self s)).
Proof.
  unfold Timer.__enter__, st_bind, Timer.time_perf_counter, Timer.setattr, st_ret.
  destruct (perf_counter (Timer.env world s)) as [now w]. reflexivity.
Qed.

Lemma with_Timer_unfold {A} msg (block : nat -> ST (Timer.state world) A) s :
  Timer.with_Timer world perf_counter msg block s =
  match fst (block (Timer.next world s) (block_start msg s)),
        Timer.__exit__ world perf_counter (Timer.next world s) (block_end msg block s) with
  | Ok a, (Ok _, s3) => (Ok a, s3)
  | Raise e, (Ok _, s3) => (Raise e, s3)
  | _, (Raise e, s3) => (Raise e, s3)
  end.
Proof.
  unfold Timer.with_Timer, with_statement, block_end, block_start.
  unfold st_bind at 1.
  change (Timer.__init__ world msg false s)
    with (@Ok nat (Timer.next world s), snd (Timer.__init__ world msg false s)).
  cbv beta iota. unfold st_bind. rewrite enter_returns.
  destruct (block (Timer.next world s) _) as [[a|e] s2]; cbn [fst snd];
    destruct (Timer.__exit__ world perf_counter (Timer.next world s) s2) as [[[]|e'] s3];
    reflexivity.
Qed.

Lemma exit_facts self (s : Timer.state world) :
  let now := fst (perf_counter (Timer.env world s)) in
  let o := Timer.heap world s self in
  let r := fst (Timer.__exit__ world perf_counter self s) in
  let s' := snd (Timer.__exit__ world perf_counter self s) in
  Timer.stdout world s' = Timer.stdout world s /\
  Timer.env world s' = snd (perf_counter (Timer.env world s)) /\
  match Timer.start o with
  | None =>
      r = Raise (AttributeError "start") /\
      Timer.heap world s' self
        = {| Timer.msg := Timer.msg o; Timer.start := None; Timer.end_ := Some now;
             Timer.interval := Timer.interval o |}
  | Some s0 =>
      r = (if String.eqb (Timer.msg o) ""
           then Raise (AttributeError "'float' object has no attribute 'seconds'")
           else Ok tt) /\
      Timer.heap world s' self
        = {| Timer.msg := Timer.msg o; Timer.start := Some s0; Timer.end_ := Some now;
             Timer.interval := Some (PrimFloat.sub now s0) |}
  end.
Proof.
  unfold Timer.__exit__, st_bind, Timer.time_perf_counter, Timer.setattr, Timer.getattr,
    st_ret, Timer.float_seconds.
  destruct (perf_counter (Timer.env world s)) as [now w].
  repeat (progress cbn [fst snd Timer.env Timer.stdout Timer.heap Timer.next Timer.start
                        Timer.end_ Timer.msg Timer.interval]
          || rewrite Nat.eqb_refl).
  destruct (Timer.start (Timer.heap world s self)) as [s0|] eqn:Es;
    repeat (progress cbn [fst snd Timer.env Timer.stdout Timer.heap Timer.next Timer.start
                          Timer.end_ Timer.msg Timer.interval]
            || rewrite Nat.eqb_refl || rewrite Es);
    [|repeat split; reflexivity].
  destruct (String.eqb (Timer.msg (Timer.heap world s self)) "");
    repeat (progress cbn [fst snd Timer.env Timer.stdout Timer.heap Timer.next Timer.start
                          Timer.end_ Timer.msg Timer.interval]
            || rewrite Nat.eqb_refl || rewrite Es);
    repeat split; reflexivity.
Qed.

Lemma block_start_timer msg (s : Timer.state world) :
  Timer.heap world (block_start msg s) (Timer.next world s)
  = {| Timer.msg := msg; Timer.start := Some (fst (perf_counter (Timer.env world s)));
       Timer.end_ := None; Timer.interval := None |}.
Proof.
  unfold block_start, Timer.__enter__, Timer.__init__, st_bind, Timer.time_perf_counter,
    Timer.setattr, st_ret.
  cbn [fst snd Timer.env Timer.stdout Timer.heap Timer.next].
  destruct (perf_counter (Timer.env world s)) as [now w].
  cbn [fst snd Timer.env Timer.stdout Timer.heap Timer.next]. rewrite ?Nat.eqb_refl.
  reflexivity.
Qed.

(** X14: a [Timer] never prints.  Whatever its message and whatever the
    block does, the lines printed when the [with] statement is left are
    those printed when its block ended: with a message the branch that
    prints is skipped, and without one the text to print cannot be built. *)
Theorem Timer_never_prints {A} msg (block : nat -> ST (Timer.state world) A) s :
  Timer.stdout world (snd (Timer.with_Timer world perf_counter msg block s))
  = Timer.stdout world (block_end msg block s).
Proof.
  rewrite with_Timer_unfold.
  pose proof (exit_facts (Timer.next world s) (block_end msg block s)) as (H & _).
  destruct (Timer.__exit__ world perf_counter (Timer.next world s) (block_end msg block s))
    as [[[]|e'] s3]; cbn [snd] in H;
    destruct (fst (block (Timer.next world s) (block_start msg s))); exact H.
Qed.

(** X15: with the default, empty, message, leaving the [with] statement
    raises AttributeError, for [__exit__] asks the float [interval] for an
    attribute [seconds]: this happens when the block returned, and when
    the block raised its exception is replaced.  The block is any code
    that leaves the attributes of the timer alone; [end] and [interval]
    are set before the failure. *)
Theorem Timer_default_message_raises {A} (block : nat -> ST (Timer.state world) A) s :
  Timer.heap world (block_end "" block s) (Timer.next world s)
    = Timer.heap world (block_start "" s) (Timer.next world s) ->
  fst (Timer.with_Timer world perf_counter "" block s)
    = Raise (AttributeError "'float' object has no attribute 'seconds'") /\
  Timer.interval
      (Timer.heap world (snd (Timer.with_Timer world perf_counter "" block s))
                  (Timer.next world s))
    = Some (PrimFloat.sub (fst (perf_counter (Timer.env world (block_end "" block s))))
                          (fst (perf_counter (Timer.env world s)))).
Proof.
  intros Hkeep. rewrite with_Timer_unfold.
  pose proof (exit_facts (Timer.next world s) (block_end "" block s)) as (_ & _ & H).
  cbv zeta in H. rewrite Hkeep, block_start_timer in H.
  cbn [Timer.start Timer.msg String.eqb] in H. destruct H as [Hr Hh].
  destruct (Timer.__exit__ world perf_counter (Timer.next world s) (block_end "" block s))
    as [r s3]; cbn [fst snd] in Hr, Hh. subst r.
  destruct (fst (block (Timer.next world s) (block_start "" s)));
    cbn [fst snd]; rewrite Hh; split; reflexivity.
Qed.

(** X16: with a message that is not empty the timer is transparent and
    silent: the [with] statement returns what its block returns and
    raises what it raises, and afterwards [interval] is the difference of
    the clock readings taken by [__exit__] and by [__enter__].  The block
    is any code that leaves the attributes of the timer alone. *)
Theorem Timer_with_message_measures {A} msg (block : nat -> ST (Timer.state world) A) s :
  msg <> ""%string ->
  Timer.heap world (block_end msg block s) (Timer.next world s)
    = Timer.heap world (block_start msg s) (Timer.next world s) ->
  fst (Timer.with_Timer world perf_counter msg block s)
    = fst (block (Timer.next world s) (block_start msg s)) /\
  Timer.interval
      (Timer.heap world (snd (Timer.with_Timer world perf_counter msg block s))
                  (Timer.next world s))
    = Some (PrimFloat.sub (fst (perf_counter (Timer.env world (block_end msg block s))))
                          (fst (perf_counter (Timer.env world s)))).
Proof.
  intros Hmsg Hkeep. rewrite with_Timer_unfold.
  pose proof (exit_facts (Timer.next world s) (block_end msg block s)) as (_ & _ & H).
  cbv zeta in H. rewrite Hkeep, block_start_timer in H.
  cbn [Timer.start Timer.msg] in H.
  apply String.eqb_neq in Hmsg. rewrite Hmsg in H. destruct H as [Hr Hh].
  destruct (Timer.__exit__ world perf_counter (Timer.next world s) (block_end msg block s))
    as [r s3]; cbn [fst snd] in Hr, Hh. subst r.
  destruct (fst (block (Timer.next world s) (block_start msg s)));
    cbn [fst snd]; rewrite Hh; split; reflexivity.
Qed.
End TimerProperties.

(* ================================================================= *)
(** * Properties of [tqdm_joblib] *)

Section TqdmProperties.
Variable world : Type.
Variable joblib_call : Z -> world -> result unit * world.

(** The state in which the block of [with tqdm_joblib(bar)] starts. *)
Definition patched (bar : nat) (s : TqdmJoblib.state world) : TqdmJoblib.state world :=
  {| TqdmJoblib.env := TqdmJoblib.env world s;
     TqdmJoblib.BatchCompletionCallBack :=
       TqdmJoblib.TqdmBatchCompletionCallback bar
         (TqdmJoblib.BatchCompletionCallBack world s);
     TqdmJoblib.bars := TqdmJoblib.bars world s |}.

(** A class reports to [bar]: it is, or extends, a subclass made for it. *)
Fixpoint reports_to (bar : nat) (cls : TqdmJoblib.callback) : bool :=
  match cls with
  | TqdmJoblib.JoblibCallBack => false
  | TqdmJoblib.TqdmBatchCompletionCallback b base => (b =? bar) || reports_to bar base
  end.

(** X17: [tqdm_joblib] puts back what it replaced.  Whatever the block
    does, even when it raises or assigns the attribute itself, after the
    [with] statement [joblib.parallel.BatchCompletionCallBack] is the class
    it was before, the bar is closed, its counter is as the block left
    it, and the statement returns or raises what the block did. *)
Theorem tqdm_joblib_restores {A} bar (block : nat -> ST (TqdmJoblib.state world) A) s :
  TqdmJoblib.BatchCompletionCallBack world (snd (TqdmJoblib.tqdm_joblib world bar block s))
    = TqdmJoblib.BatchCompletionCallBack world s /\
  TqdmJoblib.disable
      (TqdmJoblib.bars world (snd (TqdmJoblib.tqdm_joblib world bar block s)) bar) = true /\
  TqdmJoblib.n (TqdmJoblib.bars world (snd (TqdmJoblib.tqdm_joblib world bar block s)) bar)
    = TqdmJoblib.n (TqdmJoblib.bars world (snd (block bar (patched bar s))) bar) /\
  TqdmJoblib.env world (snd (TqdmJoblib.tqdm_joblib world bar block s))
    = TqdmJoblib.env world (snd (block bar (patched bar s))) /\
  fst (TqdmJoblib.tqdm_joblib world bar block s) = fst (block bar (patched bar s)).
Proof.
  unfold TqdmJoblib.tqdm_joblib, TqdmJoblib.set_callback, TqdmJoblib.close, st_bind.
  fold (patched bar s).
  destruct (block bar (patched bar s)) as [r s2].
  cbn [fst snd TqdmJoblib.BatchCompletionCallBack TqdmJoblib.bars TqdmJoblib.env].
  rewrite Nat.eqb_refl. repeat split; reflexivity.
Qed.

(** Two states that differ in the bar [bar] at most. *)
Definition same_but (bar : nat) (sp su : TqdmJoblib.state world) : Prop :=
  TqdmJoblib.env world sp = TqdmJoblib.env world su /\
  forall r, r <> bar -> TqdmJoblib.bars world sp r = TqdmJoblib.bars world su r.

Lemma update_other bar b k (sp su : TqdmJoblib.state world) :
  b <> bar -> same_but bar sp su ->
  same_but bar (snd (TqdmJoblib.update world b k sp)) (snd (TqdmJoblib.update world b k su)) /\
  TqdmJoblib.bars world (snd (TqdmJoblib.update world b k sp)) bar
    = TqdmJoblib.bars world sp bar /\
  TqdmJoblib.BatchCompletionCallBack world (snd (TqdmJoblib.update world b k sp))
    = TqdmJoblib.BatchCompletionCallBack world sp.
Proof.
  intros Hb [He Hr]. unfold same_but, TqdmJoblib.update.
  cbn [snd TqdmJoblib.env TqdmJoblib.bars TqdmJoblib.BatchCompletionCallBack].
  split; [split; [exact He|]|split; [|reflexivity]].
  - intros r Hne. rewrite (Hr r Hne). reflexivity.
  - destruct (Nat.eqb_spec bar b) as [E|E]; [congruence | reflexivity].
Qed.

Lemma call_same_but bar cls k : forall sp su : TqdmJoblib.state world,
  reports_to bar cls = false -> same_but bar sp su ->
  fst (TqdmJoblib.__call__ world joblib_call cls k sp)
    = fst (TqdmJoblib.__call__ world joblib_call cls k su) /\
  same_but bar (snd (TqdmJoblib.__call__ world joblib_call cls k sp))
           (snd (TqdmJoblib.__call__ world joblib_call cls k su)) /\
  TqdmJoblib.bars world (snd (TqdmJoblib.__call__ world joblib_call cls k sp)) bar
    = TqdmJoblib.bars world sp bar /\
  TqdmJoblib.BatchCompletionCallBack world
      (snd (TqdmJoblib.__call__ world joblib_call cls k sp))
    = TqdmJoblib.BatchCompletionCallBack world sp.
Proof.
  induction cls as [|b base IH]; intros sp su Hrep Hsame.
  - cbn [TqdmJoblib.__call__]. destruct Hsame as [He Hr]. rewrite He.
    destruct (joblib_call k (TqdmJoblib.env world su)) as [r w].
    cbn [fst snd]. repeat split; try reflexivity.
    intros r0 Hne. cbn [TqdmJoblib.bars]. apply Hr. exact Hne.
  - cbn [reports_to] in Hrep. apply orb_false_iff in Hrep as [Hb Hrep].
    apply Nat.eqb_neq in Hb.
    cbn [TqdmJoblib.__call__]. unfold st_bind.
    destruct (update_other bar b k sp su Hb Hsame) as (Hs1 & Hb1 & Hc1).
    change (TqdmJoblib.update world b k sp)
      with (@Ok unit tt, snd (TqdmJoblib.update world b k sp)).
    change (TqdmJoblib.update world b k su)
      with (@Ok unit tt, snd (TqdmJoblib.update world b k su)).
    cbv beta iota.
    destruct (IH _ _ Hrep Hs1) as (H1 & H2 & H3 & H4).
    split; [exact H1|]. split; [exact H2|]. split; [rewrite H3; exact Hb1|].
    rewrite H4. exact Hc1.
Qed.

Lemma batches_counted bar base sizes : forall (sp su : TqdmJoblib.state world),
  reports_to bar base = false ->
  same_but bar sp su ->
  TqdmJoblib.BatchCompletionCallBack world sp
    = TqdmJoblib.TqdmBatchCompletionCallback bar base ->
  TqdmJoblib.BatchCompletionCallBack world su = base ->
  TqdmJoblib.disable (TqdmJoblib.bars world sp bar) = false ->
  let '(rp, sp') := TqdmJoblib.complete_batches world joblib_call sizes sp in
  let '(ru, su') := TqdmJoblib.complete_batches world joblib_call sizes su in
  rp = ru /\
  TqdmJoblib.env world sp' = TqdmJoblib.env world su' /\
  (ru = Ok tt ->
   TqdmJoblib.n (TqdmJoblib.bars world sp' bar)
     = (TqdmJoblib.n (TqdmJoblib.bars world sp bar) + sumZ sizes)%Z).
Proof.
  induction sizes as [|k rest IH]; intros sp su Hrep Hsame Hcp Hcu Hopen.
  - cbn [TqdmJoblib.complete_batches st_ret sumZ fold_right].
    split; [reflexivity|]. split; [apply Hsame|]. intros _. rewrite Z.add_0_r. reflexivity.
  - cbn [TqdmJoblib.complete_batches]. unfold st_bind, TqdmJoblib.complete_batch.
    rewrite Hcp, Hcu. cbn [TqdmJoblib.__call__]. unfold st_bind.
    set (sp1 := snd (TqdmJoblib.update world bar k sp)).
    change (TqdmJoblib.update world bar k sp) with (@Ok unit tt, sp1). cbv beta iota.
    assert (Hs1 : same_but bar sp1 su).
    { destruct Hsame as [He Hr]. split; [exact He|]. intros r Hne.
      unfold sp1, TqdmJoblib.update. cbn [snd TqdmJoblib.bars].
      apply Nat.eqb_neq in Hne. rewrite Hne. cbn [andb]. apply Hr.
      apply Nat.eqb_neq. exact Hne. }
    assert (Hn1 : TqdmJoblib.bars world sp1 bar
                  = {| TqdmJoblib.n := (TqdmJoblib.n (TqdmJoblib.bars world sp bar) + k)%Z;
                       TqdmJoblib.disable := false |}).
    { unfold sp1, TqdmJoblib.update. cbn [snd TqdmJoblib.bars].
      rewrite Nat.eqb_refl, Hopen. reflexivity. }
    assert (Hc1 : TqdmJoblib.BatchCompletionCallBack world sp1
                  = TqdmJoblib.TqdmBatchCompletionCallback bar base) by exact Hcp.
    destruct (call_same_but bar base k sp1 su Hrep Hs1) as (H1 & H2 & H3 & H4).
    assert (H5 : TqdmJoblib.BatchCompletionCallBack world
                   (snd (TqdmJoblib.__call__ world joblib_call base k su)) = base).
    { destruct (call_same_but bar base k su su Hrep) as (_ & _ & _ & H5).
      - split; [reflexivity | intros; reflexivity].
      - rewrite H5. exact Hcu. }
    destruct (TqdmJoblib.__call__ world joblib_call base k sp1) as [rp sp2].
    destruct (TqdmJoblib.__call__ world joblib_call base k su) as [ru su2].
    cbn [fst snd] in *. subst rp. destruct ru as [[]|e]; cbv beta iota.
    + assert (Hc2 : TqdmJoblib.BatchCompletionCallBack world sp2
                    = TqdmJoblib.TqdmBatchCompletionCallback bar base)
        by (rewrite H4; exact Hc1).
      assert (Ho2 : TqdmJoblib.disable (TqdmJoblib.bars world sp2 bar) = false)
        by (rewrite H3, Hn1; reflexivity).
      specialize (IH sp2 su2 Hrep H2 Hc2 H5 Ho2).
      destruct (TqdmJoblib.complete_batches world joblib_call rest sp2) as [rp sp3].
      destruct (TqdmJoblib.complete_batches world joblib_call rest su2) as [ru su3].
      destruct IH as (G1 & G2 & G3).
      split; [exact G1|]. split; [exact G2|]. intros Hok. rewrite (G3 Hok), H3, Hn1.
      cbn [TqdmJoblib.n sumZ fold_right]. fold (sumZ rest). ring.
    + split; [reflexivity|]. split; [apply H2|]. discriminate.
Qed.

Lemma tqdm_joblib_restores_aux bar sizes (s : TqdmJoblib.state world) :
  fst (TqdmJoblib.tqdm_joblib world bar
         (fun _ => TqdmJoblib.complete_batches world joblib_call sizes) s)
    = fst (TqdmJoblib.complete_batches world joblib_call sizes (patched bar s)) /\
  TqdmJoblib.env world
      (snd (TqdmJoblib.tqdm_joblib world bar
              (fun _ => TqdmJoblib.complete_batches world joblib_call sizes) s))
    = TqdmJoblib.env world
        (snd (TqdmJoblib.complete_batches world joblib_call sizes (patched bar s))) /\
  TqdmJoblib.n
      (TqdmJoblib.bars world
         (snd (TqdmJoblib.tqdm_joblib world bar
                 (fun _ => TqdmJoblib.complete_batches world joblib_call sizes) s)) bar)
    = TqdmJoblib.n
        (TqdmJoblib.bars world
           (snd (TqdmJoblib.complete_batches world joblib_call sizes (patched bar s))) bar).
Proof.
  unfold TqdmJoblib.tqdm_joblib, TqdmJoblib.set_callback, TqdmJoblib.close, st_bind.
  fold (patched bar s).
  destruct (TqdmJoblib.complete_batches world joblib_call sizes (patched bar s)) as [r s2].
  cbn [fst snd TqdmJoblib.BatchCompletionCallBack TqdmJoblib.bars TqdmJoblib.env].
  rewrite Nat.eqb_refl. repeat split; reflexivity.
Qed.

(** X18: inside the [with] statement every completed batch is reported:
    for batches of sizes [k1, ..., km] completing one after the other in
    the block, joblib's own callbacks do what they do without the progress
    bar, with the same outcome, and when they all return the counter of
    the bar has advanced by [k1 + ... + km].  The bar is one that is open
    and to which the class found in [joblib.parallel] does not report
    yet. *)
Theorem tqdm_joblib_reports_batches bar sizes (s : TqdmJoblib.state world) :
  TqdmJoblib.disable (TqdmJoblib.bars world s bar) = false ->
  reports_to bar (TqdmJoblib.BatchCompletionCallBack world s) = false ->
  fst (TqdmJoblib.tqdm_joblib world bar
         (fun _ => TqdmJoblib.complete_batches world joblib_call sizes) s)
    = fst (TqdmJoblib.complete_batches world joblib_call sizes s) /\
  TqdmJoblib.env world
      (snd (TqdmJoblib.tqdm_joblib world bar
              (fun _ => TqdmJoblib.complete_batches world joblib_call sizes) s))
    = TqdmJoblib.env world (snd (TqdmJoblib.complete_batches world joblib_call sizes s)) /\
  (fst (TqdmJoblib.complete_batches world joblib_call sizes s) = Ok tt ->
   TqdmJoblib.n
       (TqdmJoblib.bars world
          (snd (TqdmJoblib.tqdm_joblib world bar
                  (fun _ => TqdmJoblib.complete_batches world joblib_call sizes) s)) bar)
     = (TqdmJoblib.n (TqdmJoblib.bars world s bar) + sumZ sizes)%Z).
Proof.
  intros Hopen Hrep.
  destruct (tqdm_joblib_restores_aux bar sizes s) as (R1 & R2 & R3).
  rewrite R1, R2, R3.
  assert (Hsame : same_but bar (patched bar s) s)
    by (split; [reflexivity | intros; reflexivity]).
  pose proof (batches_counted bar (TqdmJoblib.BatchCompletionCallBack world s) sizes
                              (patched bar s) s Hrep Hsame eq_refl eq_refl Hopen) as H.
  destruct (TqdmJoblib.complete_batches world joblib_call sizes (patched bar s)) as [rp sp'].
  destruct (TqdmJoblib.complete_batches world joblib_call sizes s) as [ru su'].
  exact H.
Qed.
End TqdmProperties.

(* ================================================================= *)
(** * Properties of [NpEncoder] *)

Module NpEncoderProperties.
Import NpEncoder.

(** The value with its numpy parts replaced by the Python values that
    [default] returns for them. *)
Fixpoint to_python (obj : pyobj) : pyobj :=
  match obj with
  | PyList items => PyList (map to_python items)
  | PyDict items => PyDict (map (fun kv => (fst kv, to_python (snd kv))) items)
  | NpInteger _ z => PyInt z
  | NpFloating _ x => PyFloat x
  | NpArray a => tolist a
  | _ => obj
  end.

(** The depth of recursion that encoding a value takes. *)
Fixpoint nd_cost (a : ndarray) : nat :=
  match a with
  | Item _ => 1
  | Axis rows => S (fold_right (fun r m => Nat.max (nd_cost r) m) 0 rows)
  end.

Fixpoint cost (obj : pyobj) : nat :=
  match obj with
  | PyList items => S (fold_right (fun x m => Nat.max (cost x) m) 0 items)
  | PyDict items => S (fold_right (fun kv m => Nat.max (cost (snd kv)) m) 0 items)
  | NpInteger _ _ | NpFloating _ _ => 2
  | NpArray a => S (nd_cost a)
  | _ => 1
  end.

(** No instance of another class occurs in the value. *)
Fixpoint supported (obj : pyobj) : bool :=
  match obj with
  | PyList items => forallb supported items
  | PyDict items => forallb (fun kv => supported (snd kv)) items
  | PyObject _ => false
  | _ => true
  end.

(** The document for an array. *)
Fixpoint nd_json (a : ndarray) : json :=
  match a with
  | Item (SBool b) => JBool b
  | Item (SInt z) => JInt z
  | Item (SFloat x) => JFloat x
  | Axis rows => JArray (map nd_json rows)
  end.

Lemma all_ok_ext {A B} (f g : A -> result B) l :
  (forall a, In a l -> f a = g a) -> all_ok f l = all_ok g l.
Proof.
  induction l as [|a l IH]; intros H; [reflexivity|].
  cbn [all_ok]. rewrite (H a (or_introl eq_refl)), IH; [reflexivity|].
  intros; apply H; now right.
Qed.

Lemma all_ok_map {A B C} (f : B -> result C) (g : A -> B) l :
  all_ok f (map g l) = all_ok (fun a => f (g a)) l.
Proof.
  induction l as [|a l IH]; [reflexivity|]. cbn [map all_ok]. rewrite IH. reflexivity.
Qed.

Lemma all_ok_total {A B} (f : A -> result B) (g : A -> B) l :
  (forall a, In a l -> f a = Ok (g a)) -> all_ok f l = Ok (map g l).
Proof.
  induction l as [|a l IH]; intros H; [reflexivity|].
  cbn [all_ok map]. rewrite (H a (or_introl eq_refl)), IH; [reflexivity|].
  intros; apply H; now right.
Qed.

Lemma all_ok_iff {A B} (f : A -> result B) (p : A -> bool) l :
  (forall a, In a l -> (exists b, f a = Ok b) <-> p a = true) ->
  (exists bs, all_ok f l = Ok bs) <-> forallb p l = true.
Proof.
  induction l as [|a l IH]; intros H.
  - split; [reflexivity | intros _; exists []; reflexivity].
  - cbn [all_ok forallb]. rewrite andb_true_iff.
    rewrite <- (H a (or_introl eq_refl)), <- IH by (intros; apply H; now right).
    split.
    + intros [bs Hbs]. destruct (f a) as [b|e]; [|discriminate].
      destruct (all_ok f l) as [bs'|e]; [|discriminate]. eauto.
    + intros [[b Hb] [bs Hbs]]. rewrite Hb, Hbs. cbn [rbind]. eauto.
Qed.

Lemma max_le_all {A} (c : A -> nat) l d a :
  fold_right (fun x m => Nat.max (c x) m) 0 l <= d -> In a l -> c a <= d.
Proof.
  induction l as [|x l IH]; intros H Hin; [destruct Hin|].
  cbn [fold_right] in H. destruct Hin as [->|Hin].
  - exact (Nat.le_trans _ _ _ (Nat.le_max_l _ _) H).
  - apply IH; [|exact Hin]. exact (Nat.le_trans _ _ _ (Nat.le_max_r _ _) H).
Qed.

Lemma nd_cost_pos a : 1 <= nd_cost a.
Proof. destruct a; cbn [nd_cost]; [apply Nat.le_refl | apply le_n_S, Nat.le_0_l]. Qed.

Lemma cost_pos obj : 1 <= cost obj.
Proof.
  destruct obj; cbn [cost]; try apply Nat.le_refl; try (apply le_n_S, Nat.le_0_l).
Qed.

(** An array converted to lists is encoded by the encoder alone. *)
Lemma encode_tolist f : forall d a,
  nd_cost a <= d -> encode f d (tolist a) = Ok (nd_json a).
Proof.
  induction d as [|d IH]; intros a H.
  - exfalso. pose proof (nd_cost_pos a) as P.
    exact (Nat.lt_irrefl _ (Nat.lt_le_trans _ _ _ P H)).
  - destruct a as [[b|z|x]|rows]; try reflexivity.
    cbn [tolist nd_cost] in *. apply le_S_n in H. cbn [encode].
    rewrite all_ok_map, (all_ok_total _ nd_json); [reflexivity|].
    intros r Hr. apply IH. exact (max_le_all nd_cost rows d r H Hr).
Qed.

(** X19: [NpEncoder] makes the numpy values look like Python values and
    changes nothing else.  When the depth of recursion suffices, encoding
    a value with [NpEncoder] gives what [json] alone gives for the value in
    which every numpy integer or floating number is replaced by the Python
    number, and every array by its nested lists: the same document, or
    the same TypeError for the first value of another class. *)
Theorem NpEncoder_converts : forall depth obj,
  cost obj <= depth ->
  encode default depth obj = encode JSONEncoder_default depth (to_python obj).
Proof.
  induction depth as [|d IH]; intros obj H.
  - exfalso. pose proof (cost_pos obj) as P.
    exact (Nat.lt_irrefl _ (Nat.lt_le_trans _ _ _ P H)).
  - destruct obj as [ |b|z|x|s|items|items|cls z|cls x|a|cls]; try reflexivity.
    + cbn [cost] in H. apply le_S_n in H. cbn [to_python encode].
      rewrite all_ok_map. rewrite (all_ok_ext (encode default d)
                                     (fun a => encode JSONEncoder_default d (to_python a)));
        [reflexivity|].
      intros a Ha. apply IH. exact (max_le_all cost items d a H Ha).
    + cbn [cost] in H. apply le_S_n in H. cbn [to_python encode].
      rewrite all_ok_map.
      rewrite (all_ok_ext
                 (fun kv => v <-- encode default d (snd kv) ;; Ok (fst kv, v))
                 (fun kv => v <-- encode JSONEncoder_default d
                                    (snd (fst kv, to_python (snd kv))) ;;
                            Ok (fst (fst kv, to_python (snd kv)), v)));
        [reflexivity|].
      intros kv Hkv. cbn [fst snd]. rewrite IH; [reflexivity|].
      exact (max_le_all (fun kv => cost (snd kv)) items d kv H Hkv).
    + cbn [cost] in H. apply le_S_n in H. destruct d as [|d]; [inversion H|]. reflexivity.
    + cbn [cost] in H. apply le_S_n in H. destruct d as [|d]; [inversion H|]. reflexivity.
    + cbn [cost] in H. apply le_S_n in H. cbn [to_python].
      change (encode default (S d) (NpArray a)) with (encode default d (tolist a)).
      rewrite (encode_tolist default d a H).
      rewrite (encode_tolist JSONEncoder_default (S d) a (Nat.le_trans _ _ _ H (Nat.le_succ_diag_r d))).
      reflexivity.
Qed.

(** X20: when the depth of recursion suffices, [NpEncoder] encodes a value
    if and only if no instance of a class other than the numpy integers,
    floating numbers and arrays occurs in it among what [json] encodes by
    itself.  A numpy boolean or complex number outside an array is such an
    instance: it makes the encoding fail, though an array of booleans is
    encoded. *)
Theorem NpEncoder_encodes_iff : forall depth obj,
  cost obj <= depth ->
  (exists doc, encode default depth obj = Ok doc) <-> supported obj = true.
Proof.
  induction depth as [|d IH]; intros obj H.
  - exfalso. pose proof (cost_pos obj) as P.
    exact (Nat.lt_irrefl _ (Nat.lt_le_trans _ _ _ P H)).
  - destruct obj as [ |b|z|x|s|items|items|cls z|cls x|a|cls];
      try (split; [reflexivity | intros _; eexists; reflexivity]).
    + cbn [cost] in H. apply le_S_n in H. cbn [supported encode].
      rewrite <- (all_ok_iff (encode default d) supported items).
      * split.
        -- intros [doc Hd]. destruct (all_ok (encode default d) items) as [l|e];
             [eauto | discriminate].
        -- intros [l Hl]. rewrite Hl. eexists. reflexivity.
      * intros a Ha. apply IH. exact (max_le_all cost items d a H Ha).
    + cbn [cost] in H. apply le_S_n in H. cbn [supported encode].
      rewrite <- (all_ok_iff (fun kv => v <-- encode default d (snd kv) ;; Ok (fst kv, v))
                              (fun kv => supported (snd kv)) items).
      * split.
        -- intros [doc Hd].
           destruct (all_ok (fun kv => v <-- encode default d (snd kv) ;; Ok (fst kv, v))
                            items) as [l|e]; [eauto | discriminate].
        -- intros [l Hl]. rewrite Hl. eexists. reflexivity.
      * intros kv Hkv.
        rewrite <- (IH (snd kv) (max_le_all (fun kv => cost (snd kv)) items d kv H Hkv)).
        split.
        -- intros [b Hb]. destruct (encode default d (snd kv)) as [v|e];
             [eauto | discriminate].
        -- intros [v Hv]. rewrite Hv. eexists. reflexivity.
    + cbn [cost] in H. apply le_S_n in H. destruct d as [|d]; [inversion H|].
      split; [reflexivity | intros _; eexists; reflexivity].
    + cbn [cost] in H. apply le_S_n in H. destruct d as [|d]; [inversion H|].
      split; [reflexivity | intros _; eexists; reflexivity].
    + cbn [cost] in H. apply le_S_n in H.
      change (encode default (S d) (NpArray a)) with (encode default d (tolist a)).
      rewrite (encode_tolist default d a H).
      split; [reflexivity | intros _; eexists; reflexivity].
    + split; [intros [doc Hd]; discriminate Hd | discriminate].
Qed.

End NpEncoderProperties.

(* ================================================================= *)
(** * Further runs of the fixture *)

Arguments cv {world estimator value}.
Arguments random_state {world estimator value}.
Arguments kwargs {world estimator value}.
Arguments keys {value}.
Arguments raised_by_estimator {sample world estimator value}.
Arguments eval_raises {sample world estimator value}.
Arguments count_calls {value}.
Arguments is_construct {value}.
Arguments is_fit {value}.
Arguments is_predict {value}.
Arguments is_score {value}.
Arguments with_keyword {value}.
Arguments without_keyword {value}.
Arguments refused {value}.

(** A grid that lists no value for its key. *)
Definition self_empty : gridsearch nat Z Z := search accuracy []%Z.

(** A search whose [kwargs] repeat the key of the grid. *)
Definition self_dup : gridsearch nat Z Z :=
  {| method := thr_init;
     grid_params := [("threshold"%string, [2; 4]%Z)];
     scoring := accuracy;
     cv := 2; n_jobs := (-1)%Z; random_state := 1234%Z;
     kwargs := Some [("threshold"%string, 3%Z)] |}.

(** The two folds of the six samples. *)
Definition F6 : list fold := [([1; 3; 5], [0; 2; 4]); ([0; 2; 4], [1; 3; 5])].

Lemma split6 shuffle seed : skf_split deal 2 shuffle seed X6 y6 = Ok F6.
Proof. reflexivity. Qed.

Lemma deal6 shuffle seed tf :
  deal 2 shuffle seed y6 = Ok tf -> length tf = length y6 /\ Forall (fun f => f < 2) tf.
Proof.
  intros H. vm_compute in H. injection H as <-. split; [reflexivity|]. repeat constructor.
Qed.

Lemma run_neg_raises :
  fst (run_fit thr_fit self_neg [0; 0; 0] (fresh 0)) = Raise (ValueError "negative threshold").
Proof. vm_compute. reflexivity. Qed.


(** An instance of X2: three candidates on two folds. *)
Lemma fit_call_counts_witness :
  fst (run_fit thr_fit self3 [1; 0] (fresh 0)) = Ok tt /\
  exists rs ext,
    scoring_results_ (snd (run_fit thr_fit self3 [1; 0] (fresh 0))) = Some rs /\
    Forall (fun r => length (r_scores r) = 2) rs /\
    trace (snd (run_fit thr_fit self3 [1; 0] (fresh 0))) = [] ++ ext /\
    count_calls is_construct ext = 3 /\
    count_calls is_fit ext = 3 * 2 /\
    count_calls is_predict ext = 3 * 2 /\
    count_calls is_score ext = 3 * 2.
Proof.
  split; [exact run3_ok|].
  exact (fit_call_counts Z nat Z Z thr_fit thr_predict deal mean std self3 X6 y6
                         [1; 0] (fresh 0) run3_ok).
Defined.



(** An instance of X5. *)
Lemma train_test_split_partitions_witness :
  ((forall tf, deal (cv self3) true (Some (random_state self3)) y6 = Ok tf ->
               length tf = length y6 /\ Forall (fun f => f < cv self3) tf) /\
   fst (_train_test_split deal self3 X6 y6 (fresh 0)) = Ok F6) /\
  length F6 = cv self3 /\
  (forall f, In f F6 ->
     Permutation (fst f ++ snd f) (seq 0 (length X6)) /\
     forall i, In i (fst f) -> ~ In i (snd f)) /\
  (forall i, i < length X6 ->
     exists j f, nth_error F6 j = Some f /\ In i (snd f) /\
                 forall j' f', nth_error F6 j' = Some f' -> In i (snd f') -> j' = j).
Proof.
  split; [split; [exact (deal6 true (Some 1234%Z)) | reflexivity]|].
  exact (train_test_split_partitions Z nat Z Z deal self3 X6 y6 (fresh 0) F6
                                     (deal6 true (Some 1234%Z)) eq_refl).
Defined.

Lemma skftp_neg_raises :
  fst (StratifiedKFoldTestPredictions thr_fit thr_predict deal (fun _ => 7%Z)
         X6 y6 (-1)%Z 2 (-1)%Z (fresh 0 : store nat Z))
  = Raise (ValueError "negative threshold").
Proof. vm_compute. reflexivity. Qed.

Lemma skftp_returns :
  fst (StratifiedKFoldTestPredictions thr_fit thr_predict deal (fun _ => 7%Z)
         X6 y6 4%Z 2 (-1)%Z (fresh 0 : store nat Z))
  = Ok [0; 0; 0; 1; 1; 1]%Z.
Proof. vm_compute. reflexivity. Qed.


(** An instance of X7. *)
Lemma skftp_call_counts_witness :
  fst (StratifiedKFoldTestPredictions thr_fit thr_predict deal (fun _ => 7%Z)
         X6 y6 4%Z 2 (-1)%Z (fresh 0 : store nat Z))
    = Ok [0; 0; 0; 1; 1; 1]%Z /\
  exists F ext,
    trace (snd (StratifiedKFoldTestPredictions thr_fit thr_predict deal (fun _ => 7%Z)
                  X6 y6 4%Z 2 (-1)%Z (fresh 0 : store nat Z)))
      = [] ++ EvSplit Z (Ok F) :: ext /\
    length F = 2 /\
    count_calls is_predict ext = 2 /\
    count_calls with_keyword ext = 2 /\
    count_calls without_keyword ext = count_calls refused ext.
Proof.
  split; [exact skftp_returns|].
  exact (skftp_call_counts Z nat Z Z thr_fit thr_predict deal (fun _ => 7%Z)
                           X6 y6 4%Z 2 (-1)%Z (fresh 0) _ skftp_returns).
Defined.

(** An instance of X9: every sample is predicted positive. *)
Lemma scaled_mcc_single_class_witness :
  (length [0; 1; 1; 0]%Z = length [1; 1; 1; 1]%Z /\
   forall x, In x [1; 1; 1; 1]%Z -> x = 1%Z) /\
  scaled_mcc [0; 1; 1; 0]%Z [1; 1; 1; 1]%Z = Ok (1 / 2)%R.
Proof.
  assert (H : forall x, In x [1; 1; 1; 1]%Z -> x = 1%Z).
  { intros x [<-|[<-|[<-|[<-|[]]]]]; reflexivity. }
  split; [split; [reflexivity | exact H]|].
  exact (scaled_mcc_single_class [0; 1; 1; 0]%Z [1; 1; 1; 1]%Z 1%Z eq_refl (or_introl H)).
Defined.

(** An instance of X10. *)
Lemma scaled_mcc_inverted_witness :
  (0%Z <> 1%Z /\ In 0%Z [0; 1; 1]%Z /\ In 1%Z [0; 1; 1]%Z /\
   forall x, In x [0; 1; 1]%Z -> x = 0%Z \/ x = 1%Z) /\
  scaled_mcc [0; 1; 1]%Z (map (fun x => if (x =? 0)%Z then 1%Z else 0%Z) [0; 1; 1]%Z)
    = Ok 0%R.
Proof.
  assert (H0 : 0%Z <> 1%Z) by discriminate.
  assert (H1 : In 0%Z [0; 1; 1]%Z) by (left; reflexivity).
  assert (H2 : In 1%Z [0; 1; 1]%Z) by (right; left; reflexivity).
  assert (H3 : forall x, In x [0; 1; 1]%Z -> x = 0%Z \/ x = 1%Z).
  { intros x [<-|[<-|[<-|[]]]]; auto. }
  split; [repeat split; assumption|].
  exact (scaled_mcc_inverted [0; 1; 1]%Z 0%Z 1%Z H0 H1 H2 H3).
Defined.

(** An instance of X11: the classes 1 and 2 in place of 0 and 1. *)
Lemma confusion_matrix_relabel_witness :
  (forall a b, (a < b)%Z -> (Z.succ a < Z.succ b)%Z) /\
  confusion_matrix (map Z.succ [0; 0; 1]%Z) (map Z.succ [0; 1; 0]%Z) true
    = confusion_matrix [0; 0; 1]%Z [0; 1; 0]%Z true.
Proof.
  assert (H : forall a b, (a < b)%Z -> (Z.succ a < Z.succ b)%Z)
    by (intros a b; apply Z.succ_lt_mono).
  split; [exact H|].
  exact (confusion_matrix_relabel Z.succ H [0; 0; 1]%Z [0; 1; 0]%Z true).
Defined.

(** An instance of X12. *)
Lemma confusion_matrix_transpose_witness :
  exists cm,
    confusion_matrix [0; 0; 1]%Z [0; 1; 0]%Z false = Ok cm /\
    exists cm', confusion_matrix [0; 1; 0]%Z [0; 0; 1]%Z false = Ok cm' /\
                forall i j, cell cm' i j = cell cm j i.
Proof.
  eexists. split; [vm_compute; reflexivity|].
  apply (confusion_matrix_transpose [0; 0; 1]%Z [0; 1; 0]%Z false).
  vm_compute. reflexivity.
Defined.

(** An instance of X13. *)
Lemma confusion_matrix_entries_witness :
  exists cm,
    confusion_matrix [0; 0; 1]%Z [0; 1; 0]%Z true = Ok cm /\
    Forall (Forall (fun q => (0 <= q <= 1)%Q)) (df_values cm) /\
    (cell cm 2 2 == 1)%Q.
Proof.
  eexists. split; [vm_compute; reflexivity|].
  apply (confusion_matrix_entries [0; 0; 1]%Z [0; 1; 0]%Z true).
  vm_compute. reflexivity.
Defined.

(* ================================================================= *)
(** * Runs of the context managers and of the encoder *)

(** A clock that reads its times off a list. *)
Definition clock (w : list float) : float * list float := (hd 0%float w, tl w).

(** No timer yet, nothing printed, and a clock that will read 1.5 and 4. *)
Definition timer_state0 : Timer.state (list float) :=
  {| Timer.env := [1.5; 4]%float;
     Timer.stdout := [];
     Timer.heap := fun _ => {| Timer.msg := ""; Timer.start := None; Timer.end_ := None;
                               Timer.interval := None |};
     Timer.next := 0 |}.

(** A block that returns 5 and touches nothing. *)
Definition five : nat -> ST (Timer.state (list float)) nat := fun _ s => (Ok 5, s).

(** An instance of X15. *)
Lemma Timer_default_message_raises_witness :
  Timer.heap _ (block_end (list float) clock "" five timer_state0) 0
    = Timer.heap _ (block_start (list float) clock "" timer_state0) 0 /\
  fst (Timer.with_Timer (list float) clock "" five timer_state0)
    = Raise (AttributeError "'float' object has no attribute 'seconds'") /\
  Timer.interval
      (Timer.heap _ (snd (Timer.with_Timer (list float) clock "" five timer_state0)) 0)
    = Some 2.5%float.
Proof.
  split; [reflexivity|].
  exact (Timer_default_message_raises (list float) clock five timer_state0 eq_refl).
Defined.

(** An instance of X16. *)
Lemma Timer_with_message_measures_witness :
  ("fit"%string <> ""%string /\
   Timer.heap _ (block_end (list float) clock "fit" five timer_state0) 0
     = Timer.heap _ (block_start (list float) clock "fit" timer_state0) 0) /\
  fst (Timer.with_Timer (list float) clock "fit" five timer_state0) = Ok 5 /\
  Timer.interval
      (Timer.heap _ (snd (Timer.with_Timer (list float) clock "fit" five timer_state0)) 0)
    = Some 2.5%float.
Proof.
  assert (H : "fit"%string <> ""%string) by discriminate.
  split; [split; [exact H | reflexivity]|].
  exact (Timer_with_message_measures (list float) clock "fit" five timer_state0 H eq_refl).
Defined.

(** joblib counting the batches it has seen. *)
Definition count_batches (batch_size : Z) (w : nat) : result unit * nat := (Ok tt, S w).

(** joblib as imported, and open progress bars at 0. *)
Definition joblib_state0 : TqdmJoblib.state nat :=
  {| TqdmJoblib.env := 0;
     TqdmJoblib.BatchCompletionCallBack := TqdmJoblib.JoblibCallBack;
     TqdmJoblib.bars := fun _ => {| TqdmJoblib.n := 0; TqdmJoblib.disable := false |} |}.

(** An instance of X18: three batches of 1, 2 and 1 tasks. *)
Lemma tqdm_joblib_reports_batches_witness :
  (TqdmJoblib.disable (TqdmJoblib.bars _ joblib_state0 0) = false /\
   reports_to 0 (TqdmJoblib.BatchCompletionCallBack _ joblib_state0) = false) /\
  fst (TqdmJoblib.tqdm_joblib nat 0
         (fun _ => TqdmJoblib.complete_batches nat count_batches [1; 2; 1]%Z) joblib_state0)
    = fst (TqdmJoblib.complete_batches nat count_batches [1; 2; 1]%Z joblib_state0) /\
  TqdmJoblib.env _
      (snd (TqdmJoblib.tqdm_joblib nat 0
              (fun _ => TqdmJoblib.complete_batches nat count_batches [1; 2; 1]%Z)
              joblib_state0))
    = TqdmJoblib.env _
        (snd (TqdmJoblib.complete_batches nat count_batches [1; 2; 1]%Z joblib_state0)) /\
  (fst (TqdmJoblib.complete_batches nat count_batches [1; 2; 1]%Z joblib_state0) = Ok tt ->
   TqdmJoblib.n
       (TqdmJoblib.bars _
          (snd (TqdmJoblib.tqdm_joblib nat 0
                  (fun _ => TqdmJoblib.complete_batches nat count_batches [1; 2; 1]%Z)
                  joblib_state0)) 0)
     = (0 + sumZ [1; 2; 1])%Z).
Proof.
  split; [split; reflexivity|].
  exact (tqdm_joblib_reports_batches nat count_batches 0 [1; 2; 1]%Z joblib_state0
                                     eq_refl eq_refl).
Defined.

(** A dictionary with an array of integers and a numpy float. *)
Definition report : NpEncoder.pyobj :=
  NpEncoder.PyDict
    [("folds"%string,
      NpEncoder.NpArray
        (NpEncoder.Axis [NpEncoder.Item (NpEncoder.SInt 1); NpEncoder.Item (NpEncoder.SInt 2)]));
     ("score"%string, NpEncoder.NpFloating "float32" 0.5%float)].

(** A list with a numpy integer and a numpy boolean. *)
Definition flags : NpEncoder.pyobj :=
  NpEncoder.PyList [NpEncoder.NpInteger "int64" 3; NpEncoder.PyObject "bool_"].

Lemma report_cost : NpEncoderProperties.cost report <= 5.
Proof. apply Nat.leb_le. reflexivity. Qed.

Lemma flags_cost : NpEncoderProperties.cost flags <= 5.
Proof. apply Nat.leb_le. reflexivity. Qed.

(** An instance of X19. *)
Lemma NpEncoder_converts_witness :
  NpEncoderProperties.cost report <= 5 /\
  NpEncoder.encode NpEncoder.default 5 report
    = NpEncoder.encode NpEncoder.JSONEncoder_default 5 (NpEncoderProperties.to_python report).
Proof.
  split; [exact report_cost|].
  exact (NpEncoderProperties.NpEncoder_converts 5 report report_cost).
Defined.

(** An instance of X20: the numpy boolean is not encoded. *)
Lemma NpEncoder_encodes_iff_witness :
  NpEncoderProperties.cost flags <= 5 /\
  ((exists doc, NpEncoder.encode NpEncoder.default 5 flags = Ok doc)
   <-> NpEncoderProperties.supported flags = true).
Proof.
  split; [exact flags_cost|].
  exact (NpEncoderProperties.NpEncoder_encodes_iff 5 flags flags_cost).
Defined.
